(** * Cache-coherence decisions of the compose image cache action

    A shallow embedding of [src/docker-compose-service-processing.ts]
    (pullAndCacheImage, tryRestoreFromCacheWithoutDigest, processCacheHit,
    processService) and of the batch of [main.ts] (the callbacks under
    [Promise.all] in run).

    The external collaborators (the container runtime reached through
    [./docker-command] and the cache store reached through [./cache]) are
    modelled as state transformers over an abstract [World]; the program is
    written in a small state-and-trace monad that threads the world and
    records every external request and every log line in program order. For
    the batch the same code is cut at its awaits, and the callbacks take
    their turns in whatever order the runtime resumes them. *)

From Stdlib Require Import String Ascii List Bool ZArith Lia.
Import ListNotations.
Local Open Scope string_scope.

Set Implicit Arguments.

(** ** JavaScript values used by the code *)

(** [!s] for a value of type [string | undefined]: falsy when it is
    [undefined] or the empty string. *)
Definition truthy (s : option string) : bool :=
  match s with
  | Some v => negb (v =? "")
  | None => false
  end.

(** A template literal prints [undefined] for a missing value. *)
Definition template (s : option string) : string :=
  match s with
  | Some v => v
  | None => "undefined"
  end.

(** [s || ''] for a value of type [string | undefined]. *)
Definition orEmpty (s : option string) : string :=
  match s with
  | Some v => v
  | None => ""
  end.

(** [a === b] on [string | undefined]. *)
Definition strictEq (a b : option string) : bool :=
  match a, b with
  | Some x, Some y => x =? y
  | None, None => true
  | _, _ => false
  end.

(** [s.split(sep)] for a one-character separator: every occurrence of the
    separator cuts, and the result always has at least one element. *)
Fixpoint split (sep : ascii) (s : string) : list string :=
  match s with
  | EmptyString => [EmptyString]
  | String c rest =>
      if Ascii.eqb c sep then EmptyString :: split sep rest
      else match split sep rest with
           | piece :: pieces => String c piece :: pieces
           | [] => [String c EmptyString]
           end
  end.

(** ** Data model *)

(** [DockerImageManifest] of docker-command. *)
Record DockerImageManifest := { m_digest : option string }.

(** [DockerImageMetadata] of docker-command; [Size] is only carried along. *)
Record DockerImageMetadata := { Size : Z }.

(** [CacheOperationResult] of cache. *)
Record CacheOperationResult := {
  op_success : bool;
  op_cacheKey : option string;
  op_error : option string
}.

(** [ComposeService] of docker-compose-file. *)
Record ComposeService := {
  image : string;
  svc_platform : option string
}.

Record ServiceResult := {
  success : bool;
  restoredFromCache : bool;
  imageName : string;
  cacheKey : string;
  digest : option string;
  platform : option string;
  error : option string;
  imageSize : option Z
}.

(** [TimedServiceResult] of action-outputs: the outcome spread into a
    record with the two timing fields. *)
Record TimedServiceResult := {
  tsr_result : ServiceResult;
  processingDuration : Z;
  humanReadableDuration : string
}.

(** [ActionConfig] of the main.ts whose run calls [processService] with a
    service, the prefix and the skip flag. *)
Record ActionConfig := {
  composeFilePaths : list string;
  excludeImageNames : list string;
  cacheKeyPrefix : string;
  skipDigestVerification : bool
}.

Record ImageOperationResult := {
  io_success : bool;
  io_imageSize : option Z;
  io_error : option string
}.

(** [newManifest?.digest] *)
Definition digestOf (manifest : option DockerImageManifest) : option string :=
  match manifest with
  | Some m => m_digest m
  | None => None
  end.

(** [inspectInfo?.Size] *)
Definition sizeOf (inspectInfo : option DockerImageMetadata) : option Z :=
  option_map Size inspectInfo.

(** ** External requests and log lines, in program order *)

Inductive LogLevel := Debug | Info | Warning.

Inductive Event :=
| EvInspectRemote (imageName : string)
| EvPull (imageName : string) (platform : option string)
| EvSaveTar (imageName outputPath : string)
| EvLoadTar (tarPath : string)
| EvInspectLocal (imageName : string)
| EvRestoreCache (paths : list string) (key : string) (restoreKeys : option (list string))
| EvSaveCache (paths : list string) (key : string)
| EvSaveManifest (manifest : DockerImageManifest) (manifestPath key : string)
| EvReadManifest (manifestPath : string)
| EvLog (level : LogLevel) (message : string).

(** Requests that reach the cache store or the files restored from it. *)
Definition isCacheAccess (e : Event) : bool :=
  match e with
  | EvRestoreCache _ _ _ | EvSaveCache _ _ | EvSaveManifest _ _ _
  | EvReadManifest _ | EvLoadTar _ => true
  | _ => false
  end.

(** Requests that write to the cache store. *)
Definition isCacheSave (e : Event) : bool :=
  match e with
  | EvSaveCache _ _ | EvSaveManifest _ _ _ => true
  | _ => false
  end.

(** Requests that read what the cache holds: a restore, the read of the
    restored manifest file, the load of the restored archive. *)
Definition isCacheLookup (e : Event) : bool :=
  match e with
  | EvRestoreCache _ _ _ | EvReadManifest _ | EvLoadTar _ => true
  | _ => false
  end.

Definition isRemoteInspect (e : Event) : bool :=
  match e with
  | EvInspectRemote _ => true
  | _ => false
  end.

Definition isTarWrite (e : Event) : bool :=
  match e with
  | EvSaveTar _ _ => true
  | _ => false
  end.

Definition isTarLoad (e : Event) : bool :=
  match e with
  | EvLoadTar _ => true
  | _ => false
  end.

Definition isArchiveSave (e : Event) : bool :=
  match e with
  | EvSaveCache _ _ => true
  | _ => false
  end.

Definition isManifestSave (e : Event) : bool :=
  match e with
  | EvSaveManifest _ _ _ => true
  | _ => false
  end.

(** A restore that may match by key prefix, as the degraded fallback asks. *)
Definition isPrefixRestore (e : Event) : bool :=
  match e with
  | EvRestoreCache _ _ (Some _) => true
  | _ => false
  end.

Definition isPull (e : Event) : bool :=
  match e with
  | EvPull _ _ => true
  | _ => false
  end.

(** ** The imported modules, as interfaces over the world *)

(** What [./docker-command] exports: each operation shells out, so its
    answer is whatever the world gives, and the world moves on. *)
Record DockerCommand (World : Type) := {
  inspectImageLocal_io : string -> World -> option DockerImageMetadata * World;
  inspectImageRemote_io : string -> World -> option DockerImageManifest * World;
  loadImageFromTar_io : string -> World -> bool * World;
  pullImage_io : string -> option string -> World -> bool * World;
  saveImageToTar_io : string -> string -> World -> bool * World
}.

(** What [./cache] exports (its body is outside the sources at hand; the
    signatures are those of [dist/cache.d.ts]). The key and path generators
    are pure; the other operations talk to the cache store and the disk. *)
Record Cache (World : Type) := {
  generateCacheKey : string -> string -> string -> option string -> option string -> string;
  generateCacheKeyPrefix : string -> string -> string -> option string -> string;
  generateManifestCacheKey : string -> string -> string -> option string -> option string -> string;
  generateManifestPath : string -> string -> option string -> option string -> string;
  generateTarPath : string -> string -> option string -> option string -> string;
  readManifestFromFile_io : string -> World -> option DockerImageManifest * World;
  restoreFromCache_io : list string -> string -> option (list string) -> World -> CacheOperationResult * World;
  saveManifestToCache_io : DockerImageManifest -> string -> string -> World -> bool * World;
  saveToCache_io : list string -> string -> World -> CacheOperationResult * World
}.

(** ** The monad: world passing plus an append-only trace *)

Section Processing.

Context {World : Type}.
Variable cache : Cache World.
Variable docker : DockerCommand World.

Definition M (A : Type) : Type := World -> A * World * list Event.

Definition ret {A} (a : A) : M A := fun w => (a, w, []).

Definition bind {A B} (m : M A) (f : A -> M B) : M B :=
  fun w =>
    let '(a, w1, e1) := m w in
    let '(b, w2, e2) := f a w1 in
    (b, w2, (e1 ++ e2)%list).

Notation "x <- m ;; k" := (bind m (fun x => k))
  (at level 61, m at next level, right associativity).
Notation "m ;;; k" := (bind m (fun _ => k))
  (at level 61, right associativity).

(** One awaited external call: the request is recorded, the world answers. *)
Definition call {A} (ev : Event) (op : World -> A * World) : M A :=
  fun w => let '(a, w1) := op w in (a, w1, [ev]).

(** [core.debug], [core.info], [core.warning]. *)
Definition log (level : LogLevel) (message : string) : M unit :=
  fun w => (tt, w, [EvLog level message]).

Definition outcome {A} (r : A * World * list Event) : A := fst (fst r).
Definition finalWorld {A} (r : A * World * list Event) : World := snd (fst r).
Definition events {A} (r : A * World * list Event) : list Event := snd r.

(** The awaited calls of docker-command and cache. *)
Definition pullImage (imageName : string) (platform : option string) : M bool :=
  call (EvPull imageName platform) (pullImage_io docker imageName platform).
Definition inspectImageRemote (imageName : string) : M (option DockerImageManifest) :=
  call (EvInspectRemote imageName) (inspectImageRemote_io docker imageName).
Definition inspectImageLocal (imageName : string) : M (option DockerImageMetadata) :=
  call (EvInspectLocal imageName) (inspectImageLocal_io docker imageName).
Definition saveImageToTar (imageName outputPath : string) : M bool :=
  call (EvSaveTar imageName outputPath) (saveImageToTar_io docker imageName outputPath).
Definition loadImageFromTar (tarPath : string) : M bool :=
  call (EvLoadTar tarPath) (loadImageFromTar_io docker tarPath).
Definition restoreFromCache (paths : list string) (key : string)
    (restoreKeys : option (list string)) : M CacheOperationResult :=
  call (EvRestoreCache paths key restoreKeys) (restoreFromCache_io cache paths key restoreKeys).
Definition saveToCache (paths : list string) (key : string) : M CacheOperationResult :=
  call (EvSaveCache paths key) (saveToCache_io cache paths key).
Definition saveManifestToCache (manifest : DockerImageManifest)
    (manifestPath manifestCacheKey : string) : M bool :=
  call (EvSaveManifest manifest manifestPath manifestCacheKey)
       (saveManifestToCache_io cache manifest manifestPath manifestCacheKey).
Definition readManifestFromFile (manifestPath : string) : M (option DockerImageManifest) :=
  call (EvReadManifest manifestPath) (readManifestFromFile_io cache manifestPath).

(** ** pullAndCacheImage *)

Definition pullAndCacheImage (completeImageName : string) (platformString : option string)
    (imageCacheKey manifestCacheKey imageTarPath manifestPath imageDigest : string)
    (manifest : DockerImageManifest) : M ImageOperationResult :=
  pulled <- pullImage completeImageName platformString ;;
  if negb pulled then
    ret {| io_success := false; io_imageSize := None;
           io_error := Some ("Failed to pull image: " ++ completeImageName) |}
  else
    newManifest <- inspectImageRemote completeImageName ;;
    let newImageDigest := digestOf newManifest in
    if negb (strictEq newImageDigest (Some imageDigest)) then
      ret {| io_success := false; io_imageSize := None;
             io_error := Some ("Digest mismatch for " ++ completeImageName
                               ++ ": expected " ++ imageDigest
                               ++ ", got " ++ template newImageDigest) |}
    else
      saved <- saveImageToTar completeImageName imageTarPath ;;
      if negb saved then
        ret {| io_success := false; io_imageSize := None;
               io_error := Some ("Failed to save image to tar: " ++ completeImageName) |}
      else
        saveManifestToCache manifest manifestPath manifestCacheKey ;;;
        cacheResult <- saveToCache [imageTarPath] imageCacheKey ;;
        (if op_success cacheResult
         then log Info ("Cached " ++ completeImageName ++ " with key " ++ imageCacheKey)
         else ret tt) ;;;
        inspectInfo <- inspectImageLocal completeImageName ;;
        ret {| io_success := true; io_imageSize := sizeOf inspectInfo; io_error := None |}.

(** ** tryRestoreFromCacheWithoutDigest *)

Definition tryRestoreFromCacheWithoutDigest (completeImageName imageNameWithoutTag imageTag : string)
    (platform : option string) (cacheKeyPrefix : string) : M (option ServiceResult) :=
  let cacheKeyPrefixWithoutDigest :=
    generateCacheKeyPrefix cache cacheKeyPrefix imageNameWithoutTag imageTag platform in
  let fallbackTarPath :=
    generateTarPath cache imageNameWithoutTag imageTag platform (Some "fallback") in
  cacheResult <- restoreFromCache [fallbackTarPath]
                   (cacheKeyPrefixWithoutDigest ++ "-fallback")
                   (Some [cacheKeyPrefixWithoutDigest]) ;;
  if negb (op_success cacheResult) then ret None
  else
    loadSuccess <- loadImageFromTar fallbackTarPath ;;
    if negb loadSuccess then
      log Debug ("Failed to load image from fallback cache: " ++ completeImageName) ;;;
      ret None
    else
      inspectInfo <- inspectImageLocal completeImageName ;;
      let imageSize := sizeOf inspectInfo in
      ret (Some {| success := true;
                   restoredFromCache := true;
                   imageName := completeImageName;
                   cacheKey := orEmpty (op_cacheKey cacheResult);
                   digest := None;
                   platform := platform;
                   error := None;
                   imageSize := imageSize |}).

(** ** processCacheHit

    The source writes the trusted outcome out in each branch; it is the same
    record every time and is named once here. The two calls under
    [Promise.all] are started in the order written, which is the order they
    take here. *)

Definition processCacheHit (completeImageName imageTarPath manifestPath : string)
    (manifestCacheHitKey : option string) (skipLatestCheck : bool)
    (imageDigest : string) (platform : option string) : M ServiceResult :=
  loadSuccess <- loadImageFromTar imageTarPath ;;
  if negb loadSuccess then
    ret {| success := false; restoredFromCache := false;
           imageName := completeImageName; cacheKey := "";
           digest := Some imageDigest; platform := platform;
           error := Some ("Failed to load image from cache: " ++ completeImageName);
           imageSize := None |}
  else
    inspectInfo <- inspectImageLocal completeImageName ;;
    let imageSize := sizeOf inspectInfo in
    let trusted :=
      {| success := true; restoredFromCache := true;
         imageName := completeImageName; cacheKey := "";
         digest := Some imageDigest; platform := platform;
         error := None; imageSize := imageSize |} in
    if skipLatestCheck then
      log Info ("Skipped latest check for " ++ completeImageName ++ ", using cached version") ;;;
      ret trusted
    else if negb (truthy manifestCacheHitKey) then
      log Debug ("No manifest cache for " ++ completeImageName) ;;;
      ret trusted
    else
      cachedManifest <- readManifestFromFile manifestPath ;;
      remoteManifest <- inspectImageRemote completeImageName ;;
      match cachedManifest, remoteManifest with
      | Some cachedM, Some remoteM =>
          if strictEq (m_digest cachedM) (m_digest remoteM) then
            log Debug ("Manifest match confirmed for " ++ completeImageName) ;;;
            ret trusted
          else
            log Info ("Manifest mismatch detected for " ++ completeImageName
                      ++ ", pulling fresh image") ;;;
            pullSuccess <- pullImage completeImageName platform ;;
            (if negb pullSuccess
             then log Warning ("Failed to pull updated image " ++ completeImageName)
             else ret tt) ;;;
            ret trusted
      | _, _ =>
          log Debug ("Cannot compare manifests for " ++ completeImageName ++ ": missing data") ;;;
          ret trusted
      end.

(** ** processService

    [unavailable] is the body of [if (!manifest || !manifest.digest)]: the
    optional fallback, then the failure outcome. [resolved] is what follows
    that guard, with [manifest.digest] known to be a non-empty string. The
    two restores under [Promise.all] are started in the order written. *)

(** [{ ...result, cacheKey: imageCacheKey }] *)
Definition withCacheKey (result : ServiceResult) (key : string) : ServiceResult :=
  {| success := success result; restoredFromCache := restoredFromCache result;
     imageName := imageName result; cacheKey := key;
     digest := digest result; platform := platform result;
     error := error result; imageSize := imageSize result |}.

(** [const [imageNamePart, imageTagOrLatest = 'latest'] = completeImageName.split(':')] *)
Definition imageNamePart (completeImageName : string) : option string :=
  nth_error (split ":" completeImageName) 0.

Definition imageTagOrLatest (completeImageName : string) : string :=
  match nth_error (split ":" completeImageName) 1 with
  | Some tag => tag
  | None => "latest"
  end.

Definition processService (serviceDefinition : ComposeService) (cacheKeyPrefix : string)
    (skipLatestCheck forceRefresh : bool) : M ServiceResult :=
  let completeImageName := image serviceDefinition in
  let imageTagOrLatest := imageTagOrLatest completeImageName in
  let invalid :=
    {| success := false; restoredFromCache := false;
       imageName := completeImageName; cacheKey := "";
       digest := None; platform := svc_platform serviceDefinition;
       error := Some ("Invalid image name format: " ++ completeImageName);
       imageSize := None |} in
  match imageNamePart completeImageName with
  | None => ret invalid
  | Some imageNameWithoutTag =>
    if negb (truthy (Some imageNameWithoutTag)) then ret invalid
    else
      manifest <- inspectImageRemote completeImageName ;;
      let unavailable :=
        fallbackResult <-
          (if skipLatestCheck && negb forceRefresh then
             tryRestoreFromCacheWithoutDigest completeImageName imageNameWithoutTag
               imageTagOrLatest (svc_platform serviceDefinition) cacheKeyPrefix
           else ret None) ;;
        match fallbackResult with
        | Some fallback =>
            log Warning ("Registry unavailable for " ++ completeImageName
                         ++ ". Using cached version. "
                         ++ "Image may be outdated. Enable network access or set force-refresh to pull fresh images.") ;;;
            ret fallback
        | None =>
            log Warning ("Could not get digest for " ++ completeImageName ++ ", skipping cache") ;;;
            ret {| success := false; restoredFromCache := false;
                   imageName := completeImageName; cacheKey := "";
                   digest := None; platform := svc_platform serviceDefinition;
                   error := Some ("Could not get digest for " ++ completeImageName);
                   imageSize := None |}
        end in
      let resolved (manifest : DockerImageManifest) (imageDigest : string) :=
        let imageCacheKey :=
          generateCacheKey cache cacheKeyPrefix imageNameWithoutTag imageTagOrLatest
            (svc_platform serviceDefinition) (Some imageDigest) in
        let imageTarPath :=
          generateTarPath cache imageNameWithoutTag imageTagOrLatest
            (svc_platform serviceDefinition) (Some imageDigest) in
        let manifestCacheKey :=
          generateManifestCacheKey cache cacheKeyPrefix imageNameWithoutTag imageTagOrLatest
            (svc_platform serviceDefinition) (Some imageDigest) in
        let manifestPath :=
          generateManifestPath cache imageNameWithoutTag imageTagOrLatest
            (svc_platform serviceDefinition) (Some imageDigest) in
        let pulledOutcome (pullResult : ImageOperationResult) :=
          {| success := io_success pullResult; restoredFromCache := false;
             imageName := completeImageName; cacheKey := imageCacheKey;
             digest := Some imageDigest; platform := svc_platform serviceDefinition;
             error := io_error pullResult; imageSize := io_imageSize pullResult |} in
        (if truthy (svc_platform serviceDefinition)
         then log Info ("Using platform " ++ template (svc_platform serviceDefinition)
                        ++ " for " ++ completeImageName)
         else ret tt) ;;;
        log Info ("Cache key for " ++ completeImageName ++ ": " ++ imageCacheKey) ;;;
        log Debug ("Cache path: " ++ imageTarPath) ;;;
        if forceRefresh then
          log Info ("Force refresh enabled for " ++ completeImageName ++ ", pulling fresh image") ;;;
          pullResult <- pullAndCacheImage completeImageName (svc_platform serviceDefinition)
                          imageCacheKey manifestCacheKey imageTarPath manifestPath
                          imageDigest manifest ;;
          ret (pulledOutcome pullResult)
        else
          cacheResult <- restoreFromCache [imageTarPath] imageCacheKey None ;;
          manifestCacheResult <- restoreFromCache [manifestPath] manifestCacheKey None ;;
          if negb (op_success cacheResult) then
            log Info ("Cache miss for " ++ completeImageName ++ ", pulling and saving") ;;;
            pullResult <- pullAndCacheImage completeImageName (svc_platform serviceDefinition)
                            imageCacheKey manifestCacheKey imageTarPath manifestPath
                            imageDigest manifest ;;
            ret (pulledOutcome pullResult)
          else
            log Info ("Cache hit for " ++ completeImageName ++ ", loading from cache") ;;;
            result <- processCacheHit completeImageName imageTarPath manifestPath
                        (op_cacheKey manifestCacheResult) skipLatestCheck imageDigest
                        (svc_platform serviceDefinition) ;;
            ret (withCacheKey result imageCacheKey) in
      match manifest with
      | Some m =>
          match m_digest m with
          | Some imageDigest =>
              if truthy (Some imageDigest) then resolved m imageDigest else unavailable
          | None => unavailable
          end
      | None => unavailable
      end
  end.

End Processing.

Arguments M World A : clear implicits.
Arguments ret {World A} a.
Arguments outcome {World A} r.
Arguments finalWorld {World A} r.
Arguments events {World A} r.

(** ** Callbacks that suspend

    An [async] function runs without interruption until it awaits; what
    follows the [await] runs in a later turn of the event loop, once the
    awaited calls have completed and the loop picks it. A [Task] is the code
    of such a function cut at its awaits. [Log] and [Now] (a reading of
    [performance.now()]) happen within a turn. [Await] ends the turn: the
    collaborators are called in the turn that reaches the call, on the world
    as it is then, and [next] is the code that is resumed with their
    answers. *)

Section Tasks.

Context {World : Type}.

Inductive Task (A : Type) : Type :=
| Return (a : A)
| Log (level : LogLevel) (message : string) (next : Task A)
| Now (next : Z -> Task A)
| Await (R : Type) (requests : list Event) (issue : World -> R * World)
        (next : R -> Task A).

Arguments Return {A} a.
Arguments Log {A} level message next.
Arguments Now {A} next.
Arguments Await {A R} requests issue next.

Fixpoint andThen {A B} (t : Task A) (f : A -> Task B) : Task B :=
  match t with
  | Return a => f a
  | Log level message next => Log level message (andThen next f)
  | Now next => Now (fun time => andThen (next time) f)
  | Await requests issue next => Await requests issue (fun r => andThen (next r) f)
  end.

(** A call of an imported async function: the request it makes and what the
    world answers. *)
Record Call (R : Type) := {
  request : Event;
  perform : World -> R * World
}.

(** [await f(...)] for an imported [f]. *)
Definition await {R} (c : Call R) : Task R :=
  Await [request c] (perform c) (fun r => Return r).

(** [await Promise.all([f(...), g(...)])]: both calls are made in the same
    turn, in the order written, before the function suspends. *)
Definition awaitAll {R1 R2} (c1 : Call R1) (c2 : Call R2) : Task (R1 * R2) :=
  Await [request c1; request c2]
        (fun w =>
           let '(r1, w1) := perform c1 w in
           let '(r2, w2) := perform c2 w1 in
           ((r1, r2), w2))
        (fun r => Return r).

(** [await f(...)] for an async function [f] of the program: [f] runs in
    the caller's turn up to its own first await, and the caller is resumed
    in a later turn than the one in which [f] returns. *)
Definition awaitAsync {A} (t : Task A) : Task A :=
  andThen t (fun a => Await [] (fun w => (tt, w)) (fun _ => Return a)).

Definition logLine (level : LogLevel) (message : string) : Task unit :=
  Log level message (Return tt).

(** *** The scheduler *)

Variable performanceNow_io : World -> Z * World.

Inductive Thread (A : Type) : Type :=
| Suspended (rest : Task A)
| Finished (a : A).

Arguments Finished {A} a.

(** One turn: the task runs until it has made the calls of its next await,
    or returns. *)
Fixpoint resume {A} (t : Task A) (w : World) : Thread A * World * list Event :=
  match t with
  | Return a => (Finished a, w, [])
  | Log level message next =>
      let '(thread, w1, e) := resume next w in
      (thread, w1, EvLog level message :: e)
  | Now next =>
      let '(time, w1) := performanceNow_io w in
      resume (next time) w1
  | Await requests issue next =>
      let '(r, w1) := issue w in
      (Suspended (next r), w1, requests)
  end.

(** [list.map(async ...)]: every callback is called in turn, in input
    order, and runs up to its first await. *)
Fixpoint startAll {A} (tasks : list (Task A)) (w : World)
    : list (Thread A) * World * list Event :=
  match tasks with
  | [] => ([], w, [])
  | t :: rest =>
      let '(thread, w1, e1) := resume t w in
      let '(threads, w2, e2) := startAll rest w1 in
      (thread :: threads, w2, (e1 ++ e2)%list)
  end.

Fixpoint replaceAt {A} (i : nat) (a : A) (l : list A) : list A :=
  match l, i with
  | [], _ => []
  | _ :: rest, O => a :: rest
  | x :: rest, S j => x :: replaceAt j a rest
  end.

(** The event loop resumes the suspended callback at position [i]; picking a
    finished callback (or none) changes nothing. *)
Definition turn {A} (i : nat) (threads : list (Thread A)) (w : World)
    : list (Thread A) * World * list Event :=
  match nth_error threads i with
  | Some (Suspended rest) =>
      let '(thread, w1, e) := resume rest w in
      (replaceAt i thread threads, w1, e)
  | _ => (threads, w, [])
  end.

(** The turns are taken in the order of [schedule]: the order in which the
    awaited answers complete is the runtime's, not the program's. *)
Fixpoint turns {A} (schedule : list nat) (threads : list (Thread A)) (w : World)
    : list (Thread A) * World * list Event :=
  match schedule with
  | [] => (threads, w, [])
  | i :: later =>
      let '(threads1, w1, e1) := turn i threads w in
      let '(threads2, w2, e2) := turns later threads1 w1 in
      (threads2, w2, (e1 ++ e2)%list)
  end.

(** The array [Promise.all] resolves with: the callbacks' values at the
    positions of their callbacks, once every callback has returned. *)
Fixpoint fulfilled {A} (threads : list (Thread A)) : option (list A) :=
  match threads with
  | [] => Some []
  | Finished a :: rest => option_map (cons a) (fulfilled rest)
  | Suspended _ :: _ => None
  end.

Definition promiseAll {A} (tasks : list (Task A)) (schedule : list nat) (w : World)
    : option (list A) * World * list Event :=
  let '(threads, w1, e1) := startAll tasks w in
  let '(threads', w2, e2) := turns schedule threads w1 in
  (fulfilled threads', w2, (e1 ++ e2)%list).

(** *** The same code run on its own, one call after the other *)

Fixpoint alone {A} (t : Task A) : M World A :=
  match t with
  | Return a => ret a
  | Log level message next => bind (log level message) (fun _ => alone next)
  | Now next =>
      fun w =>
        let '(time, w1) := performanceNow_io w in
        alone (next time) w1
  | Await requests issue next =>
      fun w =>
        let '(r, w1) := issue w in
        let '(a, w2, e) := alone (next r) w1 in
        (a, w2, (requests ++ e)%list)
  end.

(** *** What can be said of every path of a task *)

(** [P] holds of the value the task returns, whatever the collaborators
    answer. *)
Fixpoint everyReturn {A} (P : A -> Prop) (t : Task A) : Prop :=
  match t with
  | Return a => P a
  | Log _ _ next => everyReturn P next
  | Now next => forall time, everyReturn P (next time)
  | Await _ _ next => forall r, everyReturn P (next r)
  end.

(** The task returns after at most [n] awaits, whatever the answers. *)
Fixpoint awaitsAtMost {A} (n : nat) (t : Task A) : Prop :=
  match t with
  | Return _ => True
  | Log _ _ next => awaitsAtMost n next
  | Now next => forall time, awaitsAtMost n (next time)
  | Await _ _ next =>
      match n with
      | O => False
      | S m => forall r, awaitsAtMost m (next r)
      end
  end.

(** On every path at most [n] of the requests and log lines pass [f]. *)
Fixpoint spendsAtMost {A} (f : Event -> bool) (n : nat) (t : Task A) : Prop :=
  match t with
  | Return _ => True
  | Log level message next =>
      length (filter f [EvLog level message]) <= n
      /\ spendsAtMost f (n - length (filter f [EvLog level message])) next
  | Now next => forall time, spendsAtMost f n (next time)
  | Await requests _ next =>
      length (filter f requests) <= n
      /\ forall r, spendsAtMost f (n - length (filter f requests)) (next r)
  end.

(** Every collaborator call the task can make satisfies [P]. *)
Fixpoint everyCall {A} (P : forall R, (World -> R * World) -> Prop) (t : Task A) : Prop :=
  match t with
  | Return _ => True
  | Log _ _ next => everyCall P next
  | Now next => forall time, everyCall P (next time)
  | Await _ issue next => P _ issue /\ forall r, everyCall P (next r)
  end.

(** The same, of a callback that may have returned already. *)
Definition returns {A} (P : A -> Prop) (thread : Thread A) : Prop :=
  match thread with
  | Finished a => P a
  | Suspended rest => everyReturn P rest
  end.

Definition returnsWithin {A} (n : nat) (thread : Thread A) : Prop :=
  match thread with
  | Finished _ => True
  | Suspended rest => awaitsAtMost n rest
  end.

Definition spends {A} (f : Event -> bool) (n : nat) (thread : Thread A) : Prop :=
  match thread with
  | Finished _ => True
  | Suspended rest => spendsAtMost f n rest
  end.

Definition calls {A} (P : forall R, (World -> R * World) -> Prop) (thread : Thread A)
    : Prop :=
  match thread with
  | Finished _ => True
  | Suspended rest => everyCall P rest
  end.

(** [keeps] holds of every callback at its position. *)
Definition eachAt {A} (keeps : nat -> Thread A -> Prop) (threads : list (Thread A))
    : Prop :=
  forall i thread, nth_error threads i = Some thread -> keeps i thread.

(** Two tasks that differ only in what they do with the clock's readings,
    up to [same] on their values. *)
Inductive alike {A} (same : A -> A -> Prop) : Task A -> Task A -> Prop :=
| alike_Return a a' :
    same a a' -> alike same (Return a) (Return a')
| alike_Log level message next next' :
    alike same next next' ->
    alike same (Log level message next) (Log level message next')
| alike_Now next next' :
    (forall time time', alike same (next time) (next' time')) ->
    alike same (Now next) (Now next')
| alike_Await R requests (issue : World -> R * World) next next' :
    (forall r, alike same (next r) (next' r)) ->
    alike same (Await requests issue next) (Await requests issue next').

Definition alikeThread {A} (same : A -> A -> Prop) (thread thread' : Thread A) : Prop :=
  match thread, thread' with
  | Finished a, Finished a' => same a a'
  | Suspended rest, Suspended rest' => alike same rest rest'
  | _, _ => False
  end.

(** The value a callback has returned or, run on its own from [w], will
    return. *)
Definition valueFrom {A} (thread : Thread A) (w : World) : A :=
  match thread with
  | Finished a => a
  | Suspended rest => outcome (alone rest w)
  end.

(** *** Collaborators that keep one callback apart from the others

    [view w w'] says that the worlds [w] and [w'] look the same to the
    callback at position [i]. The collaborators keep it apart when its own
    calls are answered by what it can see, and no other callback's call, nor
    reading the clock, changes what it sees. *)

Definition answersByView (view : World -> World -> Prop)
    (R : Type) (op : World -> R * World) : Prop :=
  forall w w', view w w' ->
    fst (op w) = fst (op w') /\ view (snd (op w)) (snd (op w')).

Definition keepsView (view : World -> World -> Prop)
    (R : Type) (op : World -> R * World) : Prop :=
  forall w, view (snd (op w)) w.

Record KeptApart {A} (view : World -> World -> Prop) (i : nat)
    (tasks : list (Task A)) : Prop := {
  view_refl : forall w, view w w;
  view_sym : forall w w', view w w' -> view w' w;
  view_trans : forall w1 w2 w3, view w1 w2 -> view w2 w3 -> view w1 w3;
  clock_keeps : keepsView view performanceNow_io;
  own_calls : forall t, nth_error tasks i = Some t -> everyCall (answersByView view) t;
  other_calls : forall j t, j <> i -> nth_error tasks j = Some t ->
                            everyCall (keepsView view) t
}.

(** The callback at [i] is in step with its run on its own, [solo] in the
    world [w']; the other callbacks keep to what it cannot see. *)
Definition inStep {A} (same : A -> A -> Prop) (view : World -> World -> Prop)
    (i : nat) (threads : list (Thread A)) (w : World)
    (solo : Thread A) (w' : World) : Prop :=
  (exists thread, nth_error threads i = Some thread
                  /\ alikeThread same thread solo
                  /\ calls (answersByView view) thread)
  /\ view w w'
  /\ forall j thread, j <> i -> nth_error threads j = Some thread ->
                      calls (keepsView view) thread.

End Tasks.

Arguments Return {World A} a.
Arguments Log {World A} level message next.
Arguments Now {World A} next.
Arguments Await {World A R} requests issue next.
Arguments Finished {World A} a.
Arguments Suspended {World A} rest.

(** ** The per-image code as tasks

    The same functions as above, cut at their awaits. [Async.f] is the code
    of [f] with every [await] in its place; run on its own it is [f] (shown
    below). *)

Module Async.
Section Code.

Context {World : Type}.
Variable cache : Cache World.
Variable docker : DockerCommand World.

Notation "x <- m ;; k" := (andThen m (fun x => k))
  (at level 61, m at next level, right associativity).
Notation "m ;;; k" := (andThen m (fun _ => k))
  (at level 61, right associativity).

Definition pullImage (imageName : string) (platform : option string) : Call bool :=
  {| request := EvPull imageName platform;
     perform := pullImage_io docker imageName platform |}.
Definition inspectImageRemote (imageName : string) : Call (option DockerImageManifest) :=
  {| request := EvInspectRemote imageName;
     perform := inspectImageRemote_io docker imageName |}.
Definition inspectImageLocal (imageName : string) : Call (option DockerImageMetadata) :=
  {| request := EvInspectLocal imageName;
     perform := inspectImageLocal_io docker imageName |}.
Definition saveImageToTar (imageName outputPath : string) : Call bool :=
  {| request := EvSaveTar imageName outputPath;
     perform := saveImageToTar_io docker imageName outputPath |}.
Definition loadImageFromTar (tarPath : string) : Call bool :=
  {| request := EvLoadTar tarPath;
     perform := loadImageFromTar_io docker tarPath |}.
Definition restoreFromCache (paths : list string) (key : string)
    (restoreKeys : option (list string)) : Call CacheOperationResult :=
  {| request := EvRestoreCache paths key restoreKeys;
     perform := restoreFromCache_io cache paths key restoreKeys |}.
Definition saveToCache (paths : list string) (key : string) : Call CacheOperationResult :=
  {| request := EvSaveCache paths key;
     perform := saveToCache_io cache paths key |}.
Definition saveManifestToCache (manifest : DockerImageManifest)
    (manifestPath manifestCacheKey : string) : Call bool :=
  {| request := EvSaveManifest manifest manifestPath manifestCacheKey;
     perform := saveManifestToCache_io cache manifest manifestPath manifestCacheKey |}.
Definition readManifestFromFile (manifestPath : string) : Call (option DockerImageManifest) :=
  {| request := EvReadManifest manifestPath;
     perform := readManifestFromFile_io cache manifestPath |}.

Definition pullAndCacheImage (completeImageName : string) (platformString : option string)
    (imageCacheKey manifestCacheKey imageTarPath manifestPath imageDigest : string)
    (manifest : DockerImageManifest) : Task (World:=World) ImageOperationResult :=
  pulled <- await (pullImage completeImageName platformString) ;;
  if negb pulled then
    Return {| io_success := false; io_imageSize := None;
              io_error := Some ("Failed to pull image: " ++ completeImageName) |}
  else
    newManifest <- await (inspectImageRemote completeImageName) ;;
    let newImageDigest := digestOf newManifest in
    if negb (strictEq newImageDigest (Some imageDigest)) then
      Return {| io_success := false; io_imageSize := None;
                io_error := Some ("Digest mismatch for " ++ completeImageName
                                  ++ ": expected " ++ imageDigest
                                  ++ ", got " ++ template newImageDigest) |}
    else
      saved <- await (saveImageToTar completeImageName imageTarPath) ;;
      if negb saved then
        Return {| io_success := false; io_imageSize := None;
                  io_error := Some ("Failed to save image to tar: " ++ completeImageName) |}
      else
        await (saveManifestToCache manifest manifestPath manifestCacheKey) ;;;
        cacheResult <- await (saveToCache [imageTarPath] imageCacheKey) ;;
        (if op_success cacheResult
         then logLine Info ("Cached " ++ completeImageName ++ " with key " ++ imageCacheKey)
         else Return tt) ;;;
        inspectInfo <- await (inspectImageLocal completeImageName) ;;
        Return {| io_success := true; io_imageSize := sizeOf inspectInfo; io_error := None |}.

Definition tryRestoreFromCacheWithoutDigest
    (completeImageName imageNameWithoutTag imageTag : string)
    (platform : option string) (cacheKeyPrefix : string)
    : Task (World:=World) (option ServiceResult) :=
  let cacheKeyPrefixWithoutDigest :=
    generateCacheKeyPrefix cache cacheKeyPrefix imageNameWithoutTag imageTag platform in
  let fallbackTarPath :=
    generateTarPath cache imageNameWithoutTag imageTag platform (Some "fallback") in
  cacheResult <- await (restoreFromCache [fallbackTarPath]
                          (cacheKeyPrefixWithoutDigest ++ "-fallback")
                          (Some [cacheKeyPrefixWithoutDigest])) ;;
  if negb (op_success cacheResult) then Return None
  else
    loadSuccess <- await (loadImageFromTar fallbackTarPath) ;;
    if negb loadSuccess then
      logLine Debug ("Failed to load image from fallback cache: " ++ completeImageName) ;;;
      Return None
    else
      inspectInfo <- await (inspectImageLocal completeImageName) ;;
      let imageSize := sizeOf inspectInfo in
      Return (Some {| success := true;
                      restoredFromCache := true;
                      imageName := completeImageName;
                      cacheKey := orEmpty (op_cacheKey cacheResult);
                      digest := None;
                      platform := platform;
                      error := None;
                      imageSize := imageSize |}).

Definition processCacheHit (completeImageName imageTarPath manifestPath : string)
    (manifestCacheHitKey : option string) (skipLatestCheck : bool)
    (imageDigest : string) (platform : option string)
    : Task (World:=World) ServiceResult :=
  loadSuccess <- await (loadImageFromTar imageTarPath) ;;
  if negb loadSuccess then
    Return {| success := false; restoredFromCache := false;
              imageName := completeImageName; cacheKey := "";
              digest := Some imageDigest; platform := platform;
              error := Some ("Failed to load image from cache: " ++ completeImageName);
              imageSize := None |}
  else
    inspectInfo <- await (inspectImageLocal completeImageName) ;;
    let imageSize := sizeOf inspectInfo in
    let trusted :=
      {| success := true; restoredFromCache := true;
         imageName := completeImageName; cacheKey := "";
         digest := Some imageDigest; platform := platform;
         error := None; imageSize := imageSize |} in
    if skipLatestCheck then
      logLine Info ("Skipped latest check for " ++ completeImageName ++ ", using cached version") ;;;
      Return trusted
    else if negb (truthy manifestCacheHitKey) then
      logLine Debug ("No manifest cache for " ++ completeImageName) ;;;
      Return trusted
    else
      manifests <- awaitAll (readManifestFromFile manifestPath)
                            (inspectImageRemote completeImageName) ;;
      match fst manifests, snd manifests with
      | Some cachedM, Some remoteM =>
          if strictEq (m_digest cachedM) (m_digest remoteM) then
            logLine Debug ("Manifest match confirmed for " ++ completeImageName) ;;;
            Return trusted
          else
            logLine Info ("Manifest mismatch detected for " ++ completeImageName
                          ++ ", pulling fresh image") ;;;
            pullSuccess <- await (pullImage completeImageName platform) ;;
            (if negb pullSuccess
             then logLine Warning ("Failed to pull updated image " ++ completeImageName)
             else Return tt) ;;;
            Return trusted
      | _, _ =>
          logLine Debug ("Cannot compare manifests for " ++ completeImageName ++ ": missing data") ;;;
          Return trusted
      end.

Definition processService (serviceDefinition : ComposeService) (cacheKeyPrefix : string)
    (skipLatestCheck forceRefresh : bool) : Task (World:=World) ServiceResult :=
  let completeImageName := image serviceDefinition in
  let imageTagOrLatest := imageTagOrLatest completeImageName in
  let invalid :=
    {| success := false; restoredFromCache := false;
       imageName := completeImageName; cacheKey := "";
       digest := None; platform := svc_platform serviceDefinition;
       error := Some ("Invalid image name format: " ++ completeImageName);
       imageSize := None |} in
  match imageNamePart completeImageName with
  | None => Return invalid
  | Some imageNameWithoutTag =>
    if negb (truthy (Some imageNameWithoutTag)) then Return invalid
    else
      manifest <- await (inspectImageRemote completeImageName) ;;
      let unavailable :=
        fallbackResult <-
          (if skipLatestCheck && negb forceRefresh then
             awaitAsync
               (tryRestoreFromCacheWithoutDigest completeImageName imageNameWithoutTag
                  imageTagOrLatest (svc_platform serviceDefinition) cacheKeyPrefix)
           else Return None) ;;
        match fallbackResult with
        | Some fallback =>
            logLine Warning ("Registry unavailable for " ++ completeImageName
                             ++ ". Using cached version. "
                             ++ "Image may be outdated. Enable network access or set force-refresh to pull fresh images.") ;;;
            Return fallback
        | None =>
            logLine Warning ("Could not get digest for " ++ completeImageName ++ ", skipping cache") ;;;
            Return {| success := false; restoredFromCache := false;
                      imageName := completeImageName; cacheKey := "";
                      digest := None; platform := svc_platform serviceDefinition;
                      error := Some ("Could not get digest for " ++ completeImageName);
                      imageSize := None |}
        end in
      let resolved (manifest : DockerImageManifest) (imageDigest : string) :=
        let imageCacheKey :=
          generateCacheKey cache cacheKeyPrefix imageNameWithoutTag imageTagOrLatest
            (svc_platform serviceDefinition) (Some imageDigest) in
        let imageTarPath :=
          generateTarPath cache imageNameWithoutTag imageTagOrLatest
            (svc_platform serviceDefinition) (Some imageDigest) in
        let manifestCacheKey :=
          generateManifestCacheKey cache cacheKeyPrefix imageNameWithoutTag imageTagOrLatest
            (svc_platform serviceDefinition) (Some imageDigest) in
        let manifestPath :=
          generateManifestPath cache imageNameWithoutTag imageTagOrLatest
            (svc_platform serviceDefinition) (Some imageDigest) in
        let pulledOutcome (pullResult : ImageOperationResult) :=
          {| success := io_success pullResult; restoredFromCache := false;
             imageName := completeImageName; cacheKey := imageCacheKey;
             digest := Some imageDigest; platform := svc_platform serviceDefinition;
             error := io_error pullResult; imageSize := io_imageSize pullResult |} in
        (if truthy (svc_platform serviceDefinition)
         then logLine Info ("Using platform " ++ template (svc_platform serviceDefinition)
                            ++ " for " ++ completeImageName)
         else Return tt) ;;;
        logLine Info ("Cache key for " ++ completeImageName ++ ": " ++ imageCacheKey) ;;;
        logLine Debug ("Cache path: " ++ imageTarPath) ;;;
        if forceRefresh then
          logLine Info ("Force refresh enabled for " ++ completeImageName ++ ", pulling fresh image") ;;;
          pullResult <- awaitAsync
                          (pullAndCacheImage completeImageName (svc_platform serviceDefinition)
                             imageCacheKey manifestCacheKey imageTarPath manifestPath
                             imageDigest manifest) ;;
          Return (pulledOutcome pullResult)
        else
          restored <- awaitAll (restoreFromCache [imageTarPath] imageCacheKey None)
                               (restoreFromCache [manifestPath] manifestCacheKey None) ;;
          let cacheResult := fst restored in
          let manifestCacheResult := snd restored in
          if negb (op_success cacheResult) then
            logLine Info ("Cache miss for " ++ completeImageName ++ ", pulling and saving") ;;;
            pullResult <- awaitAsync
                            (pullAndCacheImage completeImageName (svc_platform serviceDefinition)
                               imageCacheKey manifestCacheKey imageTarPath manifestPath
                               imageDigest manifest) ;;
            Return (pulledOutcome pullResult)
          else
            logLine Info ("Cache hit for " ++ completeImageName ++ ", loading from cache") ;;;
            result <- awaitAsync
                        (processCacheHit completeImageName imageTarPath manifestPath
                           (op_cacheKey manifestCacheResult) skipLatestCheck imageDigest
                           (svc_platform serviceDefinition)) ;;
            Return (withCacheKey result imageCacheKey) in
      match manifest with
      | Some m =>
          match m_digest m with
          | Some imageDigest =>
              if truthy (Some imageDigest) then resolved m imageDigest else unavailable
          | None => unavailable
          end
      | None => unavailable
      end
  end.

(** *** The batch of main.ts

    [await Promise.all(targetServices.map(async (currentService) => ...))]
    of [run]. Of the two versions of main.ts among the sources this is the
    one whose [run] calls [processService] with the service, the prefix and
    the skip flag, which is the [processService] above with [forceRefresh]
    at its default [false]; the [run] of the other version passes a
    container runtime first, which this [processService] does not take.
    [formatTimeBetween] comes from date-utils. *)

Variable performanceNow_io : World -> Z * World.
Variable formatTimeBetween : Z -> Z -> string.

Definition serviceCallback (actionConfig : ActionConfig) (currentService : ComposeService)
    : Task (World:=World) TimedServiceResult :=
  Now (fun serviceStartTime =>
    serviceResult <- awaitAsync
                       (processService currentService
                          (cacheKeyPrefix actionConfig)
                          (skipDigestVerification actionConfig)
                          false) ;;
    Now (fun serviceEndTime =>
      Return {| tsr_result := serviceResult;
                processingDuration := (serviceEndTime - serviceStartTime)%Z;
                humanReadableDuration :=
                  formatTimeBetween serviceStartTime serviceEndTime |})).

Definition serviceProcessingResults
    (actionConfig : ActionConfig) (targetServices : list ComposeService)
    (schedule : list nat) (w : World)
    : option (list TimedServiceResult) * World * list Event :=
  promiseAll performanceNow_io
             (map (serviceCallback actionConfig) targetServices) schedule w.

End Code.
End Async.

(** ** Names for the stretches of a run

    Used to state what a run did: the requests and log lines up to the end of
    key derivation, and the two ways into the pull-and-cache sequence. *)

Section Paths.

Context {World : Type}.
Variable cache : Cache World.

(** From the first remote inspection to the cache-path debug line. *)
Definition resolutionEvents (svc : ComposeService) (imageCacheKey imageTarPath : string)
    : list Event :=
  (EvInspectRemote (image svc)
   :: (if truthy (svc_platform svc)
       then [EvLog Info ("Using platform " ++ template (svc_platform svc)
                         ++ " for " ++ image svc)]
       else [])
   ++ [EvLog Info ("Cache key for " ++ image svc ++ ": " ++ imageCacheKey);
       EvLog Debug ("Cache path: " ++ imageTarPath)])%list.

(** Between key derivation and the pull: the force-refresh line, or the two
    restores and the cache-miss line. *)
Definition pullEntryEvents (svc : ComposeService) (forceRefresh : bool)
    (imageCacheKey manifestCacheKey imageTarPath manifestPath : string) : list Event :=
  if forceRefresh then
    [EvLog Info ("Force refresh enabled for " ++ image svc ++ ", pulling fresh image")]
  else
    [EvRestoreCache [imageTarPath] imageCacheKey None;
     EvRestoreCache [manifestPath] manifestCacheKey None;
     EvLog Info ("Cache miss for " ++ image svc ++ ", pulling and saving")].

(** The run reaches the pull-and-cache sequence in world [wp], coming from
    the world [w1] left by the first inspection: at once under force
    refresh, otherwise after two restores of which the archive's failed. *)
Definition reachesPull (forceRefresh : bool)
    (imageCacheKey manifestCacheKey imageTarPath manifestPath : string)
    (w1 wp : World) : Prop :=
  if forceRefresh then wp = w1
  else exists cacheResult manifestCacheResult w2,
      restoreFromCache_io cache [imageTarPath] imageCacheKey None w1 = (cacheResult, w2)
      /\ restoreFromCache_io cache [manifestPath] manifestCacheKey None w2
         = (manifestCacheResult, wp)
      /\ op_success cacheResult = false.

End Paths.

(** ** Predicates on runs *)

(** Every outcome of [m], from whatever world, satisfies [P]. *)
Definition always {World A : Type} (P : A -> Prop) (m : World -> A * World * list Event)
    : Prop :=
  forall w, P (outcome (m w)).

(** Every event of [m], from whatever world, passes the test [P]. *)
Definition emits {World A : Type} (P : Event -> bool) (m : World -> A * World * list Event)
    : Prop :=
  forall w, forallb P (events (m w)) = true.

(** From whatever world, at most [n] events of [m] pass the test [f]. *)
Definition emitsAtMost {World A : Type} (f : Event -> bool) (n : nat)
    (m : World -> A * World * list Event) : Prop :=
  forall w, length (filter f (events (m w))) <= n.

(** Outcome and events of [m], from whatever world, are related by [P]. *)
Definition sat {World A : Type} (P : A -> list Event -> Prop)
    (m : World -> A * World * list Event) : Prop :=
  forall w, P (outcome (m w)) (events (m w)).

(** ** The outcomes [processService] can return for a service

    One constructor per [return] of the source, reading the record written
    there; the key, the digest and the size are whatever the run had. *)
Inductive Outcome (svc : ComposeService) : ServiceResult -> Prop :=
| InvalidFormat :
    Outcome svc {| success := false; restoredFromCache := false;
                   imageName := image svc; cacheKey := "";
                   digest := None; platform := svc_platform svc;
                   error := Some ("Invalid image name format: " ++ image svc);
                   imageSize := None |}
| DigestUnavailable :
    Outcome svc {| success := false; restoredFromCache := false;
                   imageName := image svc; cacheKey := "";
                   digest := None; platform := svc_platform svc;
                   error := Some ("Could not get digest for " ++ image svc);
                   imageSize := None |}
| FallbackRestored (key : string) (size : option Z) :
    Outcome svc {| success := true; restoredFromCache := true;
                   imageName := image svc; cacheKey := key;
                   digest := None; platform := svc_platform svc;
                   error := None; imageSize := size |}
| PullFailed (key d : string) :
    Outcome svc {| success := false; restoredFromCache := false;
                   imageName := image svc; cacheKey := key;
                   digest := Some d; platform := svc_platform svc;
                   error := Some ("Failed to pull image: " ++ image svc);
                   imageSize := None |}
| DigestChanged (key d : string) (got : option string) :
    Outcome svc {| success := false; restoredFromCache := false;
                   imageName := image svc; cacheKey := key;
                   digest := Some d; platform := svc_platform svc;
                   error := Some ("Digest mismatch for " ++ image svc ++ ": expected " ++ d
                                  ++ ", got " ++ template got);
                   imageSize := None |}
| ArchiveNotWritten (key d : string) :
    Outcome svc {| success := false; restoredFromCache := false;
                   imageName := image svc; cacheKey := key;
                   digest := Some d; platform := svc_platform svc;
                   error := Some ("Failed to save image to tar: " ++ image svc);
                   imageSize := None |}
| Pulled (key d : string) (size : option Z) :
    Outcome svc {| success := true; restoredFromCache := false;
                   imageName := image svc; cacheKey := key;
                   digest := Some d; platform := svc_platform svc;
                   error := None; imageSize := size |}
| CacheUnusable (key d : string) :
    Outcome svc {| success := false; restoredFromCache := false;
                   imageName := image svc; cacheKey := key;
                   digest := Some d; platform := svc_platform svc;
                   error := Some ("Failed to load image from cache: " ++ image svc);
                   imageSize := None |}
| RestoredFromCache (key d : string) (size : option Z) :
    Outcome svc {| success := true; restoredFromCache := true;
                   imageName := image svc; cacheKey := key;
                   digest := Some d; platform := svc_platform svc;
                   error := None; imageSize := size |}.

(** ** The image reference as the specification words it *)

(** The text before the last occurrence of [sep], if there is one. *)
Fixpoint beforeLast (sep : ascii) (s : string) : option string :=
  match s with
  | EmptyString => None
  | String c rest =>
      match beforeLast sep rest with
      | Some name => Some (String c name)
      | None => if Ascii.eqb c sep then Some EmptyString else None
      end
  end.

(** The text after the last occurrence of [sep], if there is one. *)
Fixpoint afterLast (sep : ascii) (s : string) : option string :=
  match s with
  | EmptyString => None
  | String c rest =>
      match afterLast sep rest with
      | Some tag => Some tag
      | None => if Ascii.eqb c sep then Some rest else None
      end
  end.

(** Name and tag by a split on the last colon; without a colon the whole
    string is the name and the tag is [latest]. *)
Definition splitOnLastColon (completeImageName : string) : string * string :=
  match beforeLast ":" completeImageName, afterLast ":" completeImageName with
  | Some name, Some tag => (name, tag)
  | _, _ => (completeImageName, "latest")
  end.

(** No colon anywhere in the string. *)
Fixpoint noColon (s : string) : bool :=
  match s with
  | EmptyString => true
  | String c rest => negb (Ascii.eqb c ":") && noColon rest
  end.

(** ** Cache key derivation *)

Module CacheKeys.

(** What the derivation takes from its surroundings: how a name is
    sanitized, how a platform string is cut into os, architecture and
    variant, the platform of the host, and the length of the digest part. *)
Record Env := {
  sanitize : string -> string;
  parsePlatform : string -> string * string * string;
  hostPlatform : string * string * string;
  digestPrefixLength : nat
}.

(** Modelled from the spec: [extractDigestPrefix] of cache.ts, whose body is
    not among the sources. The algorithm label is stripped and the first
    characters are kept; [none] stands for a missing digest. *)
Definition extractDigestPrefix (env : Env) (digest : option string) : string :=
  match digest with
  | None => "none"
  | Some d =>
      let hash := if prefix "sha256:" d then substring 7 (String.length d - 7) d else d in
      substring 0 (digestPrefixLength env) hash
  end.

(** Modelled from the spec: os, architecture and variant come out of the
    platform string, or are the host's when no platform is given. *)
Definition platformOf (env : Env) (targetPlatformString : option string)
    : string * string * string :=
  match targetPlatformString with
  | Some p => parsePlatform env p
  | None => hostPlatform env
  end.

(** Modelled from the spec: [generateCacheKeyPrefix] of cache.ts, whose body
    is not among the sources: the key with the digest segment left out. *)
Definition generateCacheKeyPrefix (env : Env) (cacheKeyPrefix imageName imageTag : string)
    (targetPlatformString : option string) : string :=
  let '(os, arch, variant) := platformOf env targetPlatformString in
  cacheKeyPrefix ++ "-" ++ sanitize env imageName ++ "-" ++ imageTag
    ++ "-" ++ os ++ "-" ++ arch ++ "-" ++ variant.

(** Modelled from the spec: [generateCacheKey] of cache.ts, whose body is not
    among the sources: prefix, sanitized name, tag, os, architecture,
    variant and digest part, joined by dashes. *)
Definition generateCacheKey (env : Env) (cacheKeyPrefix imageName imageTag : string)
    (targetPlatformString digest : option string) : string :=
  generateCacheKeyPrefix env cacheKeyPrefix imageName imageTag targetPlatformString
    ++ "-" ++ extractDigestPrefix env digest.

End CacheKeys.

(** ** Concrete worlds for running the model

    The world is the number of remote inspections made so far, so that the
    registry may answer the second inspection differently from the first. *)

Definition sampleEnv : CacheKeys.Env :=
  {| CacheKeys.sanitize := fun name => name;
     CacheKeys.parsePlatform := fun p =>
       match split "/" p with
       | [os; arch] => (os, arch, "none")
       | os :: arch :: variant :: _ => (os, arch, variant)
       | _ => (p, "none", "none")
       end;
     CacheKeys.hostPlatform := ("linux", "amd64", "none");
     CacheKeys.digestPrefixLength := 12 |}.

Definition scriptedDocker (remote : nat -> option DockerImageManifest)
    (pullOk saveOk loadOk : bool) (localInfo : option DockerImageMetadata)
    : DockerCommand nat :=
  {| inspectImageLocal_io := fun _ n => (localInfo, n);
     inspectImageRemote_io := fun _ n => (remote n, S n);
     loadImageFromTar_io := fun _ n => (loadOk, n);
     pullImage_io := fun _ _ n => (pullOk, n);
     saveImageToTar_io := fun _ _ n => (saveOk, n) |}.

Definition scriptedCache (restoreOk manifestOk saveOk : bool)
    (stored : option DockerImageManifest) : Cache nat :=
  let keyOf := CacheKeys.generateCacheKey sampleEnv in
  let manifestKeyOf p n t pl d := keyOf p n t pl d ++ "-manifest" in
  {| generateCacheKey := keyOf;
     generateCacheKeyPrefix := CacheKeys.generateCacheKeyPrefix sampleEnv;
     generateManifestCacheKey := manifestKeyOf;
     generateManifestPath := fun n t pl d => "/tmp/" ++ keyOf "manifest" n t pl d ++ ".json";
     generateTarPath := fun n t pl d => "/tmp/" ++ keyOf "image" n t pl d ++ ".tar";
     readManifestFromFile_io := fun _ n => (stored, n);
     restoreFromCache_io := fun paths key restoreKeys n =>
       let ok := match paths with
                 | [path] => if prefix "/tmp/manifest" path then manifestOk else restoreOk
                 | _ => false
                 end in
       ({| op_success := ok;
           op_cacheKey := if ok then Some key else None;
           op_error := None |}, n);
     saveManifestToCache_io := fun _ _ _ n => (saveOk, n);
     saveToCache_io := fun _ key n =>
       ({| op_success := saveOk;
           op_cacheKey := if saveOk then Some key else None;
           op_error := None |}, n) |}.

Definition sampleFormat (serviceStartTime serviceEndTime : Z) : string := "0s".

Definition sampleConfig : ActionConfig :=
  {| composeFilePaths := []; excludeImageNames := [];
     cacheKeyPrefix := "p"; skipDigestVerification := false |}.

Definition redis : ComposeService :=
  {| image := "redis"; svc_platform := Some "linux/arm64" |}.

Definition nginx : ComposeService :=
  {| image := "nginx:1.25"; svc_platform := None |}.

Definition digestA : string := "sha256:aaaaaaaaaaaaaaaaaaaaaaaa".
Definition digestB : string := "sha256:bbbbbbbbbbbbbbbbbbbbbbbb".

Definition manifestA : DockerImageManifest := {| m_digest := Some digestA |}.
Definition manifestB : DockerImageManifest := {| m_digest := Some digestB |}.

(** A cache that stores: the world is the list of the keys saved so far, a
    restore hits on a saved key, or on a saved key that one of the restore
    keys is a prefix of. *)
Definition stored (key : string) (w : list string) : bool :=
  existsb (String.eqb key) w.

Definition storingCache : Cache (list string) :=
  let keyOf := CacheKeys.generateCacheKey sampleEnv in
  let manifestKeyOf p n t pl d := keyOf p n t pl d ++ "-manifest" in
  {| generateCacheKey := keyOf;
     generateCacheKeyPrefix := CacheKeys.generateCacheKeyPrefix sampleEnv;
     generateManifestCacheKey := manifestKeyOf;
     generateManifestPath := fun n t pl d => "/tmp/" ++ keyOf "manifest" n t pl d ++ ".json";
     generateTarPath := fun n t pl d => "/tmp/" ++ keyOf "image" n t pl d ++ ".tar";
     readManifestFromFile_io := fun _ w => (Some manifestA, w);
     restoreFromCache_io := fun _ key restoreKeys w =>
       let ok := stored key w
                 || match restoreKeys with
                    | Some keys => existsb (fun k => existsb (prefix k) w) keys
                    | None => false
                    end in
       ({| op_success := ok;
           op_cacheKey := if ok then Some key else None;
           op_error := None |}, w);
     saveManifestToCache_io := fun _ _ key w => (true, key :: w);
     saveToCache_io := fun _ key w =>
       ({| op_success := true; op_cacheKey := Some key; op_error := None |}, key :: w) |}.

(** A runtime in front of a registry that has every image but the ones
    named [missing]. *)
Definition plainDocker (missing : string -> bool) : DockerCommand (list string) :=
  {| inspectImageLocal_io := fun _ w => (Some {| Size := 7 |}, w);
     inspectImageRemote_io := fun _ w => (Some manifestA, w);
     loadImageFromTar_io := fun _ w => (true, w);
     pullImage_io := fun name _ w => (negb (missing name), w);
     saveImageToTar_io := fun _ _ w => (true, w) |}.

(** What the callback for [nginx] can see of the store: the keys that begin
    with its own prefix and name. *)
Definition nginxView (w w' : list string) : Prop :=
  forall key, prefix "p-nginx-" key = true -> stored key w = stored key w'.

(** A runtime in front of a registry that serves one pull and refuses the
    next ones; the world is the number of pulls served. *)
Definition rationedDocker (missing : string -> bool) : DockerCommand nat :=
  {| inspectImageLocal_io := fun _ n => (Some {| Size := 7 |}, n);
     inspectImageRemote_io := fun _ n => (Some manifestA, n);
     loadImageFromTar_io := fun _ n => (true, n);
     pullImage_io := fun name _ n =>
       if negb (missing name) && Nat.eqb n 0 then (true, S n) else (false, n);
     saveImageToTar_io := fun _ _ n => (true, n) |}.

Definition stillClock {World : Type} (w : World) : Z * World := (0%Z, w).

(** Every callback in turn, [rounds] times over. *)
Fixpoint roundRobin (rounds callbacks : nat) : list nat :=
  match rounds with
  | O => []
  | S n => (seq 0 callbacks ++ roundRobin n callbacks)%list
  end.

(** * docker-compose-file.ts: discovery of the services to process *)

(** ** Exclusion patterns

    Characters are code units below 256, which is all an [ascii] holds; the
    line terminators among them are line feed and carriage return. *)

(** [s.includes(c)] for a one-character needle. *)
Fixpoint includes (c : ascii) (s : string) : bool :=
  match s with
  | EmptyString => false
  | String c' rest => Ascii.eqb c' c || includes c rest
  end.

(** The character class of the first replacement in [patternToRegex]: dot,
    plus, caret, dollar, braces, parentheses, bar, brackets, backslash. *)
Definition isRegexSpecial (c : ascii) : bool :=
  existsb (Ascii.eqb c)
    ["."; "+"; "^"; "$"; "{"; "}"; "("; ")"; "|"; "["; "]"; "\"]%char.

(** [.replace(/[.+^${}()|[\]\\]/g, '\\$&')] *)
Fixpoint escapeSpecials (s : string) : string :=
  match s with
  | EmptyString => EmptyString
  | String c rest =>
      if isRegexSpecial c then String "\" (String c (escapeSpecials rest))
      else String c (escapeSpecials rest)
  end.

(** [.replace(/\*/g, '.*')] *)
Fixpoint replaceStars (s : string) : string :=
  match s with
  | EmptyString => EmptyString
  | String c rest =>
      if Ascii.eqb c "*" then String "." (String "*" (replaceStars rest))
      else String c (replaceStars rest)
  end.

(** [.replace(/\?/g, '.')] *)
Fixpoint replaceQuestionMarks (s : string) : string :=
  match s with
  | EmptyString => EmptyString
  | String c rest =>
      if Ascii.eqb c "?" then String "." (replaceQuestionMarks rest)
      else String c (replaceQuestionMarks rest)
  end.

(** The source text handed to [new RegExp]. *)
Definition regexSource (pattern : string) : string :=
  "^" ++ replaceQuestionMarks (replaceStars (escapeSpecials pattern)) ++ "$".

(** The regular expressions this code can build: a sequence of literal
    characters, dots, dot-stars and the two anchors. *)
Inductive RegexItem :=
| Literal (c : ascii)
| AnyChar
| AnyString
| AssertStart
| AssertEnd.

(** [new RegExp(source)] on that fragment: a backslash makes the special
    character after it literal, a dot is any character, a dot followed by a
    star is any string, caret and dollar are the anchors, anything else
    stands for itself. Source text outside the fragment (a bare quantifier,
    group, class or alternation, or a backslash before an ordinary character)
    is not interpreted: the result is [None]. *)
Fixpoint parseRegex (source : string) : option (list RegexItem) :=
  match source with
  | EmptyString => Some []
  | String c rest =>
      if Ascii.eqb c "\" then
        match rest with
        | String c' rest' =>
            if isRegexSpecial c' then option_map (cons (Literal c')) (parseRegex rest')
            else None
        | EmptyString => None
        end
      else if Ascii.eqb c "." then
        match rest with
        | String c' rest' =>
            if Ascii.eqb c' "*" then option_map (cons AnyString) (parseRegex rest')
            else option_map (cons AnyChar) (parseRegex rest)
        | EmptyString => Some [AnyChar]
        end
      else if Ascii.eqb c "^" then option_map (cons AssertStart) (parseRegex rest)
      else if Ascii.eqb c "$" then option_map (cons AssertEnd) (parseRegex rest)
      else if isRegexSpecial c || Ascii.eqb c "*" || Ascii.eqb c "?" then None
      else option_map (cons (Literal c)) (parseRegex rest)
  end.

Definition patternToRegex (pattern : string) : option (list RegexItem) :=
  parseRegex (regexSource pattern).

(** The characters a dot does not match. *)
Definition isLineTerminator (c : ascii) : bool :=
  Ascii.eqb c "010" || Ascii.eqb c "013".

(** Whether the items match some prefix of [s]; [atStart] says whether [s]
    is the whole input. Without the multiline flag the caret holds only at
    the start of the input and the dollar only at its end. *)
Fixpoint matchHere (items : list RegexItem) : bool -> string -> bool :=
  match items with
  | [] => fun _ _ => true
  | Literal c :: rest => fun _ s =>
      match s with
      | String c' s' => Ascii.eqb c' c && matchHere rest false s'
      | EmptyString => false
      end
  | AnyChar :: rest => fun _ s =>
      match s with
      | String c' s' => negb (isLineTerminator c') && matchHere rest false s'
      | EmptyString => false
      end
  | AnyString :: rest =>
      fix star (atStart : bool) (s : string) {struct s} : bool :=
        matchHere rest atStart s
        || match s with
           | String c' s' => negb (isLineTerminator c') && star false s'
           | EmptyString => false
           end
  | AssertStart :: rest => fun atStart s => atStart && matchHere rest atStart s
  | AssertEnd :: rest => fun atStart s =>
      match s with
      | EmptyString => matchHere rest atStart s
      | String _ _ => false
      end
  end.

(** A match may start at any position of the input. *)
Fixpoint searchFrom (items : list RegexItem) (atStart : bool) (s : string) : bool :=
  matchHere items atStart s
  || match s with
     | String _ s' => searchFrom items false s'
     | EmptyString => false
     end.

(** [regex.test(s)] *)
Definition test (regex : list RegexItem) (s : string) : bool :=
  searchFrom regex true s.

(** [matchesExcludePattern]. A pattern whose source [new RegExp] would not
    take counts as no match here; [patternToRegex] never builds one. *)
Definition matchesExcludePattern (imageName : string) (patterns : list string) : bool :=
  existsb
    (fun pattern =>
       if negb (includes "*" pattern) && negb (includes "?" pattern) then
         imageName =? pattern
       else
         match patternToRegex pattern with
         | Some regex => test regex imageName
         | None => false
         end)
    patterns.

(** ** What a glob pattern means

    One piece of the name per character of the pattern: a star stands for
    any run of characters that are not line terminators, a question mark for
    one such character, any other character for itself. *)
Inductive GlobMatch : string -> string -> Prop :=
| GlobEmpty : GlobMatch "" ""
| GlobStarEnd (pattern name : string) :
    GlobMatch pattern name -> GlobMatch (String "*" pattern) name
| GlobStarMore (pattern : string) (c : ascii) (name : string) :
    isLineTerminator c = false ->
    GlobMatch (String "*" pattern) name ->
    GlobMatch (String "*" pattern) (String c name)
| GlobQuestion (pattern : string) (c : ascii) (name : string) :
    isLineTerminator c = false ->
    GlobMatch pattern name ->
    GlobMatch (String "?" pattern) (String c name)
| GlobLiteral (c : ascii) (pattern name : string) :
    c <> "*"%char -> c <> "?"%char ->
    GlobMatch pattern name ->
    GlobMatch (String c pattern) (String c name).

(** The item a pattern character is meant to become. *)
Definition globItem (c : ascii) : RegexItem :=
  if Ascii.eqb c "*" then AnyString
  else if Ascii.eqb c "?" then AnyChar
  else Literal c.

Fixpoint globItems (pattern : string) : list RegexItem :=
  match pattern with
  | EmptyString => []
  | String c rest => globItem c :: globItems rest
  end.

(** No line terminator anywhere in the string. *)
Fixpoint singleLine (s : string) : bool :=
  match s with
  | EmptyString => true
  | String c rest => negb (isLineTerminator c) && singleLine rest
  end.

(** ** Compose files and their services *)

Definition DEFAULT_COMPOSE_FILE_NAMES : list string :=
  ["compose.yaml"; "compose.yml"; "docker-compose.yaml"; "docker-compose.yml"].

(** [getComposeFilePathsToProcess], with [fs.existsSync] as [existsSync]. *)
Definition getComposeFilePathsToProcess (existsSync : string -> bool)
    (candidateComposeFilePaths : list string) : list string :=
  if Nat.ltb 0 (length candidateComposeFilePaths)
  then filter existsSync candidateComposeFilePaths
  else filter existsSync DEFAULT_COMPOSE_FILE_NAMES.

(** A service entry as the YAML gives it: the image may be missing. *)
Record RawService := {
  raw_image : option string;
  raw_platform : option string
}.

(** What reading and parsing one compose file comes to: an exception from
    [fs.readFileSync] or [yaml.load], an empty document, a document without
    services, or the values of its services in document order. *)
Inductive ComposeLoad :=
| LoadThrows (yamlParsingError : string)
| LoadEmpty
| LoadNoServices
| LoadServices (services : list RawService).

(** The callback of [flatMap]: the services of one file and what it logs. *)
Definition servicesOfFile (load : string -> ComposeLoad) (currentComposeFile : string)
    : list RawService * list Event :=
  match load currentComposeFile with
  | LoadThrows yamlParsingError =>
      ([], [EvLog Warning ("Failed to parse " ++ currentComposeFile ++ ": "
                           ++ yamlParsingError)])
  | LoadEmpty =>
      ([], [EvLog Debug ("Empty or invalid YAML file: " ++ currentComposeFile)])
  | LoadNoServices =>
      ([], [EvLog Debug ("No services section found in " ++ currentComposeFile)])
  | LoadServices services => (services, [])
  end.

(** The key of [uniqBy]: image, a bar, and the platform or nothing. *)
Definition serviceKey (composeService : RawService) : string :=
  template (raw_image composeService) ++ "|" ++ orEmpty (raw_platform composeService).

(** lodash [uniqBy]: the first element of each key, in order. *)
Fixpoint uniqByFrom {A : Type} (key : A -> string) (seen : list string) (l : list A)
    : list A :=
  match l with
  | [] => []
  | x :: rest =>
      if existsb (String.eqb (key x)) seen then uniqByFrom key seen rest
      else x :: uniqByFrom key (key x :: seen) rest
  end.

Definition uniqBy {A : Type} (key : A -> string) (l : list A) : list A :=
  uniqByFrom key [] l.

(** The predicate of [filter]: an image is given and no pattern excludes it. *)
Definition wanted (excludedImagePatterns : list string) (composeService : RawService)
    : bool :=
  match raw_image composeService with
  | Some img => negb (matchesExcludePattern img excludedImagePatterns)
  | None => false
  end.

(** [getComposeServicesFromFiles], with reading and parsing as [load]: the
    services kept, and the log lines in file order. The entries of a services
    section are taken to be objects, as their type says. *)
Definition getComposeServicesFromFiles (load : string -> ComposeLoad)
    (composeFilePaths excludedImagePatterns : list string)
    : list RawService * list Event :=
  let perFile := map (servicesOfFile load) composeFilePaths in
  (uniqBy serviceKey (filter (wanted excludedImagePatterns) (flat_map fst perFile)),
   flat_map snd perFile).

(** The source text one character of the pattern turns into under the three
    replacements. *)
Definition chunkOf (c : ascii) (rest : string) : string :=
  if isRegexSpecial c then String "\" (String c rest)
  else if Ascii.eqb c "*" then String "." (String "*" rest)
  else if Ascii.eqb c "?" then String "." rest
  else String c rest.

(** * docker-command.ts: running a command

    [exec.exec] hands the output to the listeners chunk by chunk and then
    resolves with the exit code or rejects. Times are whole milliseconds. *)

Inductive Chunk :=
| OnStdout (data : string)
| OnStderr (data : string).

(** One call of [exec.exec]: the chunks in the order they arrive, and the
    exit code it resolves with or the error it rejects with. *)
Record ExecRun := {
  chunks : list Chunk;
  settled : string + Z
}.

Record CommandOutputBuffer := {
  buf_stdout : list string;
  buf_stderr : list string
}.

Record CommandResult := {
  exitCode : Z;
  stdout : string;
  stderr : string
}.

Inductive CommandLog :=
| CoreInfo (message : string)
| CoreError (message : string).

Section ExecuteCommand.

(** The listeners the caller may have put in [options.listeners], as
    updates of a state of the caller's. *)
Context {ListenerState : Type}.
Variable callerStdout : option (string -> ListenerState -> ListenerState).
Variable callerStderr : option (string -> ListenerState -> ListenerState).

(** [if (options.listeners?.stdout) options.listeners.stdout(data)] *)
Definition forward (listener : option (string -> ListenerState -> ListenerState))
    (data : string) (st : ListenerState) : ListenerState :=
  match listener with
  | Some f => f data st
  | None => st
  end.

(** The two capturing listeners: the chunk goes to the end of its array,
    then to the caller's listener. *)
Definition onChunk (acc : CommandOutputBuffer * ListenerState) (chunk : Chunk)
    : CommandOutputBuffer * ListenerState :=
  let '(buffer, st) := acc in
  match chunk with
  | OnStdout data =>
      ({| buf_stdout := buf_stdout buffer ++ [data]; buf_stderr := buf_stderr buffer |},
       forward callerStdout data st)
  | OnStderr data =>
      ({| buf_stdout := buf_stdout buffer; buf_stderr := buf_stderr buffer ++ [data] |},
       forward callerStderr data st)
  end.

Variable exec : string -> list string -> ExecRun.
Variable showMs : Z -> string.

(** [executeCommand]: the result or the rethrown error, the caller's state
    after its listeners ran, and the lines logged. An empty [cmd] has no
    first element; the path is then taken to be empty. *)
Definition executeCommand (cmd : list string) (st : ListenerState)
    (executionStartTime executionEndTime : Z)
    : (string + CommandResult) * ListenerState * list CommandLog :=
  let fullCommand := String.concat " " cmd in
  let path := hd "" cmd in
  let args := tl cmd in
  let run := exec path args in
  let '(buffer, st') :=
    fold_left onChunk (chunks run)
      ({| buf_stdout := []; buf_stderr := [] |}, st) in
  let executionTimeMs := (executionEndTime - executionStartTime)%Z in
  match settled run with
  | inr code =>
      (inr {| exitCode := code;
              stdout := String.concat "" (buf_stdout buffer);
              stderr := String.concat "" (buf_stderr buffer) |},
       st',
       [CoreInfo ("Executing: " ++ fullCommand);
        CoreInfo ("Command completed in " ++ showMs executionTimeMs ++ "ms: "
                  ++ fullCommand)])
  | inl error =>
      (inl error, st',
       [CoreInfo ("Executing: " ++ fullCommand);
        CoreError ("Command failed after " ++ showMs executionTimeMs ++ "ms: "
                   ++ fullCommand)])
  end.

(** The chunks of one stream, in arrival order. *)
Definition stdoutOf (cs : list Chunk) : list string :=
  flat_map (fun c => match c with OnStdout d => [d] | OnStderr _ => [] end) cs.

Definition stderrOf (cs : list Chunk) : list string :=
  flat_map (fun c => match c with OnStderr d => [d] | OnStdout _ => [] end) cs.

(** What the caller's own listeners make of the chunks, in arrival order. *)
Definition heard (st : ListenerState) (cs : list Chunk) : ListenerState :=
  fold_left (fun s c => match c with
                        | OnStdout d => forward callerStdout d s
                        | OnStderr d => forward callerStderr d s
                        end) cs st.

End ExecuteCommand.

(** ** Concrete inputs for the discovery *)

Definition sampleLoad (file : string) : ComposeLoad :=
  if file =? "compose.yaml" then
    LoadServices [ {| raw_image := Some "nginx:1.25"; raw_platform := None |};
                   {| raw_image := None; raw_platform := None |};
                   {| raw_image := Some "redis"; raw_platform := Some "linux/arm64" |} ]
  else if file =? "override.yaml" then
    LoadServices [ {| raw_image := Some "nginx:1.25"; raw_platform := Some "" |};
                   {| raw_image := Some "ghcr.io/org/app:v1"; raw_platform := None |} ]
  else LoadThrows "ENOENT".

(** * Properties *)

(** ** The split of the image string *)

Lemma split_nonempty (sep : ascii) (s : string) :
  exists piece pieces, split sep s = piece :: pieces.
Proof.
  destruct s as [|c rest]; simpl.
  - eauto.
  - destruct (Ascii.eqb c sep); [eauto|].
    destruct (split sep rest); eauto.
Qed.

Lemma imageNamePart_defined (s : string) :
  exists name, imageNamePart s = Some name.
Proof.
  unfold imageNamePart.
  destruct (split_nonempty ":" s) as (piece & pieces & E).
  rewrite E. simpl. eauto.
Qed.

(** The first piece is empty exactly when the string is empty or starts
    with the colon. *)
Lemma imageNamePart_empty (s : string) :
  imageNamePart s = Some "" <-> (s = "" \/ exists rest, s = String ":" rest).
Proof.
  unfold imageNamePart. split.
  - destruct s as [|c rest]; [now left|]. simpl.
    destruct (Ascii.eqb_spec c ":") as [->|Hc].
    + right. eauto.
    + destruct (split ":" rest); simpl; discriminate.
  - intros [->|[rest ->]]; reflexivity.
Qed.

(** ** Stepping through a run *)

Ltac program :=
  cbv beta iota zeta delta
    [processService processCacheHit tryRestoreFromCacheWithoutDigest
     pullAndCacheImage bind call log ret outcome finalWorld events
     pullImage inspectImageRemote inspectImageLocal saveImageToTar
     loadImageFromTar restoreFromCache saveToCache saveManifestToCache
     readManifestFromFile].

Ltac answer H := rewrite H; cbv beta iota zeta.

Lemma eqb_empty_false (s : string) : s <> "" -> (s =? "") = false.
Proof. intros H. now apply String.eqb_neq. Qed.

Section PerImage.

Context {World : Type}.
Variable cache : Cache World.
Variable docker : DockerCommand World.

(** Whatever follows it, an awaited call is the first event of a run. *)
Lemma events_bind_call {A B} (ev : Event) (op : World -> A * World)
    (f : A -> M World B) (w : World) :
  events (bind (call ev op) f w) = ev :: events (f (fst (op w)) (snd (op w))).
Proof.
  unfold events, bind, call.
  destruct (op w) as [a w1]. simpl.
  destruct (f a w1) as [[b w2] e2]. reflexivity.
Qed.

(** C7. An image string that is empty or starts with the colon is
    answered with the invalid-format failure, with no external request made
    and the world untouched; every other image string starts with the remote
    inspection, so no other outcome comes from validation alone. *)
Theorem invalid_name_rejected_before_io
    (svc : ComposeService) (prefix : string) (skip force : bool) (w : World) :
  let r := processService cache docker svc prefix skip force w in
  ((image svc = "" \/ exists rest, image svc = String ":" rest) ->
   outcome r = {| success := false; restoredFromCache := false;
                  imageName := image svc; cacheKey := "";
                  digest := None; platform := svc_platform svc;
                  error := Some ("Invalid image name format: " ++ image svc);
                  imageSize := None |}
   /\ finalWorld r = w /\ events r = [])
  /\ (~ (image svc = "" \/ exists rest, image svc = String ":" rest) ->
      exists rest, events r = EvInspectRemote (image svc) :: rest).
Proof.
  intros r. subst r. split.
  - intros H. apply imageNamePart_empty in H.
    program. rewrite H. simpl. auto.
  - intros H.
    destruct (imageNamePart_defined (image svc)) as [name Hname].
    assert (Hne : (name =? "") = false).
    { apply String.eqb_neq. intros ->. apply H. now apply imageNamePart_empty. }
    unfold processService.
    rewrite Hname. cbn [truthy]. rewrite Hne. cbn [negb].
    unfold inspectImageRemote. rewrite events_bind_call. eauto.
Qed.

(** The image string passes validation: its first piece is [name]. *)
Ltac enter Hname Hne :=
  program; rewrite Hname; cbn [truthy negb];
  rewrite (eqb_empty_false Hne); cbn [negb].

(** The registry gave no usable digest: no manifest, a manifest without a
    digest, or an empty digest. *)
Ltac no_digest manifest Hd :=
  destruct manifest as [[[d|]]|]; simpl in Hd; try discriminate;
  cbn [m_digest truthy]; rewrite ?Hd.

(** C5. When the remote inspection yields no digest and the fallback does
    not apply (skipDigestVerification off, or forceRefresh on), the outcome
    is a failure and no request of the run touches the cache; for an image
    string that passes validation the run is exactly the inspection followed
    by the warning, and the outcome carries the could-not-get-digest error. *)
Theorem unresolved_digest_without_fallback_fails
    (svc : ComposeService) (prefix : string) (skip force : bool)
    (w0 w1 : World) (manifest : option DockerImageManifest) :
  inspectImageRemote_io docker (image svc) w0 = (manifest, w1) ->
  truthy (digestOf manifest) = false ->
  skip = false \/ force = true ->
  let r := processService cache docker svc prefix skip force w0 in
  success (outcome r) = false
  /\ restoredFromCache (outcome r) = false
  /\ forallb (fun e => negb (isCacheAccess e)) (events r) = true
  /\ (~ (image svc = "" \/ exists rest, image svc = String ":" rest) ->
      outcome r = {| success := false; restoredFromCache := false;
                     imageName := image svc; cacheKey := "";
                     digest := None; platform := svc_platform svc;
                     error := Some ("Could not get digest for " ++ image svc);
                     imageSize := None |}
      /\ finalWorld r = w1
      /\ events r = [EvInspectRemote (image svc);
                     EvLog Warning ("Could not get digest for " ++ image svc
                                    ++ ", skipping cache")]).
Proof.
  intros Hinspect Hd Hoff r. subst r.
  destruct (imageNamePart_defined (image svc)) as [name Hname].
  destruct (String.eqb_spec name "") as [->|Hne].
  - program. rewrite Hname. simpl.
    do 3 (split; [reflexivity|]).
    intros H. exfalso. apply H. now apply imageNamePart_empty.
  - assert (Hfallback : skip && negb force = false)
      by (destruct Hoff as [-> | ->]; [reflexivity | apply andb_false_r]).
    enter Hname Hne. answer Hinspect.
    no_digest manifest Hd; rewrite Hfallback; simpl; auto 10.
Qed.

(** C4. When the remote inspection yields no digest, skipDigestVerification
    is on, forceRefresh is off, the restore by the digest-less prefix
    succeeds and the restored archive loads, the outcome is a success
    restored from the cache with no digest, and the last thing the run does
    is warn that the image may be outdated. *)
Theorem degraded_fallback_restores
    (svc : ComposeService) (prefix name : string)
    (w0 w1 w2 w3 w4 : World) (manifest : option DockerImageManifest)
    (cacheResult : CacheOperationResult) (inspectInfo : option DockerImageMetadata) :
  imageNamePart (image svc) = Some name -> name <> "" ->
  inspectImageRemote_io docker (image svc) w0 = (manifest, w1) ->
  truthy (digestOf manifest) = false ->
  let tag := imageTagOrLatest (image svc) in
  let keyPrefix := generateCacheKeyPrefix cache prefix name tag (svc_platform svc) in
  let tar := generateTarPath cache name tag (svc_platform svc) (Some "fallback") in
  restoreFromCache_io cache [tar] (keyPrefix ++ "-fallback") (Some [keyPrefix]) w1
    = (cacheResult, w2) ->
  op_success cacheResult = true ->
  loadImageFromTar_io docker tar w2 = (true, w3) ->
  inspectImageLocal_io docker (image svc) w3 = (inspectInfo, w4) ->
  processService cache docker svc prefix true false w0 =
    ({| success := true; restoredFromCache := true;
        imageName := image svc; cacheKey := orEmpty (op_cacheKey cacheResult);
        digest := None; platform := svc_platform svc;
        error := None; imageSize := sizeOf inspectInfo |},
     w4,
     [EvInspectRemote (image svc);
      EvRestoreCache [tar] (keyPrefix ++ "-fallback") (Some [keyPrefix]);
      EvLoadTar tar;
      EvInspectLocal (image svc);
      EvLog Warning ("Registry unavailable for " ++ image svc
                     ++ ". Using cached version. "
                     ++ "Image may be outdated. Enable network access or set force-refresh to pull fresh images.")]).
Proof.
  intros Hname Hne Hinspect Hd tag keyPrefix tar Hrestore Hok Hload Hlocal.
  subst tag keyPrefix tar.
  enter Hname Hne. answer Hinspect.
  no_digest manifest Hd; cbn [andb negb];
    answer Hrestore; rewrite Hok; cbn [negb];
    answer Hload; cbn [negb]; answer Hlocal; reflexivity.
Qed.

(** C10. In the same fallback, when the prefix restore succeeds but the
    restored archive does not load, the fallback gives nothing: the outcome
    is the failure with the could-not-get-digest error, and the load failure
    appears only as a debug line of the run. *)
Theorem degraded_fallback_load_failure_hidden
    (svc : ComposeService) (prefix name : string)
    (w0 w1 w2 w3 : World) (manifest : option DockerImageManifest)
    (cacheResult : CacheOperationResult) :
  imageNamePart (image svc) = Some name -> name <> "" ->
  inspectImageRemote_io docker (image svc) w0 = (manifest, w1) ->
  truthy (digestOf manifest) = false ->
  let tag := imageTagOrLatest (image svc) in
  let keyPrefix := generateCacheKeyPrefix cache prefix name tag (svc_platform svc) in
  let tar := generateTarPath cache name tag (svc_platform svc) (Some "fallback") in
  restoreFromCache_io cache [tar] (keyPrefix ++ "-fallback") (Some [keyPrefix]) w1
    = (cacheResult, w2) ->
  op_success cacheResult = true ->
  loadImageFromTar_io docker tar w2 = (false, w3) ->
  processService cache docker svc prefix true false w0 =
    ({| success := false; restoredFromCache := false;
        imageName := image svc; cacheKey := "";
        digest := None; platform := svc_platform svc;
        error := Some ("Could not get digest for " ++ image svc);
        imageSize := None |},
     w3,
     [EvInspectRemote (image svc);
      EvRestoreCache [tar] (keyPrefix ++ "-fallback") (Some [keyPrefix]);
      EvLoadTar tar;
      EvLog Debug ("Failed to load image from fallback cache: " ++ image svc);
      EvLog Warning ("Could not get digest for " ++ image svc ++ ", skipping cache")]).
Proof.
  intros Hname Hne Hinspect Hd tag keyPrefix tar Hrestore Hok Hload.
  subst tag keyPrefix tar.
  enter Hname Hne. answer Hinspect.
  no_digest manifest Hd; cbn [andb negb];
    answer Hrestore; rewrite Hok; cbn [negb];
    answer Hload; reflexivity.
Qed.

(** C1. Non-force path, digest resolved, archive restored, manifest restore
    reporting a key, archive loaded, skipDigestVerification off, and the
    stored manifest's digest not equal to the freshly inspected one: the run
    pulls exactly once, warns when that pull fails, saves nothing to the
    cache, and the outcome is a success restored from cache that carries the
    digest resolved at the start. *)
Theorem cache_hit_mismatch_pulls_without_resaving
    (svc : ComposeService) (prefix name d : string)
    (w0 w1 w2 w3 w4 w5 w6 w7 w8 : World) (m cachedM remoteM : DockerImageManifest)
    (cacheResult manifestCacheResult : CacheOperationResult)
    (inspectInfo : option DockerImageMetadata) (pullSuccess : bool) :
  imageNamePart (image svc) = Some name -> name <> "" ->
  inspectImageRemote_io docker (image svc) w0 = (Some m, w1) ->
  m_digest m = Some d -> d <> "" ->
  let tag := imageTagOrLatest (image svc) in
  let key := generateCacheKey cache prefix name tag (svc_platform svc) (Some d) in
  let tar := generateTarPath cache name tag (svc_platform svc) (Some d) in
  let manifestKey := generateManifestCacheKey cache prefix name tag (svc_platform svc) (Some d) in
  let manifestPath := generateManifestPath cache name tag (svc_platform svc) (Some d) in
  restoreFromCache_io cache [tar] key None w1 = (cacheResult, w2) ->
  restoreFromCache_io cache [manifestPath] manifestKey None w2 = (manifestCacheResult, w3) ->
  op_success cacheResult = true ->
  truthy (op_cacheKey manifestCacheResult) = true ->
  loadImageFromTar_io docker tar w3 = (true, w4) ->
  inspectImageLocal_io docker (image svc) w4 = (inspectInfo, w5) ->
  readManifestFromFile_io cache manifestPath w5 = (Some cachedM, w6) ->
  inspectImageRemote_io docker (image svc) w6 = (Some remoteM, w7) ->
  strictEq (m_digest cachedM) (m_digest remoteM) = false ->
  pullImage_io docker (image svc) (svc_platform svc) w7 = (pullSuccess, w8) ->
  let r := processService cache docker svc prefix false false w0 in
  outcome r = {| success := true; restoredFromCache := true;
                 imageName := image svc; cacheKey := key;
                 digest := Some d; platform := svc_platform svc;
                 error := None; imageSize := sizeOf inspectInfo |}
  /\ finalWorld r = w8
  /\ events r =
       (resolutionEvents svc key tar
        ++ [EvRestoreCache [tar] key None;
            EvRestoreCache [manifestPath] manifestKey None;
            EvLog Info ("Cache hit for " ++ image svc ++ ", loading from cache");
            EvLoadTar tar;
            EvInspectLocal (image svc);
            EvReadManifest manifestPath;
            EvInspectRemote (image svc);
            EvLog Info ("Manifest mismatch detected for " ++ image svc
                        ++ ", pulling fresh image");
            EvPull (image svc) (svc_platform svc)]
        ++ (if pullSuccess then []
            else [EvLog Warning ("Failed to pull updated image " ++ image svc)]))%list
  /\ length (filter isPull (events r)) = 1
  /\ existsb isCacheSave (events r) = false.
Proof.
  intros Hname Hne Hinspect Hdigest Hd tag key tar manifestKey manifestPath
    Hrestore Hmanifest Hhit Hkey Hload Hlocal Hread Hremote Hdiff Hpull r.
  subst r tag key tar manifestKey manifestPath. unfold resolutionEvents.
  enter Hname Hne. answer Hinspect. rewrite Hdigest.
  cbn [truthy]. rewrite (eqb_empty_false Hd). cbn [negb].
  destruct (truthy (svc_platform svc)); cbv beta iota zeta;
    answer Hrestore; answer Hmanifest; rewrite Hhit; cbn [negb];
    answer Hload; cbn [negb]; answer Hlocal; rewrite Hkey; cbn [negb];
    answer Hread; answer Hremote; rewrite Hdiff; answer Hpull;
    destruct pullSuccess; simpl; auto 10.
Qed.

(** Everything of the program except [pullAndCacheImage], which stays
    folded. *)
Ltac program_to_pull :=
  cbv beta iota zeta delta
    [processService bind call log ret outcome finalWorld events
     inspectImageRemote restoreFromCache].

(** Both ways into the pull-and-cache sequence run the same sequence on the
    same arguments and wrap its result in the same outcome. *)
Lemma processService_pull_path
    (svc : ComposeService) (prefix name d : string) (skip force : bool)
    (w0 w1 wp : World) (m : DockerImageManifest) :
  imageNamePart (image svc) = Some name -> name <> "" ->
  inspectImageRemote_io docker (image svc) w0 = (Some m, w1) ->
  m_digest m = Some d -> d <> "" ->
  let tag := imageTagOrLatest (image svc) in
  let key := generateCacheKey cache prefix name tag (svc_platform svc) (Some d) in
  let tar := generateTarPath cache name tag (svc_platform svc) (Some d) in
  let manifestKey := generateManifestCacheKey cache prefix name tag (svc_platform svc) (Some d) in
  let manifestPath := generateManifestPath cache name tag (svc_platform svc) (Some d) in
  reachesPull cache force key manifestKey tar manifestPath w1 wp ->
  processService cache docker svc prefix skip force w0 =
    (let '(pullResult, w, evs) :=
       pullAndCacheImage cache docker (image svc) (svc_platform svc)
         key manifestKey tar manifestPath d m wp in
     ({| success := io_success pullResult; restoredFromCache := false;
         imageName := image svc; cacheKey := key;
         digest := Some d; platform := svc_platform svc;
         error := io_error pullResult; imageSize := io_imageSize pullResult |},
      w,
      (resolutionEvents svc key tar
       ++ pullEntryEvents svc force key manifestKey tar manifestPath
       ++ evs)%list)).
Proof.
  intros Hname Hne Hinspect Hdigest Hd tag key tar manifestKey manifestPath Hpath.
  subst tag key tar manifestKey manifestPath.
  unfold resolutionEvents, pullEntryEvents.
  program_to_pull. rewrite Hname. cbn [truthy negb].
  rewrite (eqb_empty_false Hne). cbn [negb].
  answer Hinspect. rewrite Hdigest.
  cbn [truthy]. rewrite (eqb_empty_false Hd). cbn [negb].
  destruct force; cbn [reachesPull] in Hpath.
  - subst wp.
    destruct (truthy (svc_platform svc)); cbv beta iota zeta;
      match goal with
      | |- context [pullAndCacheImage ?c ?k ?a1 ?a2 ?a3 ?a4 ?a5 ?a6 ?a7 ?a8 ?w] =>
          destruct (pullAndCacheImage c k a1 a2 a3 a4 a5 a6 a7 a8 w) as [[pr w'] evs]
      end; cbn [app]; rewrite app_nil_r; reflexivity.
  - destruct Hpath as (cacheResult & manifestCacheResult & w2 & Hrestore & Hmanifest & Hmiss).
    destruct (truthy (svc_platform svc)); cbv beta iota zeta;
      answer Hrestore; answer Hmanifest; rewrite Hmiss; cbn [negb];
      match goal with
      | |- context [pullAndCacheImage ?c ?k ?a1 ?a2 ?a3 ?a4 ?a5 ?a6 ?a7 ?a8 ?w] =>
          destruct (pullAndCacheImage c k a1 a2 a3 a4 a5 a6 a7 a8 w) as [[pr w'] evs]
      end; cbn [app]; rewrite app_nil_r; reflexivity.
Qed.

(** The four ways through [pullAndCacheImage]. *)

Section PullAndCache.

Variables (img : string) (plat : option string).
Variables (key manifestKey tar manifestPath d : string).
Variable m : DockerImageManifest.


Lemma pullAndCacheImage_pull_fails (wp wa : World) :
  pullImage_io docker img plat wp = (false, wa) ->
  pullAndCacheImage cache docker img plat key manifestKey tar manifestPath d m wp =
    ({| io_success := false; io_imageSize := None;
        io_error := Some ("Failed to pull image: " ++ img) |},
     wa, [EvPull img plat]).
Proof. intros Hpull. program. answer Hpull. reflexivity. Qed.

Lemma pullAndCacheImage_digest_differs (wp wa wb : World)
    (newManifest : option DockerImageManifest) :
  pullImage_io docker img plat wp = (true, wa) ->
  inspectImageRemote_io docker img wa = (newManifest, wb) ->
  strictEq (digestOf newManifest) (Some d) = false ->
  pullAndCacheImage cache docker img plat key manifestKey tar manifestPath d m wp =
    ({| io_success := false; io_imageSize := None;
        io_error := Some ("Digest mismatch for " ++ img ++ ": expected " ++ d
                          ++ ", got " ++ template (digestOf newManifest)) |},
     wb, [EvPull img plat; EvInspectRemote img]).
Proof.
  intros Hpull Hinspect Hdiff. program.
  answer Hpull. cbn [negb]. answer Hinspect. rewrite Hdiff. reflexivity.
Qed.

Lemma pullAndCacheImage_save_fails (wp wa wb wc : World)
    (newManifest : option DockerImageManifest) :
  pullImage_io docker img plat wp = (true, wa) ->
  inspectImageRemote_io docker img wa = (newManifest, wb) ->
  strictEq (digestOf newManifest) (Some d) = true ->
  saveImageToTar_io docker img tar wb = (false, wc) ->
  pullAndCacheImage cache docker img plat key manifestKey tar manifestPath d m wp =
    ({| io_success := false; io_imageSize := None;
        io_error := Some ("Failed to save image to tar: " ++ img) |},
     wc, [EvPull img plat; EvInspectRemote img; EvSaveTar img tar]).
Proof.
  intros Hpull Hinspect Hsame Hsave. program.
  answer Hpull. cbn [negb]. answer Hinspect. rewrite Hsame. cbn [negb].
  answer Hsave. reflexivity.
Qed.

Lemma pullAndCacheImage_completes (wp wa wb wc wd we wf : World)
    (newManifest : option DockerImageManifest) (manifestOk : bool)
    (archiveResult : CacheOperationResult) (inspectInfo : option DockerImageMetadata) :
  pullImage_io docker img plat wp = (true, wa) ->
  inspectImageRemote_io docker img wa = (newManifest, wb) ->
  strictEq (digestOf newManifest) (Some d) = true ->
  saveImageToTar_io docker img tar wb = (true, wc) ->
  saveManifestToCache_io cache m manifestPath manifestKey wc = (manifestOk, wd) ->
  saveToCache_io cache [tar] key wd = (archiveResult, we) ->
  inspectImageLocal_io docker img we = (inspectInfo, wf) ->
  pullAndCacheImage cache docker img plat key manifestKey tar manifestPath d m wp =
    ({| io_success := true; io_imageSize := sizeOf inspectInfo; io_error := None |},
     wf,
     ([EvPull img plat; EvInspectRemote img; EvSaveTar img tar;
       EvSaveManifest m manifestPath manifestKey; EvSaveCache [tar] key]
      ++ (if op_success archiveResult
          then [EvLog Info ("Cached " ++ img ++ " with key " ++ key)]
          else [])
      ++ [EvInspectLocal img])%list).
Proof.
  intros Hpull Hinspect Hsame Hsave Hmanifest Harchive Hlocal. program.
  answer Hpull. cbn [negb]. answer Hinspect. rewrite Hsame. cbn [negb].
  answer Hsave. cbn [negb]. answer Hmanifest. answer Harchive.
  destruct (op_success archiveResult); cbv beta iota zeta;
    answer Hlocal; reflexivity.
Qed.

End PullAndCache.

(** C3, as the code has it. On the force-refresh path and on the cache-miss
    path alike, a failed pull, a failed digest re-verification and a failed
    save to the archive each end the run at that step with a failure outcome
    carrying that step's reason. Once the archive is written the outcome is a
    success whatever the two cache saves and the local inspection answer: the
    saves are attempted, only a successful archive save is logged, and the
    size is the inspection's if it gave one. *)
Theorem pull_and_cache_short_circuits
    (svc : ComposeService) (prefix name d : string) (skip force : bool)
    (w0 w1 wp : World) (m : DockerImageManifest) :
  imageNamePart (image svc) = Some name -> name <> "" ->
  inspectImageRemote_io docker (image svc) w0 = (Some m, w1) ->
  m_digest m = Some d -> d <> "" ->
  let img := image svc in
  let plat := svc_platform svc in
  let tag := imageTagOrLatest img in
  let key := generateCacheKey cache prefix name tag plat (Some d) in
  let tar := generateTarPath cache name tag plat (Some d) in
  let manifestKey := generateManifestCacheKey cache prefix name tag plat (Some d) in
  let manifestPath := generateManifestPath cache name tag plat (Some d) in
  reachesPull cache force key manifestKey tar manifestPath w1 wp ->
  let pulled := pullImage_io docker img plat wp in
  let inspected := inspectImageRemote_io docker img (snd pulled) in
  let saved := saveImageToTar_io docker img tar (snd inspected) in
  let manifestSaved := saveManifestToCache_io cache m manifestPath manifestKey (snd saved) in
  let archiveSaved := saveToCache_io cache [tar] key (snd manifestSaved) in
  let inspectedLocal := inspectImageLocal_io docker img (snd archiveSaved) in
  let before :=
    (resolutionEvents svc key tar
     ++ pullEntryEvents svc force key manifestKey tar manifestPath)%list in
  let failure reason :=
    {| success := false; restoredFromCache := false;
       imageName := img; cacheKey := key;
       digest := Some d; platform := plat;
       error := Some reason; imageSize := None |} in
  let r := processService cache docker svc prefix skip force w0 in
  (fst pulled = false ->
     outcome r = failure ("Failed to pull image: " ++ img)
     /\ finalWorld r = snd pulled
     /\ events r = (before ++ [EvPull img plat])%list)
  /\ (fst pulled = true ->
      strictEq (digestOf (fst inspected)) (Some d) = false ->
      outcome r = failure ("Digest mismatch for " ++ img ++ ": expected " ++ d
                           ++ ", got " ++ template (digestOf (fst inspected)))
      /\ finalWorld r = snd inspected
      /\ events r = (before ++ [EvPull img plat; EvInspectRemote img])%list)
  /\ (fst pulled = true ->
      strictEq (digestOf (fst inspected)) (Some d) = true ->
      fst saved = false ->
      outcome r = failure ("Failed to save image to tar: " ++ img)
      /\ finalWorld r = snd saved
      /\ events r = (before ++ [EvPull img plat; EvInspectRemote img;
                                EvSaveTar img tar])%list)
  /\ (fst pulled = true ->
      strictEq (digestOf (fst inspected)) (Some d) = true ->
      fst saved = true ->
      outcome r = {| success := true; restoredFromCache := false;
                     imageName := img; cacheKey := key;
                     digest := Some d; platform := plat;
                     error := None; imageSize := sizeOf (fst inspectedLocal) |}
      /\ finalWorld r = snd inspectedLocal
      /\ events r = (before
                     ++ [EvPull img plat; EvInspectRemote img; EvSaveTar img tar;
                         EvSaveManifest m manifestPath manifestKey;
                         EvSaveCache [tar] key]
                     ++ (if op_success (fst archiveSaved)
                         then [EvLog Info ("Cached " ++ img ++ " with key " ++ key)]
                         else [])
                     ++ [EvInspectLocal img])%list).
Proof.
  intros Hname Hne Hinspect Hdigest Hd img plat tag key tar manifestKey manifestPath
    Hpath pulled inspected saved manifestSaved archiveSaved inspectedLocal
    before failure r.
  subst r.
  rewrite (@processService_pull_path svc prefix name d skip force w0 w1 wp m
             Hname Hne Hinspect Hdigest Hd Hpath).
  fold img plat tag key tar manifestKey manifestPath before.
  subst failure inspectedLocal archiveSaved manifestSaved saved inspected pulled.
  destruct (pullImage_io docker img plat wp) as [pullOk wa] eqn:Epull.
  cbn [fst snd].
  destruct (inspectImageRemote_io docker img wa) as [newManifest wb] eqn:Einspect.
  cbn [fst snd].
  destruct (saveImageToTar_io docker img tar wb) as [saveOk wc] eqn:Esave.
  cbn [fst snd].
  destruct (saveManifestToCache_io cache m manifestPath manifestKey wc)
    as [manifestOk wd] eqn:Emanifest.
  cbn [fst snd].
  destruct (saveToCache_io cache [tar] key wd) as [archiveResult we] eqn:Earchive.
  cbn [fst snd].
  destruct (inspectImageLocal_io docker img we) as [inspectInfo wf] eqn:Elocal.
  cbn [fst snd].
  split; [|split; [|split]].
  - intros ->.
    rewrite (@pullAndCacheImage_pull_fails img plat key manifestKey tar manifestPath
               d m wp wa Epull).
    subst before. rewrite app_assoc. auto.
  - intros -> Hdiff.
    rewrite (@pullAndCacheImage_digest_differs img plat key manifestKey tar manifestPath
               d m wp wa wb newManifest Epull Einspect Hdiff).
    subst before. rewrite app_assoc. auto.
  - intros -> Hsame ->.
    rewrite (@pullAndCacheImage_save_fails img plat key manifestKey tar manifestPath
               d m wp wa wb wc newManifest Epull Einspect Hsame Esave).
    subst before. rewrite app_assoc. auto.
  - intros -> Hsame ->.
    rewrite (@pullAndCacheImage_completes img plat key manifestKey tar manifestPath
               d m wp wa wb wc wd we wf newManifest manifestOk archiveResult inspectInfo
               Epull Einspect Hsame Esave Emanifest Earchive Elocal).
    subst before. rewrite app_assoc. auto.
Qed.

(** C9. In the pull-and-cache sequence, reached either way, when the pull
    succeeds and the inspection that follows gives no manifest or a manifest
    without digest, the run ends there: the outcome is a failure whose error
    is the digest mismatch with [undefined] as the digest got, and no restore
    by key prefix is among the requests of the run, whatever
    skipDigestVerification is. *)
Theorem post_pull_digest_missing_is_mismatch
    (svc : ComposeService) (prefix name d : string) (skip force : bool)
    (w0 w1 wp wa wb : World) (m : DockerImageManifest)
    (newManifest : option DockerImageManifest) :
  imageNamePart (image svc) = Some name -> name <> "" ->
  inspectImageRemote_io docker (image svc) w0 = (Some m, w1) ->
  m_digest m = Some d -> d <> "" ->
  let img := image svc in
  let plat := svc_platform svc in
  let tag := imageTagOrLatest img in
  let key := generateCacheKey cache prefix name tag plat (Some d) in
  let tar := generateTarPath cache name tag plat (Some d) in
  let manifestKey := generateManifestCacheKey cache prefix name tag plat (Some d) in
  let manifestPath := generateManifestPath cache name tag plat (Some d) in
  reachesPull cache force key manifestKey tar manifestPath w1 wp ->
  pullImage_io docker img plat wp = (true, wa) ->
  inspectImageRemote_io docker img wa = (newManifest, wb) ->
  digestOf newManifest = None ->
  let r := processService cache docker svc prefix skip force w0 in
  outcome r = {| success := false; restoredFromCache := false;
                 imageName := img; cacheKey := key;
                 digest := Some d; platform := plat;
                 error := Some ("Digest mismatch for " ++ img ++ ": expected " ++ d
                                ++ ", got undefined");
                 imageSize := None |}
  /\ finalWorld r = wb
  /\ events r = (resolutionEvents svc key tar
                 ++ pullEntryEvents svc force key manifestKey tar manifestPath
                 ++ [EvPull img plat; EvInspectRemote img])%list
  /\ existsb isPrefixRestore (events r) = false.
Proof.
  intros Hname Hne Hinspect Hdigest Hd img plat tag key tar manifestKey manifestPath
    Hpath Hpull Hnew Hnone r.
  assert (Hdiff : strictEq (digestOf newManifest) (Some d) = false)
    by (rewrite Hnone; reflexivity).
  subst r.
  rewrite (@processService_pull_path svc prefix name d skip force w0 w1 wp m
             Hname Hne Hinspect Hdigest Hd Hpath).
  fold img plat tag key tar manifestKey manifestPath.
  rewrite (@pullAndCacheImage_digest_differs img plat key manifestKey tar manifestPath
             d m wp wa wb newManifest Hpull Hnew Hdiff).
  rewrite Hnone. unfold outcome, finalWorld, events. cbn [fst snd template].
  do 3 (split; [reflexivity|]).
  unfold resolutionEvents, pullEntryEvents.
  destruct (truthy (svc_platform svc)); destruct force; reflexivity.
Qed.

End PerImage.

(** ** What every outcome carries *)

Section Batch.

Context {World : Type}.
Variable cache : Cache World.
Variable docker : DockerCommand World.

(** *** Facts that hold of every outcome *)

Lemma always_ret {A} (P : A -> Prop) (a : A) :
  P a -> always (World:=World) P (ret a).
Proof. intros H w. exact H. Qed.

Lemma always_bind {A B} (Q : A -> Prop) (P : B -> Prop) (m : M World A) (f : A -> M World B) :
  always Q m -> (forall a, Q a -> always P (f a)) -> always P (bind m f).
Proof.
  intros Hm Hf w. unfold outcome, bind.
  specialize (Hm w). unfold outcome in Hm.
  destruct (m w) as [[a w1] e1]. simpl in Hm.
  specialize (Hf a Hm w1). unfold outcome in Hf.
  destruct (f a w1) as [[b w2] e2]. exact Hf.
Qed.

Lemma always_true {A} (m : M World A) : always (fun _ => True) m.
Proof. intros w. exact I. Qed.

Lemma always_then {A B} (P : B -> Prop) (m : M World A) (f : A -> M World B) :
  (forall a, always P (f a)) -> always P (bind m f).
Proof. intros Hf. apply always_bind with (Q := fun _ => True); auto using always_true. Qed.

Ltac always_steps :=
  repeat first
    [ apply always_ret; reflexivity
    | apply always_then; intros ?
    | match goal with
      | |- always _ (if ?b then _ else _) => destruct b
      | |- always _ (match ?x with _ => _ end) => destruct x
      end ].

Lemma processCacheHit_imageName
    (img tar manifestPath : string) (hitKey : option string) (skip : bool)
    (d : string) (plat : option string) :
  always (fun r => imageName r = img)
    (processCacheHit cache docker img tar manifestPath hitKey skip d plat).
Proof. unfold processCacheHit. cbv zeta. always_steps. Qed.

Lemma tryRestoreFromCacheWithoutDigest_imageName
    (img name tag : string) (plat : option string) (prefix : string) :
  always (fun o => forall r, o = Some r -> imageName r = img)
    (tryRestoreFromCacheWithoutDigest cache docker img name tag plat prefix).
Proof.
  unfold tryRestoreFromCacheWithoutDigest. cbv zeta.
  repeat first
    [ apply always_ret; intros r E; inversion E; reflexivity
    | apply always_then; intros ?
    | match goal with
      | |- always _ (if ?b then _ else _) => destruct b
      end ].
Qed.

(** Whatever the branch, the outcome names the image it was asked for. *)
Lemma processService_imageName
    (svc : ComposeService) (prefix : string) (skip force : bool) :
  always (fun r => imageName r = image svc)
    (processService cache docker svc prefix skip force).
Proof.
  unfold processService. cbv zeta.
  destruct (imageNamePart (image svc)) as [name|]; [|always_steps].
  destruct (negb (truthy (Some name))); [always_steps|].
  apply always_then; intros manifest.
  assert (Hunavailable : forall fallback : M World (option ServiceResult),
    always (fun o => forall r, o = Some r -> imageName r = image svc) fallback ->
    always (fun r => imageName r = image svc)
      (bind fallback (fun fallbackResult =>
         match fallbackResult with
         | Some fallback =>
             bind (log Warning ("Registry unavailable for " ++ image svc
                                ++ ". Using cached version. "
                                ++ "Image may be outdated. Enable network access or set force-refresh to pull fresh images."))
               (fun _ => ret fallback)
         | None =>
             bind (log Warning ("Could not get digest for " ++ image svc ++ ", skipping cache"))
               (fun _ => ret {| success := false; restoredFromCache := false;
                                imageName := image svc; cacheKey := "";
                                digest := None; platform := svc_platform svc;
                                error := Some ("Could not get digest for " ++ image svc);
                                imageSize := None |})
         end))).
  { intros fallback Hfallback.
    apply always_bind with (1 := Hfallback).
    intros [r|] Hr; apply always_then; intros _; apply always_ret; auto. }
  assert (Hfallback : always (fun o => forall r, o = Some r -> imageName r = image svc)
            (if skip && negb force
             then tryRestoreFromCacheWithoutDigest cache docker (image svc) name
                    (imageTagOrLatest (image svc)) (svc_platform svc) prefix
             else ret None)).
  { destruct (skip && negb force).
    - apply tryRestoreFromCacheWithoutDigest_imageName.
    - apply always_ret. discriminate. }
  destruct manifest as [[[d|]]|]; cbn [m_digest]; try (apply Hunavailable, Hfallback).
  destruct (truthy (Some d)); [|apply Hunavailable, Hfallback].
  do 3 (apply always_then; intros ?).
  destruct force.
  - always_steps.
  - do 2 (apply always_then; intros ?).
    match goal with |- always _ (if ?b then _ else _) => destruct b end.
    + always_steps.
    + apply always_then; intros _.
      apply always_bind with (1 := processCacheHit_imageName _ _ _ _ _ _ _).
      intros result Hresult. apply always_ret. exact Hresult.
Qed.

End Batch.

(** ** The image reference *)

(** C2. The code cuts the image string at every colon and keeps the first
    two pieces; a split on the last colon is something else as soon as the
    string has two colons. For the image of a registry with a port the code
    takes the host for the name and the port with the repository for the
    tag, where the split on the last colon gives the repository with its
    registry and the tag. *)
Theorem registry_port_image_cut_at_first_colons :
  let img := "registry.example.com:5000/nginx:1.25" in
  imageNamePart img = Some "registry.example.com"
  /\ imageTagOrLatest img = "5000/nginx"
  /\ splitOnLastColon img = ("registry.example.com:5000/nginx", "1.25").
Proof. repeat split. Qed.

(** Without a colon both readings agree: the whole string is the name and
    the tag is [latest]. *)
Lemma split_without_colon (s : string) :
  noColon s = true ->
  split ":" s = [s] /\ beforeLast ":" s = None /\ afterLast ":" s = None.
Proof.
  induction s as [|c rest IH]; simpl; [auto|].
  intros H. apply andb_true_iff in H. destruct H as [Hc Hrest].
  destruct (IH Hrest) as (-> & -> & ->).
  apply negb_true_iff in Hc. rewrite Hc. auto.
Qed.

Lemma tag_defaults_to_latest (s : string) :
  noColon s = true ->
  imageNamePart s = Some s
  /\ imageTagOrLatest s = "latest"
  /\ splitOnLastColon s = (s, "latest").
Proof.
  intros H. destruct (split_without_colon s H) as (Hs & Hb & Ha).
  unfold imageNamePart, imageTagOrLatest, splitOnLastColon.
  rewrite Hs, Hb. auto.
Qed.

(** With exactly one colon both readings agree as well. *)
Lemma split_with_one_colon (name tag : string) :
  noColon name = true -> noColon tag = true ->
  let img := name ++ String ":" tag in
  imageNamePart img = Some name
  /\ imageTagOrLatest img = tag
  /\ splitOnLastColon img = (name, tag).
Proof.
  intros Hname Htag img. subst img.
  destruct (split_without_colon tag Htag) as (Hsplit & Hbefore & Hafter).
  assert (H : split ":" (name ++ String ":" tag) = [name; tag]
              /\ beforeLast ":" (name ++ String ":" tag) = Some name
              /\ afterLast ":" (name ++ String ":" tag) = Some tag).
  { induction name as [|c rest IH]; simpl.
    - rewrite Hsplit, Hbefore, Hafter. auto.
    - simpl in Hname. apply andb_true_iff in Hname. destruct Hname as [Hc Hrest].
      destruct (IH Hrest) as (-> & -> & ->).
      apply negb_true_iff in Hc. rewrite Hc. auto. }
  destruct H as (Hs & Hb & Ha).
  unfold imageNamePart, imageTagOrLatest, splitOnLastColon.
  rewrite Hs, Hb, Ha. auto.
Qed.

(** ** Cache keys *)

(** The full key is the digest-less prefix followed by the digest part, so
    the prefix used by the fallback is a prefix of every full key of the
    same image, tag and platform. *)
Lemma generateCacheKey_extends_prefix
    (env : CacheKeys.Env) (prefix name tag : string) (platform digest : option string) :
  String.prefix (CacheKeys.generateCacheKeyPrefix env prefix name tag platform)
    (CacheKeys.generateCacheKey env prefix name tag platform digest) = true.
Proof.
  unfold CacheKeys.generateCacheKey.
  generalize (CacheKeys.generateCacheKeyPrefix env prefix name tag platform) as k.
  generalize ("-" ++ CacheKeys.extractDigestPrefix env digest) as rest.
  intros rest k. induction k as [|c k IH]; simpl.
  - now destruct rest.
  - destruct (ascii_dec c c) as [_|Hc]; [exact IH|congruence].
Qed.

(** * The theorems at concrete inputs *)

(** A leading colon: rejected with nothing asked of the world. *)
Lemma invalid_name_rejected_before_io_witness :
  let svc := {| image := ":latest"; svc_platform := None |} in
  let r := processService (scriptedCache true true true None)
             (scriptedDocker (fun _ => Some manifestA) true true true None)
             svc "p" false false 0 in
  error (outcome r) = Some "Invalid image name format: :latest" /\ events r = [].
Proof.
  intros svc r.
  destruct (invalid_name_rejected_before_io
              (scriptedCache true true true None)
              (scriptedDocker (fun _ => Some manifestA) true true true None)
              svc "p" false false 0) as [Hinvalid _].
  destruct Hinvalid as (Hout & _ & Hev).
  - right. exists "latest". reflexivity.
  - fold r in Hout, Hev. rewrite Hout, Hev. split; reflexivity.
Defined.

(** Registry down, no fallback allowed: failure, and the cache is left alone. *)
Lemma unresolved_digest_without_fallback_fails_witness :
  let r := processService (scriptedCache true true true None)
             (scriptedDocker (fun _ => None) true true true None)
             nginx "p" false false 0 in
  success (outcome r) = false
  /\ forallb (fun e => negb (isCacheAccess e)) (events r) = true.
Proof.
  intros r.
  destruct (@unresolved_digest_without_fallback_fails nat
              (scriptedCache true true true None)
              (scriptedDocker (fun _ => None) true true true None)
              nginx "p" false false 0 1 None eq_refl eq_refl (or_introl eq_refl))
    as (Hfail & _ & Hquiet & _).
  split; assumption.
Defined.

(** Registry down, fallback allowed, an entry under the prefix: restored. *)
Lemma degraded_fallback_restores_witness :
  let r := processService (scriptedCache true true true None)
             (scriptedDocker (fun _ => None) true true true (Some {| Size := 5 |}))
             nginx "p" true false 0 in
  success (outcome r) = true
  /\ restoredFromCache (outcome r) = true
  /\ digest (outcome r) = None
  /\ last (events r) (EvLog Debug "") =
       EvLog Warning ("Registry unavailable for nginx:1.25. Using cached version. "
                      ++ "Image may be outdated. Enable network access or set force-refresh to pull fresh images.").
Proof.
  intros r. subst r.
  rewrite (@degraded_fallback_restores nat
             (scriptedCache true true true None)
             (scriptedDocker (fun _ => None) true true true (Some {| Size := 5 |}))
             nginx "p" "nginx" 0 1 1 1 1 None _ (Some {| Size := 5 |})
             eq_refl ltac:(discriminate) eq_refl eq_refl eq_refl eq_refl eq_refl eq_refl).
  repeat split.
Defined.

(** The same, but the restored archive does not load. *)
Lemma degraded_fallback_load_failure_hidden_witness :
  let r := processService (scriptedCache true true true None)
             (scriptedDocker (fun _ => None) true true false None)
             nginx "p" true false 0 in
  success (outcome r) = false
  /\ error (outcome r) = Some "Could not get digest for nginx:1.25".
Proof.
  intros r. subst r.
  rewrite (@degraded_fallback_load_failure_hidden nat
             (scriptedCache true true true None)
             (scriptedDocker (fun _ => None) true true false None)
             nginx "p" "nginx" 0 1 1 1 None _
             eq_refl ltac:(discriminate) eq_refl eq_refl eq_refl eq_refl eq_refl).
  repeat split.
Defined.

(** The registry moved from digest A to digest B between the two
    inspections, and the refreshing pull fails. *)
Lemma cache_hit_mismatch_pulls_without_resaving_witness :
  let r := processService (scriptedCache true true true (Some manifestA))
             (scriptedDocker (fun n => if Nat.eqb n 0 then Some manifestA else Some manifestB)
                false true true (Some {| Size := 5 |}))
             nginx "p" false false 0 in
  success (outcome r) = true
  /\ restoredFromCache (outcome r) = true
  /\ digest (outcome r) = Some digestA
  /\ length (filter isPull (events r)) = 1
  /\ existsb isCacheSave (events r) = false.
Proof.
  intros r.
  destruct (@cache_hit_mismatch_pulls_without_resaving nat
              (scriptedCache true true true (Some manifestA))
              (scriptedDocker (fun n => if Nat.eqb n 0 then Some manifestA else Some manifestB)
                 false true true (Some {| Size := 5 |}))
              nginx "p" "nginx" digestA 0 1 1 1 1 1 1 2 2
              manifestA manifestA manifestB _ _ (Some {| Size := 5 |}) false
              eq_refl ltac:(discriminate) eq_refl eq_refl ltac:(discriminate)
              eq_refl eq_refl eq_refl eq_refl eq_refl eq_refl eq_refl eq_refl
              eq_refl eq_refl)
    as (Hout & _ & _ & Hpull & Hsave).
  fold r in Hout, Hpull, Hsave. rewrite Hout.
  repeat split; assumption.
Defined.

(** Cache miss, pull and digest fine, but the archive cannot be written. *)
Lemma pull_and_cache_short_circuits_witness :
  let r := processService (scriptedCache false false true None)
             (scriptedDocker (fun _ => Some manifestA) true false true None)
             nginx "p" false false 0 in
  success (outcome r) = false
  /\ error (outcome r) = Some "Failed to save image to tar: nginx:1.25"
  /\ existsb isCacheSave (events r) = false.
Proof.
  intros r.
  assert (Hmiss : reachesPull (scriptedCache false false true None) false
                    "p-nginx-1.25-linux-amd64-none-aaaaaaaaaaaa"
                    "p-nginx-1.25-linux-amd64-none-aaaaaaaaaaaa-manifest"
                    "/tmp/image-nginx-1.25-linux-amd64-none-aaaaaaaaaaaa.tar"
                    "/tmp/manifest-nginx-1.25-linux-amd64-none-aaaaaaaaaaaa.json"
                    1 1).
  { do 3 eexists. repeat split; reflexivity. }
  destruct (@pull_and_cache_short_circuits nat
              (scriptedCache false false true None)
              (scriptedDocker (fun _ => Some manifestA) true false true None)
              nginx "p" "nginx" digestA false false 0 1 1 manifestA
              eq_refl ltac:(discriminate) eq_refl eq_refl ltac:(discriminate) Hmiss)
    as (_ & _ & Hsave & _).
  destruct (Hsave eq_refl eq_refl eq_refl) as (Hout & _ & Hev).
  fold r in Hout, Hev. rewrite Hout, Hev. repeat split.
Defined.

(** C3 as worded fails: under force refresh, with the pull, the digest check
    and the archive write all fine, the manifest save and the archive save to
    the cache both fail and the local inspection gives nothing, and the
    outcome is a success without error all the same. *)
Lemma cache_save_failure_is_not_a_failure_outcome :
  let cache := scriptedCache false false false None in
  let docker := scriptedDocker (fun _ => Some manifestA) true true true None in
  let key := "p-nginx-1.25-linux-amd64-none-aaaaaaaaaaaa" in
  let tar := "/tmp/image-nginx-1.25-linux-amd64-none-aaaaaaaaaaaa.tar" in
  let manifestPath := "/tmp/manifest-nginx-1.25-linux-amd64-none-aaaaaaaaaaaa.json" in
  let r := processService cache docker nginx "p" false true 0 in
  fst (saveManifestToCache_io cache manifestA manifestPath (key ++ "-manifest") 2) = false
  /\ op_success (fst (saveToCache_io cache [tar] key 2)) = false
  /\ fst (inspectImageLocal_io docker "nginx:1.25" 2) = None
  /\ filter isCacheSave (events r)
     = [EvSaveManifest manifestA manifestPath (key ++ "-manifest"); EvSaveCache [tar] key]
  /\ finalWorld r = 2
  /\ success (outcome r) = true
  /\ error (outcome r) = None
  /\ imageSize (outcome r) = None.
Proof. repeat split. Qed.

(** Force refresh; the registry stops answering after the first inspection. *)
Lemma post_pull_digest_missing_is_mismatch_witness :
  let r := processService (scriptedCache true true true None)
             (scriptedDocker (fun n => if Nat.eqb n 0 then Some manifestA else None)
                true true true None)
             nginx "p" true true 0 in
  success (outcome r) = false
  /\ error (outcome r)
     = Some "Digest mismatch for nginx:1.25: expected sha256:aaaaaaaaaaaaaaaaaaaaaaaa, got undefined"
  /\ existsb isPrefixRestore (events r) = false.
Proof.
  intros r.
  destruct (@post_pull_digest_missing_is_mismatch nat
              (scriptedCache true true true None)
              (scriptedDocker (fun n => if Nat.eqb n 0 then Some manifestA else None)
                 true true true None)
              nginx "p" "nginx" digestA true true 0 1 1 1 2 manifestA None
              eq_refl ltac:(discriminate) eq_refl eq_refl ltac:(discriminate)
              eq_refl eq_refl eq_refl eq_refl)
    as (Hout & _ & _ & Hprefix).
  fold r in Hout, Hprefix. rewrite Hout.
  split; [reflexivity|]. split; [reflexivity|exact Hprefix].
Defined.

(** * Further properties of the per-image processing *)

Section Invariants.

Context {World : Type}.
Variable cache : Cache World.
Variable docker : DockerCommand World.

Ltac outcome_steps :=
  repeat first
    [ apply always_ret; solve [constructor]
    | apply always_then; intros ?
    | match goal with
      | |- always _ (if ?b then _ else _) => destruct b
      | |- always _ (match ?x with _ => _ end) => destruct x
      end ].

Lemma pullAndCacheImage_result
    (img : string) (plat : option string)
    (key manifestKey tar manifestPath d : string) (m : DockerImageManifest) :
  always (fun pr =>
            (io_success pr = true /\ io_error pr = None)
            \/ (io_success pr = false /\ io_imageSize pr = None
                /\ (io_error pr = Some ("Failed to pull image: " ++ img)
                    \/ (exists got, io_error pr =
                           Some ("Digest mismatch for " ++ img ++ ": expected " ++ d
                                 ++ ", got " ++ template got))
                    \/ io_error pr = Some ("Failed to save image to tar: " ++ img))))
    (pullAndCacheImage cache docker img plat key manifestKey tar manifestPath d m).
Proof.
  unfold pullAndCacheImage. cbv zeta.
  apply always_then; intros pulled. destruct (negb pulled).
  { apply always_ret. right. auto. }
  apply always_then; intros newManifest.
  destruct (negb (strictEq (digestOf newManifest) (Some d))).
  { apply always_ret. right. do 2 (split; [reflexivity|]).
    right. left. exists (digestOf newManifest). reflexivity. }
  apply always_then; intros saved. destruct (negb saved).
  { apply always_ret. right. auto. }
  do 4 (apply always_then; intros ?).
  apply always_ret. left. auto.
Qed.

Lemma processCacheHit_result
    (svc : ComposeService) (tar manifestPath : string) (hitKey : option string)
    (skip : bool) (d key : string) :
  always (fun r => Outcome svc (withCacheKey r key))
    (processCacheHit cache docker (image svc) tar manifestPath hitKey skip d
       (svc_platform svc)).
Proof. unfold processCacheHit. cbv zeta. outcome_steps. Qed.

Lemma tryRestoreFromCacheWithoutDigest_result
    (svc : ComposeService) (name tag prefix : string) :
  always (fun o => forall r, o = Some r -> Outcome svc r)
    (tryRestoreFromCacheWithoutDigest cache docker (image svc) name tag
       (svc_platform svc) prefix).
Proof.
  unfold tryRestoreFromCacheWithoutDigest. cbv zeta.
  repeat first
    [ apply always_ret; intros r E; inversion E; solve [constructor]
    | apply always_then; intros ?
    | match goal with
      | |- always _ (if ?b then _ else _) => destruct b
      end ].
Qed.

(** Every outcome is one of the nine records the source returns. *)
Lemma processService_outcome
    (svc : ComposeService) (prefix : string) (skip force : bool) :
  always (Outcome svc) (processService cache docker svc prefix skip force).
Proof.
  unfold processService. cbv zeta.
  destruct (imageNamePart (image svc)) as [name|]; [|outcome_steps].
  destruct (negb (truthy (Some name))); [outcome_steps|].
  apply always_then; intros manifest.
  assert (Hunavailable : forall fallback : M World (option ServiceResult),
    always (fun o => forall r, o = Some r -> Outcome svc r) fallback ->
    always (Outcome svc)
      (bind fallback (fun fallbackResult =>
         match fallbackResult with
         | Some fallback =>
             bind (log Warning ("Registry unavailable for " ++ image svc
                                ++ ". Using cached version. "
                                ++ "Image may be outdated. Enable network access or set force-refresh to pull fresh images."))
               (fun _ => ret fallback)
         | None =>
             bind (log Warning ("Could not get digest for " ++ image svc ++ ", skipping cache"))
               (fun _ => ret {| success := false; restoredFromCache := false;
                                imageName := image svc; cacheKey := "";
                                digest := None; platform := svc_platform svc;
                                error := Some ("Could not get digest for " ++ image svc);
                                imageSize := None |})
         end))).
  { intros fallback Hfallback.
    apply always_bind with (1 := Hfallback).
    intros [r|] Hr; apply always_then; intros _; apply always_ret; auto.
    constructor. }
  assert (Hfallback : always (fun o => forall r, o = Some r -> Outcome svc r)
            (if skip && negb force
             then tryRestoreFromCacheWithoutDigest cache docker (image svc) name
                    (imageTagOrLatest (image svc)) (svc_platform svc) prefix
             else ret None)).
  { destruct (skip && negb force).
    - apply tryRestoreFromCacheWithoutDigest_result.
    - apply always_ret. discriminate. }
  assert (Hpulled : forall key manifestKey tar manifestPath d m,
    always (Outcome svc)
      (bind (pullAndCacheImage cache docker (image svc) (svc_platform svc)
               key manifestKey tar manifestPath d m)
         (fun pullResult =>
            ret {| success := io_success pullResult; restoredFromCache := false;
                   imageName := image svc; cacheKey := key;
                   digest := Some d; platform := svc_platform svc;
                   error := io_error pullResult;
                   imageSize := io_imageSize pullResult |}))).
  { intros key manifestKey tar manifestPath d m.
    apply always_bind with (1 := pullAndCacheImage_result _ _ _ _ _ _ _ _).
    intros [ok size err] H. apply always_ret.
    cbn [io_success io_error io_imageSize] in *.
    destruct H as [[-> ->]|(-> & -> & [->|[[got ->]| ->]])]; constructor. }
  destruct manifest as [[[d|]]|]; cbn [m_digest]; try (apply Hunavailable, Hfallback).
  destruct (truthy (Some d)); [|apply Hunavailable, Hfallback].
  do 3 (apply always_then; intros ?).
  destruct force.
  - apply always_then; intros _. apply Hpulled.
  - do 2 (apply always_then; intros ?).
    match goal with |- always _ (if ?b then _ else _) => destruct b end.
    + apply always_then; intros _. apply Hpulled.
    + apply always_then; intros _.
      eapply always_bind; [apply (processCacheHit_result svc)|].
      intros result Hresult. apply always_ret. exact Hresult.
Qed.

(** X1. Whatever the collaborators answer, the outcome of processing a
    service is one of the nine records the source returns: invalid format,
    digest unavailable, restored by the fallback, pull failed, digest changed
    during the pull, archive not written, pulled, cached archive unusable,
    restored from cache. *)
Theorem every_outcome_is_a_source_return
    (svc : ComposeService) (prefix : string) (skip force : bool) (w : World) :
  Outcome svc (outcome (processService cache docker svc prefix skip force w)).
Proof. apply processService_outcome. Qed.

(** X2. The flags of an outcome agree with each other: restored from cache
    only with success, an error message exactly on failure, no size on
    failure, a digest-less success only when restored, and the image name and
    platform are those of the request. *)
Theorem outcome_flags_consistent
    (svc : ComposeService) (prefix : string) (skip force : bool) (w : World) :
  let r := outcome (processService cache docker svc prefix skip force w) in
  (restoredFromCache r = true -> success r = true)
  /\ (success r = true <-> error r = None)
  /\ (success r = false -> imageSize r = None)
  /\ (success r = true -> digest r = None -> restoredFromCache r = true)
  /\ imageName r = image svc
  /\ platform r = svc_platform svc.
Proof.
  intros r. subst r.
  destruct (processService_outcome svc prefix skip force w); cbn;
    repeat split; intros; try discriminate; auto.
Qed.

(** *** Every path of a run, with its events *)

Lemma sat_ret {A} (P : A -> list Event -> Prop) (a : A) :
  P a [] -> sat (World:=World) P (ret a).
Proof. intros H w. exact H. Qed.

Lemma sat_call {A B} (P : B -> list Event -> Prop) (ev : Event)
    (op : World -> A * World) (k : A -> M World B) :
  (forall a, sat (fun b e => P b (ev :: e)) (k a)) -> sat P (bind (call ev op) k).
Proof.
  intros H w. unfold sat, outcome, events, bind, call in *.
  destruct (op w) as [a w1]. specialize (H a w1).
  destruct (k a w1) as [[b w2] e2]. exact H.
Qed.

Lemma sat_log {B} (P : B -> list Event -> Prop) (level : LogLevel) (message : string)
    (k : unit -> M World B) :
  sat (fun b e => P b (EvLog level message :: e)) (k tt) ->
  sat P (bind (log level message) k).
Proof.
  intros H w. unfold sat, outcome, events, bind, log in *.
  specialize (H w). destruct (k tt w) as [[b w2] e2]. exact H.
Qed.

Lemma sat_bind_ret {A B} (P : B -> list Event -> Prop) (a : A) (k : A -> M World B) :
  sat P (k a) -> sat P (bind (ret a) k).
Proof.
  intros H w. unfold sat, outcome, events, bind, ret in *.
  specialize (H w). destruct (k a w) as [[b w2] e2]. exact H.
Qed.

Lemma sat_assoc {A B C} (P : C -> list Event -> Prop) (m : M World A)
    (g : A -> M World B) (k : B -> M World C) :
  sat P (bind m (fun a => bind (g a) k)) -> sat P (bind (bind m g) k).
Proof.
  intros H w. unfold sat, outcome, events, bind in *.
  specialize (H w). destruct (m w) as [[a w1] e1].
  destruct (g a w1) as [[b w2] e2]. destruct (k b w2) as [[c w3] e3].
  rewrite <- app_assoc. exact H.
Qed.

Ltac unfold_processing :=
  cbv beta zeta delta
    [processService processCacheHit tryRestoreFromCacheWithoutDigest
     pullAndCacheImage pullImage inspectImageRemote inspectImageLocal
     saveImageToTar loadImageFromTar restoreFromCache saveToCache
     saveManifestToCache readManifestFromFile].

(** Walks every path of the program; what is left is the property at each
    [return], with the events of the path written out. *)
Ltac path_step :=
  lazymatch goal with
  | |- sat _ (ret _) => apply sat_ret
  | |- sat _ (bind (call _ _) _) => apply sat_call; intros ?
  | |- sat _ (bind (log _ _) _) => apply sat_log
  | |- sat _ (bind (ret _) _) => apply sat_bind_ret
  | |- sat _ (bind (bind _ _) _) => apply sat_assoc
  | |- sat _ (bind (if ?b then _ else _) _) => destruct b
  | |- sat _ (bind (match ?x with _ => _ end) _) => destruct x
  | |- sat _ (if ?b then _ else _) => destruct b
  | |- sat _ (match ?x with _ => _ end) => destruct x
  end; cbv beta.

Ltac paths := repeat path_step.

(** X3. Under force refresh no run ever asks the cache for anything: no
    restore, no read of a restored manifest, no load of a restored archive;
    and no outcome is marked as restored from cache. *)
Theorem force_refresh_never_reads_cache
    (svc : ComposeService) (prefix : string) (skip : bool) (w : World) :
  let r := processService cache docker svc prefix skip true w in
  existsb isCacheLookup (events r) = false
  /\ restoredFromCache (outcome r) = false.
Proof.
  intros r. subst r.
  refine ((_ : sat (fun r e => existsb isCacheLookup e = false
                               /\ restoredFromCache r = false) _) w).
  unfold_processing. rewrite andb_false_r. paths; split; reflexivity.
Qed.

Lemma processService_budget
    (svc : ComposeService) (prefix : string) (skip force : bool) (w : World) :
  let e := events (processService cache docker svc prefix skip force w) in
  length (filter isPull e) <= 1
  /\ length (filter isRemoteInspect e) <= 2
  /\ length (filter isTarWrite e) <= 1
  /\ length (filter isTarLoad e) <= 1
  /\ length (filter isArchiveSave e) <= 1
  /\ length (filter isManifestSave e) <= 1.
Proof.
  intros e. subst e.
  refine ((_ : sat (fun _ e => length (filter isPull e) <= 1
                               /\ length (filter isRemoteInspect e) <= 2
                               /\ length (filter isTarWrite e) <= 1
                               /\ length (filter isTarLoad e) <= 1
                               /\ length (filter isArchiveSave e) <= 1
                               /\ length (filter isManifestSave e) <= 1) _) w).
  unfold_processing.
  paths; lazy beta iota delta [filter isPull isRemoteInspect isTarWrite isTarLoad
                               isArchiveSave isManifestSave length]; lia.
Qed.

(** X4. One run for one image makes at most one pull, two remote
    inspections, one archive write, one archive load, one save of the
    archive and one save of the manifest to the cache. *)
Theorem per_image_request_budget
    (svc : ComposeService) (prefix : string) (skip force : bool) (w : World) :
  let e := events (processService cache docker svc prefix skip force w) in
  length (filter isPull e) <= 1
  /\ length (filter isRemoteInspect e) <= 2
  /\ length (filter isTarWrite e) <= 1
  /\ length (filter isTarLoad e) <= 1
  /\ length (filter isArchiveSave e) <= 1
  /\ length (filter isManifestSave e) <= 1.
Proof. apply processService_budget. Qed.

(** X5. The cache is written only by a run that pulled: if a run saves
    anything to the cache, it has pulled and written the archive before, and
    its outcome is a success that is not marked as restored from cache. In
    particular a run whose outcome is a failure or is restored from cache has
    saved nothing. *)
Theorem cache_written_only_after_pull
    (svc : ComposeService) (prefix : string) (skip force : bool) (w : World) :
  let r := processService cache docker svc prefix skip force w in
  existsb isCacheSave (events r) = true ->
  success (outcome r) = true
  /\ restoredFromCache (outcome r) = false
  /\ existsb isPull (events r) = true
  /\ existsb isTarWrite (events r) = true.
Proof.
  intros r. subst r.
  refine ((_ : sat (fun r e => existsb isCacheSave e = true ->
                               success r = true
                               /\ restoredFromCache r = false
                               /\ existsb isPull e = true
                               /\ existsb isTarWrite e = true) _) w).
  unfold_processing.
  paths; lazy beta iota delta [existsb isCacheSave isPull isTarWrite orb success
                               restoredFromCache io_success withCacheKey];
    intros H; solve [discriminate H | auto].
Qed.

(** X6. The restore by key prefix belongs to the degraded fallback alone: a
    run that makes one has skipDigestVerification on and forceRefresh off,
    makes no pull and saves nothing, and its outcome carries no digest. *)
Theorem prefix_restore_only_in_fallback
    (svc : ComposeService) (prefix : string) (skip force : bool) (w : World) :
  let r := processService cache docker svc prefix skip force w in
  existsb isPrefixRestore (events r) = true ->
  skip = true /\ force = false
  /\ digest (outcome r) = None
  /\ existsb isPull (events r) = false
  /\ existsb isCacheSave (events r) = false.
Proof.
  intros r. subst r.
  refine ((_ : sat (fun r e => existsb isPrefixRestore e = true ->
                               skip = true /\ force = false
                               /\ digest r = None
                               /\ existsb isPull e = false
                               /\ existsb isCacheSave e = false) _) w).
  unfold_processing.
  destruct skip, force; cbn [andb negb];
    paths; lazy beta iota delta [existsb isPrefixRestore isPull isCacheSave orb digest
                                 withCacheKey];
    intros H; solve [discriminate H | auto].
Qed.

(** *** Particular runs *)

Lemma outcome_bind_call {A B} (ev : Event) (op : World -> A * World)
    (k : A -> M World B) (w : World) :
  outcome (bind (call ev op) k w) = outcome (k (fst (op w)) (snd (op w))).
Proof.
  unfold outcome, bind, call.
  destruct (op w) as [a w1]. simpl.
  destruct (k a w1) as [[b w2] e2]. reflexivity.
Qed.

(** X7. For an image string that passes validation, the digest of the
    outcome is the digest the first remote inspection gave when that is a
    non-empty string, and absent otherwise, whichever path the run takes
    afterwards. *)
Theorem outcome_digest_is_first_inspection
    (svc : ComposeService) (prefix : string) (skip force : bool)
    (w w1 : World) (manifest : option DockerImageManifest) :
  ~ (image svc = "" \/ exists rest, image svc = String ":" rest) ->
  inspectImageRemote_io docker (image svc) w = (manifest, w1) ->
  digest (outcome (processService cache docker svc prefix skip force w))
  = if truthy (digestOf manifest) then digestOf manifest else None.
Proof.
  intros Hvalid Hinspect.
  destruct (imageNamePart_defined (image svc)) as [name Hname].
  assert (Hne : (name =? "") = false).
  { apply String.eqb_neq. intros ->. apply Hvalid. now apply imageNamePart_empty. }
  unfold processService. rewrite Hname.
  change (truthy (Some name)) with (negb (name =? "")). rewrite Hne. cbn [negb].
  unfold inspectImageRemote. rewrite outcome_bind_call, Hinspect. cbn [fst snd].
  destruct manifest as [[[d|]]|]; cbn [digestOf m_digest];
    [destruct (truthy (Some d))|..].
  all: match goal with
       | |- digest (outcome (?K ?w')) = ?X =>
           refine ((_ : sat (fun r _ => digest r = X) K) w')
       end.
  all: unfold_processing; paths; reflexivity.
Qed.

(** X22. Once the first remote inspection has given a non-empty digest, the
    cache key of the outcome is the key derived from the prefix, the first
    two pieces of the image string, the platform and that digest, on every
    path: pulled, failed or restored. *)
Theorem outcome_key_is_derived_key
    (svc : ComposeService) (prefix name d : string) (skip force : bool)
    (w w1 : World) (m : DockerImageManifest) :
  imageNamePart (image svc) = Some name -> name <> "" ->
  inspectImageRemote_io docker (image svc) w = (Some m, w1) ->
  m_digest m = Some d -> d <> "" ->
  cacheKey (outcome (processService cache docker svc prefix skip force w))
  = generateCacheKey cache prefix name (imageTagOrLatest (image svc))
      (svc_platform svc) (Some d).
Proof.
  intros Hname Hne Hinspect Hdigest Hd.
  unfold processService. rewrite Hname.
  change (truthy (Some name)) with (negb (name =? "")).
  rewrite (eqb_empty_false Hne). cbn [negb].
  unfold inspectImageRemote. rewrite outcome_bind_call, Hinspect. cbn [fst snd].
  rewrite Hdigest. change (truthy (Some d)) with (negb (d =? "")).
  rewrite (eqb_empty_false Hd). cbn [negb].
  match goal with
  | |- cacheKey (outcome (?K ?w')) = ?X =>
      refine ((_ : sat (fun r _ => cacheKey r = X) K) w')
  end.
  unfold_processing; paths; reflexivity.
Qed.

Ltac valid_name Hname Hne :=
  program; rewrite Hname; cbn [truthy negb];
  rewrite (eqb_empty_false Hne); cbn [negb].

Ltac resolved_digest Hinspect Hdigest Hd :=
  answer Hinspect; rewrite Hdigest; cbn [truthy];
  rewrite (eqb_empty_false Hd); cbn [negb];
  destruct (truthy (svc_platform _)); cbv beta iota zeta.

(** X8. A cache hit whose archive does not load is a failure of that image:
    the run stops at the load, with the cache-load error, the key of the
    image and restoredFromCache off; it is not taken as a miss, so nothing is
    pulled. *)
Theorem cache_hit_load_failure_is_final
    (svc : ComposeService) (prefix name d : string) (skip : bool)
    (w0 w1 w2 w3 w4 : World) (m : DockerImageManifest)
    (cacheResult manifestCacheResult : CacheOperationResult) :
  imageNamePart (image svc) = Some name -> name <> "" ->
  inspectImageRemote_io docker (image svc) w0 = (Some m, w1) ->
  m_digest m = Some d -> d <> "" ->
  let tag := imageTagOrLatest (image svc) in
  let key := generateCacheKey cache prefix name tag (svc_platform svc) (Some d) in
  let tar := generateTarPath cache name tag (svc_platform svc) (Some d) in
  let manifestKey := generateManifestCacheKey cache prefix name tag (svc_platform svc) (Some d) in
  let manifestPath := generateManifestPath cache name tag (svc_platform svc) (Some d) in
  restoreFromCache_io cache [tar] key None w1 = (cacheResult, w2) ->
  restoreFromCache_io cache [manifestPath] manifestKey None w2 = (manifestCacheResult, w3) ->
  op_success cacheResult = true ->
  loadImageFromTar_io docker tar w3 = (false, w4) ->
  processService cache docker svc prefix skip false w0 =
    ({| success := false; restoredFromCache := false;
        imageName := image svc; cacheKey := key;
        digest := Some d; platform := svc_platform svc;
        error := Some ("Failed to load image from cache: " ++ image svc);
        imageSize := None |},
     w4,
     (resolutionEvents svc key tar
      ++ [EvRestoreCache [tar] key None;
          EvRestoreCache [manifestPath] manifestKey None;
          EvLog Info ("Cache hit for " ++ image svc ++ ", loading from cache");
          EvLoadTar tar])%list).
Proof.
  intros Hname Hne Hinspect Hdigest Hd tag key tar manifestKey manifestPath
    Hrestore Hmanifest Hhit Hload.
  subst tag key tar manifestKey manifestPath. unfold resolutionEvents.
  valid_name Hname Hne. resolved_digest Hinspect Hdigest Hd;
    answer Hrestore; answer Hmanifest; rewrite Hhit; cbn [negb];
    answer Hload; reflexivity.
Qed.

(** X9. A cache hit whose archive loads is always reported as a success
    restored from cache, with the digest of the first inspection and the size
    the local inspection gave, whatever the manifest comparison finds. The
    registry is asked a second time only when skipDigestVerification is off
    and the manifest restore reported a key; the image is pulled again exactly
    when, in addition, the stored manifest is readable, the registry answers,
    and the two digests differ. *)
Theorem loaded_cache_hit_is_trusted
    (svc : ComposeService) (prefix name d : string) (skip : bool)
    (w0 w1 w2 w3 w4 w5 : World) (m : DockerImageManifest)
    (cacheResult manifestCacheResult : CacheOperationResult)
    (inspectInfo : option DockerImageMetadata) :
  imageNamePart (image svc) = Some name -> name <> "" ->
  inspectImageRemote_io docker (image svc) w0 = (Some m, w1) ->
  m_digest m = Some d -> d <> "" ->
  let tag := imageTagOrLatest (image svc) in
  let key := generateCacheKey cache prefix name tag (svc_platform svc) (Some d) in
  let tar := generateTarPath cache name tag (svc_platform svc) (Some d) in
  let manifestKey := generateManifestCacheKey cache prefix name tag (svc_platform svc) (Some d) in
  let manifestPath := generateManifestPath cache name tag (svc_platform svc) (Some d) in
  restoreFromCache_io cache [tar] key None w1 = (cacheResult, w2) ->
  restoreFromCache_io cache [manifestPath] manifestKey None w2 = (manifestCacheResult, w3) ->
  op_success cacheResult = true ->
  loadImageFromTar_io docker tar w3 = (true, w4) ->
  inspectImageLocal_io docker (image svc) w4 = (inspectInfo, w5) ->
  let verifies := negb skip && truthy (op_cacheKey manifestCacheResult) in
  let stored := readManifestFromFile_io cache manifestPath w5 in
  let remote := inspectImageRemote_io docker (image svc) (snd stored) in
  let differs :=
    match fst stored, fst remote with
    | Some cachedM, Some remoteM => negb (strictEq (m_digest cachedM) (m_digest remoteM))
    | _, _ => false
    end in
  let r := processService cache docker svc prefix skip false w0 in
  outcome r = {| success := true; restoredFromCache := true;
                 imageName := image svc; cacheKey := key;
                 digest := Some d; platform := svc_platform svc;
                 error := None; imageSize := sizeOf inspectInfo |}
  /\ length (filter isRemoteInspect (events r)) = (if verifies then 2 else 1)
  /\ filter isPull (events r)
     = (if verifies && differs then [EvPull (image svc) (svc_platform svc)] else []).
Proof.
  intros Hname Hne Hinspect Hdigest Hd tag key tar manifestKey manifestPath
    Hrestore Hmanifest Hhit Hload Hlocal verifies stored remote differs r.
  subst r differs remote stored verifies tag key tar manifestKey manifestPath.
  valid_name Hname Hne. resolved_digest Hinspect Hdigest Hd;
    answer Hrestore; answer Hmanifest; rewrite Hhit; cbn [negb];
    answer Hload; cbn [negb]; answer Hlocal;
    destruct skip; cbn [negb andb];
    destruct (truthy (op_cacheKey manifestCacheResult)); cbn [negb andb];
    cbv beta iota zeta; try (repeat split; reflexivity);
    destruct (readManifestFromFile_io cache _ w5) as [[cachedM|] w6];
    cbv beta iota zeta; cbn [fst snd];
    destruct (inspectImageRemote_io docker (image svc) w6) as [[remoteM|] w7];
    cbv beta iota zeta; cbn [fst snd]; try (repeat split; reflexivity);
    destruct (strictEq (m_digest cachedM) (m_digest remoteM));
    cbv beta iota zeta; cbn [negb]; try (repeat split; reflexivity);
    destruct (pullImage_io docker (image svc) (svc_platform svc) w7) as [[|] w8];
    repeat split; reflexivity.
Qed.

(** X10. In the degraded fallback, when the restore by key prefix finds
    nothing, no archive load is attempted and the outcome is the
    could-not-get-digest failure. *)
Theorem degraded_fallback_without_entry_fails
    (svc : ComposeService) (prefix name : string)
    (w0 w1 w2 : World) (manifest : option DockerImageManifest)
    (cacheResult : CacheOperationResult) :
  imageNamePart (image svc) = Some name -> name <> "" ->
  inspectImageRemote_io docker (image svc) w0 = (manifest, w1) ->
  truthy (digestOf manifest) = false ->
  let tag := imageTagOrLatest (image svc) in
  let keyPrefix := generateCacheKeyPrefix cache prefix name tag (svc_platform svc) in
  let tar := generateTarPath cache name tag (svc_platform svc) (Some "fallback") in
  restoreFromCache_io cache [tar] (keyPrefix ++ "-fallback") (Some [keyPrefix]) w1
    = (cacheResult, w2) ->
  op_success cacheResult = false ->
  processService cache docker svc prefix true false w0 =
    ({| success := false; restoredFromCache := false;
        imageName := image svc; cacheKey := "";
        digest := None; platform := svc_platform svc;
        error := Some ("Could not get digest for " ++ image svc);
        imageSize := None |},
     w2,
     [EvInspectRemote (image svc);
      EvRestoreCache [tar] (keyPrefix ++ "-fallback") (Some [keyPrefix]);
      EvLog Warning ("Could not get digest for " ++ image svc ++ ", skipping cache")]).
Proof.
  intros Hname Hne Hinspect Hd tag keyPrefix tar Hrestore Hmiss.
  subst tag keyPrefix tar.
  valid_name Hname Hne. answer Hinspect.
  destruct manifest as [[[d|]]|]; simpl in Hd; try discriminate;
    cbn [m_digest truthy]; rewrite ?Hd; cbn [andb negb];
    answer Hrestore; rewrite Hmiss; reflexivity.
Qed.

End Invariants.

(** ** The batch of main.ts *)

(** First the tasks are tied to the functions above: run on its own, one call
    after the other, each task is the function it is cut from. *)

Section AloneIsSequential.

Context {World : Type}.
Variable cache : Cache World.
Variable docker : DockerCommand World.
Variable performanceNow_io : World -> Z * World.

Lemma bind_same_start {A B} (m : M World A) (f g : A -> M World B) (w : World) :
  (forall a w', f a w' = g a w') -> bind m f w = bind m g w.
Proof.
  intros H. unfold bind. destruct (m w) as [[a w1] e1]. now rewrite H.
Qed.

Lemma bind_same {A B} (m m' : M World A) (f g : A -> M World B) (w : World) :
  (forall w', m w' = m' w') -> (forall a w', f a w' = g a w') -> bind m f w = bind m' g w.
Proof.
  intros Hm H. unfold bind. rewrite Hm. destruct (m' w) as [[a w1] e1]. now rewrite H.
Qed.

Lemma bind_ret_start {A B} (a : A) (f : A -> M World B) (w : World) :
  bind (ret a) f w = f a w.
Proof.
  unfold bind, ret. destruct (f a w) as [[b w2] e2]. reflexivity.
Qed.

Lemma alone_andThen {A B} (t : Task A) (f : A -> Task B) (w : World) :
  alone performanceNow_io (andThen t f) w = bind (alone performanceNow_io t) (fun a => alone performanceNow_io (f a)) w.
Proof.
  revert w. induction t as [a|level message next IH|next IH|R requests issue next IH];
    intros w; simpl.
  - now rewrite bind_ret_start.
  - unfold bind, log in *. rewrite IH.
    destruct (alone performanceNow_io next w) as [[a w1] e1].
    destruct (alone performanceNow_io (f a) w1) as [[b w2] e2]. reflexivity.
  - unfold bind in *. destruct (performanceNow_io w) as [time w1]. apply IH.
  - unfold bind in *. destruct (issue w) as [r w1]. rewrite IH.
    destruct (alone performanceNow_io (next r) w1) as [[a w2] e1].
    destruct (alone performanceNow_io (f a) w2) as [[b w3] e2]. now rewrite app_assoc.
Qed.

Lemma alone_await {R B} (c : Call R) (f : R -> Task B) (w : World) :
  alone performanceNow_io (andThen (await c) f) w
  = bind (call (request c) (perform c)) (fun r => alone performanceNow_io (f r)) w.
Proof.
  simpl. unfold bind, call. destruct (perform c w) as [r w1].
  destruct (alone performanceNow_io (f r) w1) as [[b w2] e2]. reflexivity.
Qed.

Lemma alone_awaitAll {R1 R2 B} (c1 : Call R1) (c2 : Call R2) (f : R1 * R2 -> Task B)
    (w : World) :
  alone performanceNow_io (andThen (awaitAll c1 c2) f) w
  = bind (call (request c1) (perform c1))
         (fun r1 => bind (call (request c2) (perform c2))
                         (fun r2 => alone performanceNow_io (f (r1, r2)))) w.
Proof.
  simpl. unfold bind, call. destruct (perform c1 w) as [r1 w1].
  destruct (perform c2 w1) as [r2 w2].
  destruct (alone performanceNow_io (f (r1, r2)) w2) as [[b w3] e3]. reflexivity.
Qed.

Lemma alone_logLine {B} (level : LogLevel) (message : string) (f : unit -> Task B)
    (w : World) :
  alone performanceNow_io (andThen (logLine level message) f) w
  = bind (log level message) (fun _ => alone performanceNow_io (f tt)) w.
Proof. reflexivity. Qed.

Lemma alone_awaitAsync {A B} (t : Task A) (f : A -> Task B) (w : World) :
  alone performanceNow_io (andThen (awaitAsync t) f) w = bind (alone performanceNow_io t) (fun a => alone performanceNow_io (f a)) w.
Proof.
  unfold awaitAsync. rewrite alone_andThen. unfold bind at 1.
  rewrite alone_andThen. unfold bind.
  destruct (alone performanceNow_io t w) as [[a w1] e1]. simpl.
  destruct (alone performanceNow_io (f a) w1) as [[b w2] e2]. now rewrite app_nil_r.
Qed.

Ltac sequential :=
  repeat first
    [ reflexivity
    | rewrite alone_await; apply bind_same_start; intros
    | rewrite alone_awaitAll; apply bind_same_start; intros;
      apply bind_same_start; intros; cbn [fst snd]
    | rewrite alone_logLine; apply bind_same_start; intros
    | lazymatch goal with
      | |- alone performanceNow_io (andThen (if ?b then _ else _) _) _ = _ => destruct b
      | |- alone performanceNow_io (if ?b then _ else _) _ = _ => destruct b
      | |- alone performanceNow_io (match ?x with Some _ => _ | None => _ end) _ = _ => destruct x
      | |- alone performanceNow_io (andThen (Return _) _) _ = _ =>
          cbn [andThen]; rewrite ?bind_ret_start
      end ].

Lemma pullAndCacheImage_alone (completeImageName : string) (platformString : option string)
    (imageCacheKey manifestCacheKey imageTarPath manifestPath imageDigest : string)
    (manifest : DockerImageManifest) (w : World) :
  alone performanceNow_io (Async.pullAndCacheImage cache docker completeImageName platformString
           imageCacheKey manifestCacheKey imageTarPath manifestPath imageDigest manifest) w
  = pullAndCacheImage cache docker completeImageName platformString
      imageCacheKey manifestCacheKey imageTarPath manifestPath imageDigest manifest w.
Proof.
  unfold Async.pullAndCacheImage, pullAndCacheImage,
    pullImage, inspectImageRemote, saveImageToTar, saveManifestToCache, saveToCache,
    inspectImageLocal.
  cbv zeta. sequential.
Qed.

Lemma tryRestoreFromCacheWithoutDigest_alone
    (completeImageName imageNameWithoutTag imageTag : string)
    (platform : option string) (prefix : string) (w : World) :
  alone performanceNow_io (Async.tryRestoreFromCacheWithoutDigest cache docker completeImageName
           imageNameWithoutTag imageTag platform prefix) w
  = tryRestoreFromCacheWithoutDigest cache docker completeImageName
      imageNameWithoutTag imageTag platform prefix w.
Proof.
  unfold Async.tryRestoreFromCacheWithoutDigest, tryRestoreFromCacheWithoutDigest,
    restoreFromCache, loadImageFromTar, inspectImageLocal.
  cbv zeta. sequential.
Qed.

Lemma processCacheHit_alone (completeImageName imageTarPath manifestPath : string)
    (manifestCacheHitKey : option string) (skipLatestCheck : bool)
    (imageDigest : string) (platform : option string) (w : World) :
  alone performanceNow_io (Async.processCacheHit cache docker completeImageName imageTarPath manifestPath
           manifestCacheHitKey skipLatestCheck imageDigest platform) w
  = processCacheHit cache docker completeImageName imageTarPath manifestPath
      manifestCacheHitKey skipLatestCheck imageDigest platform w.
Proof.
  unfold Async.processCacheHit, processCacheHit,
    loadImageFromTar, inspectImageLocal, readManifestFromFile, inspectImageRemote, pullImage.
  cbv zeta. sequential.
Qed.

Lemma processService_alone (serviceDefinition : ComposeService) (prefix : string)
    (skipLatestCheck forceRefresh : bool) (w : World) :
  alone performanceNow_io (Async.processService cache docker serviceDefinition prefix
           skipLatestCheck forceRefresh) w
  = processService cache docker serviceDefinition prefix skipLatestCheck forceRefresh w.
Proof.
  unfold Async.processService, processService, restoreFromCache, inspectImageRemote.
  cbv zeta.
  destruct (imageNamePart (image serviceDefinition)) as [imageNameWithoutTag|];
    [|reflexivity].
  repeat first
    [ progress sequential
    | rewrite alone_awaitAsync; apply bind_same;
      [ intros;
        first [ apply pullAndCacheImage_alone
              | apply tryRestoreFromCacheWithoutDigest_alone
              | apply processCacheHit_alone ]
      | intros ] ].
Qed.

End AloneIsSequential.


(** *** The scheduler, for any callbacks *)

Section Scheduler.

Context {World : Type}.
Variable performanceNow_io : World -> Z * World.

Lemma nth_error_replaceAt_same {A} (i : nat) (a : A) (l : list A) :
  i < length l -> nth_error (replaceAt i a l) i = Some a.
Proof.
  revert i. induction l as [|x l IH]; intros [|i] Hi; simpl in *; try lia; auto.
  apply IH. lia.
Qed.

Lemma nth_error_replaceAt_other {A} (i j : nat) (a : A) (l : list A) :
  i <> j -> nth_error (replaceAt i a l) j = nth_error l j.
Proof.
  revert i j. induction l as [|x l IH]; intros [|i] [|j] Hij; simpl; auto; try lia.
Qed.

Lemma length_replaceAt {A} (i : nat) (a : A) (l : list A) :
  length (replaceAt i a l) = length l.
Proof.
  revert i. induction l as [|x l IH]; intros [|i]; simpl; auto.
Qed.

(** A property of each callback by position that a turn of that callback
    keeps is kept by the whole run. *)
Section Kept.

Variable A : Type.
Variable keeps : nat -> Thread (World:=World) A -> Prop.
Hypothesis resume_keeps :
  forall i rest w, keeps i (Suspended rest) ->
                   keeps i (fst (fst (resume performanceNow_io rest w))).

Lemma turn_keeps (i : nat) (threads : list (Thread A)) (w : World) :
  eachAt keeps threads -> eachAt keeps (fst (fst (turn performanceNow_io i threads w))).
Proof.
  intros Hall. unfold turn.
  destruct (nth_error threads i) as [[rest|a]|] eqn:Hi; simpl; auto.
  pose proof (resume_keeps w (Hall _ _ Hi)) as Hnew.
  destruct (resume performanceNow_io rest w) as [[thread w1] e]. simpl in *.
  intros j th Hj.
  destruct (Nat.eq_dec i j) as [->|Hij].
  - rewrite nth_error_replaceAt_same in Hj by (apply nth_error_Some; congruence).
    now inversion Hj; subst.
  - rewrite nth_error_replaceAt_other in Hj by exact Hij. now apply Hall.
Qed.

Lemma turns_keep (schedule : list nat) (threads : list (Thread A)) (w : World) :
  eachAt keeps threads -> eachAt keeps (fst (fst (turns performanceNow_io schedule threads w))).
Proof.
  revert threads w. induction schedule as [|i later IH]; intros threads w Hall; simpl; auto.
  pose proof (turn_keeps i w Hall) as Hone.
  destruct (turn performanceNow_io i threads w) as [[threads1 w1] e1]. simpl in Hone.
  specialize (IH threads1 w1 Hone).
  destruct (turns performanceNow_io later threads1 w1) as [[threads2 w2] e2]. exact IH.
Qed.

End Kept.

Lemma startAll_length {A} (tasks : list (Task A)) (w : World) :
  length (fst (fst (startAll performanceNow_io tasks w))) = length tasks.
Proof.
  revert w. induction tasks as [|t rest IH]; intros w; simpl; auto.
  destruct (resume performanceNow_io t w) as [[thread w1] e1].
  specialize (IH w1).
  destruct (startAll performanceNow_io rest w1) as [[threads w2] e2]. simpl in *. lia.
Qed.

Lemma turn_length {A} (i : nat) (threads : list (Thread A)) (w : World) :
  length (fst (fst (turn performanceNow_io i threads w))) = length threads.
Proof.
  unfold turn. destruct (nth_error threads i) as [[rest|a]|]; simpl; auto.
  destruct (resume performanceNow_io rest w) as [[thread w1] e]. simpl.
  apply length_replaceAt.
Qed.

Lemma turns_length {A} (schedule : list nat) (threads : list (Thread A)) (w : World) :
  length (fst (fst (turns performanceNow_io schedule threads w))) = length threads.
Proof.
  revert threads w. induction schedule as [|i later IH]; intros threads w; simpl; auto.
  pose proof (turn_length i threads w) as Hone.
  destruct (turn performanceNow_io i threads w) as [[threads1 w1] e1]. simpl in Hone.
  specialize (IH threads1 w1).
  destruct (turns performanceNow_io later threads1 w1) as [[threads2 w2] e2].
  simpl in *. lia.
Qed.

Lemma fulfilled_nth {A} (threads : list (Thread (World:=World) A)) (values : list A) :
  fulfilled threads = Some values ->
  length values = length threads
  /\ forall i a, nth_error values i = Some a -> nth_error threads i = Some (Finished a).
Proof.
  revert values. induction threads as [|[rest|a] threads IH]; intros values H; simpl in H.
  - inversion H. split; [reflexivity|]. intros [|i] a; discriminate.
  - discriminate.
  - destruct (fulfilled threads) as [vs|]; [|discriminate]. inversion H; subst.
    destruct (IH vs eq_refl) as [Hlen Hnth]. split; [simpl; lia|].
    intros [|i] b Hb; simpl in *; [congruence|auto].
Qed.

Lemma all_finished_fulfilled {A} (threads : list (Thread (World:=World) A)) :
  (forall i, i < length threads -> exists a, nth_error threads i = Some (Finished a)) ->
  exists values, fulfilled threads = Some values.
Proof.
  induction threads as [|thread threads IH]; intros H; simpl.
  - now exists [].
  - destruct (H 0) as [a Ha]; [simpl; lia|]. simpl in Ha. inversion Ha; subst.
    destruct IH as [vs Hvs].
    { intros i Hi. apply (H (S i)). simpl. lia. }
    rewrite Hvs. now exists (a :: vs).
Qed.

(** *** What every callback returns *)

Lemma resume_returns {A} (P : A -> Prop) (t : Task A) (w : World) :
  everyReturn P t -> returns P (fst (fst (resume performanceNow_io t w))).
Proof.
  revert w. induction t as [a|level message next IH|next IH|R requests issue next IH];
    intros w H; simpl in *.
  - exact H.
  - specialize (IH w H). destruct (resume performanceNow_io next w) as [[th w1] e].
    exact IH.
  - destruct (performanceNow_io w) as [time w1]. apply IH, H.
  - destruct (issue w) as [r w1]. simpl. apply H.
Qed.

(** *** How many turns a callback takes *)

Lemma awaitsAtMost_more {A} (n m : nat) (t : Task (World:=World) A) :
  n <= m -> awaitsAtMost n t -> awaitsAtMost m t.
Proof.
  revert n m. induction t as [a|level message next IH|next IH|R requests issue next IH];
    intros n m Hnm H; simpl in *; auto.
  - eapply IH; eauto.
  - intros time. eapply IH; eauto.
  - destruct n as [|n]; [contradiction|]. destruct m as [|m]; [lia|].
    intros r. apply (IH r n m); [lia|apply H].
Qed.

Lemma resume_returnsWithin {A} (n : nat) (t : Task A) (w : World) :
  awaitsAtMost n t ->
  match fst (fst (resume performanceNow_io t w)) with
  | Finished _ => True
  | Suspended rest => exists m, n = S m /\ awaitsAtMost m rest
  end.
Proof.
  revert w. induction t as [a|level message next IH|next IH|R requests issue next IH];
    intros w H; simpl in *; auto.
  - specialize (IH w H). destruct (resume performanceNow_io next w) as [[th w1] e].
    exact IH.
  - destruct (performanceNow_io w) as [time w1]. apply IH, H.
  - destruct (issue w) as [r w1]. simpl. destruct n as [|n]; [contradiction|].
    exists n. split; [reflexivity|apply H].
Qed.

Lemma turn_finished {A} (i j : nat) (threads : list (Thread A)) (w : World) (a : A) :
  nth_error threads j = Some (Finished a) ->
  nth_error (fst (fst (turn performanceNow_io i threads w))) j = Some (Finished a).
Proof.
  intros Hj. unfold turn.
  destruct (nth_error threads i) as [[rest|b]|] eqn:Hi; simpl; auto.
  destruct (resume performanceNow_io rest w) as [[thread w1] e]. simpl.
  rewrite nth_error_replaceAt_other; [exact Hj|]. intros ->. congruence.
Qed.

Lemma turns_finished {A} (schedule : list nat) (j : nat) (threads : list (Thread A))
    (w : World) (a : A) :
  nth_error threads j = Some (Finished a) ->
  nth_error (fst (fst (turns performanceNow_io schedule threads w))) j = Some (Finished a).
Proof.
  revert threads w. induction schedule as [|i later IH]; intros threads w Hj; simpl; auto.
  pose proof (@turn_finished _ i j threads w a Hj) as Hone.
  destruct (turn performanceNow_io i threads w) as [[threads1 w1] e1]. simpl in Hone.
  specialize (IH threads1 w1 Hone).
  destruct (turns performanceNow_io later threads1 w1) as [[threads2 w2] e2]. exact IH.
Qed.

(** A suspended callback that returns within [n] more awaits has returned
    once it was given more than [n] turns. *)
Lemma turns_finish {A} (schedule : list nat) (j n : nat) (threads : list (Thread A))
    (w : World) (thread : Thread A) :
  nth_error threads j = Some thread ->
  returnsWithin n thread ->
  n < count_occ Nat.eq_dec schedule j ->
  exists a, nth_error (fst (fst (turns performanceNow_io schedule threads w))) j
            = Some (Finished a).
Proof.
  revert n threads w thread.
  induction schedule as [|i later IH]; intros n threads w thread Hj Hn Hcount;
    [simpl in Hcount; lia|].
  destruct thread as [rest|a].
  2:{ exists a. now apply turns_finished. }
  simpl in *. destruct (Nat.eq_dec i j) as [->|Hij].
  - unfold turn. rewrite Hj.
    pose proof (resume_returnsWithin n rest w Hn) as Hnext.
    destruct (resume performanceNow_io rest w) as [[thread w1] e]. simpl in Hnext.
    assert (Hnew : nth_error (replaceAt j thread threads) j = Some thread).
    { apply nth_error_replaceAt_same. apply nth_error_Some. congruence. }
    destruct thread as [rest'|a].
    + destruct Hnext as [m [-> Hm]].
      destruct (IH m (replaceAt j (Suspended rest') threads) w1 _ Hnew Hm) as [a Ha];
        [lia|].
      exists a.
      destruct (turns performanceNow_io later _ w1) as [[threads2 w2] e2]. exact Ha.
    + exists a.
      pose proof (@turns_finished _ later j (replaceAt j (Finished a) threads) w1 a Hnew) as Ha.
      destruct (turns performanceNow_io later _ w1) as [[threads2 w2] e2]. exact Ha.
  - assert (Hsame : nth_error (fst (fst (turn performanceNow_io i threads w))) j
                    = Some (Suspended rest)).
    { unfold turn. destruct (nth_error threads i) as [[resti|b]|] eqn:Hi; simpl; auto.
      destruct (resume performanceNow_io resti w) as [[thread w1] e]. simpl.
      now rewrite nth_error_replaceAt_other. }
    destruct (turn performanceNow_io i threads w) as [[threads1 w1] e1]. simpl in Hsame.
    destruct (IH n threads1 w1 _ Hsame Hn Hcount) as [a Ha]. exists a.
    destruct (turns performanceNow_io later threads1 w1) as [[threads2 w2] e2]. exact Ha.
Qed.

End Scheduler.


(** *** A callback the collaborators keep apart *)

Section Apart.

Context {World : Type}.
Variable performanceNow_io : World -> Z * World.
Variable A : Type.
Variable same : A -> A -> Prop.
Variable view : World -> World -> Prop.
Hypothesis view_refl : forall w, view w w.
Hypothesis view_sym : forall w w', view w w' -> view w' w.
Hypothesis view_trans : forall w1 w2 w3, view w1 w2 -> view w2 w3 -> view w1 w3.
Hypothesis clock_keeps : keepsView view performanceNow_io.

Lemma resume_keepsView (t : Task A) (w : World) :
  everyCall (keepsView view) t ->
  view (snd (fst (resume performanceNow_io t w))) w
  /\ calls (keepsView view) (fst (fst (resume performanceNow_io t w))).
Proof.
  revert w. induction t as [a|level message next IH|next IH|R requests issue next IH];
    intros w H; simpl in *.
  - auto.
  - specialize (IH w H). destruct (resume performanceNow_io next w) as [[th w1] e].
    exact IH.
  - pose proof (clock_keeps w) as Hclock.
    destruct (performanceNow_io w) as [time w1]. simpl in Hclock.
    destruct (IH time w1 (H time)) as [Hview Hcalls]. split; [|exact Hcalls].
    eapply view_trans; eauto.
  - destruct H as [Hissue Hnext]. pose proof (Hissue w) as Hw.
    destruct (issue w) as [r w1]. simpl in *. auto.
Qed.

Lemma resume_alike (t t' : Task A) :
  alike same t t' ->
  everyCall (answersByView view) t ->
  forall w w', view w w' ->
    alikeThread same (fst (fst (resume performanceNow_io t w)))
                     (fst (fst (resume performanceNow_io t' w')))
    /\ view (snd (fst (resume performanceNow_io t w)))
            (snd (fst (resume performanceNow_io t' w')))
    /\ calls (answersByView view) (fst (fst (resume performanceNow_io t w))).
Proof.
  induction 1 as [a a' Hsame|level message next next' Halike IH
                 |next next' Halike IH|R requests issue next next' Halike IH];
    intros Hcalls w w' Hview; simpl in *.
  - auto.
  - specialize (IH Hcalls w w' Hview).
    destruct (resume performanceNow_io next w) as [[th w1] e].
    destruct (resume performanceNow_io next' w') as [[th' w1'] e']. exact IH.
  - pose proof (clock_keeps w) as Hclock. pose proof (clock_keeps w') as Hclock'.
    destruct (performanceNow_io w) as [time w1].
    destruct (performanceNow_io w') as [time' w1']. simpl in *.
    apply IH; [apply Hcalls|].
    eapply view_trans; [exact Hclock|]. eapply view_trans; [exact Hview|].
    now apply view_sym.
  - destruct Hcalls as [Hissue Hnext]. destruct (Hissue w w' Hview) as [Hanswer Hworld].
    destruct (issue w) as [r w1]. destruct (issue w') as [r' w1']. simpl in *. subst r'.
    auto.
Qed.

Lemma alone_resume (t : Task A) (w : World) :
  outcome (alone performanceNow_io t w)
  = valueFrom performanceNow_io (fst (fst (resume performanceNow_io t w)))
              (snd (fst (resume performanceNow_io t w))).
Proof.
  revert w. induction t as [a|level message next IH|next IH|R requests issue next IH];
    intros w; simpl.
  - reflexivity.
  - specialize (IH w). unfold bind, log. simpl.
    destruct (alone performanceNow_io next w) as [[a w1] e1].
    destruct (resume performanceNow_io next w) as [[th w2] e2]. exact IH.
  - destruct (performanceNow_io w) as [time w1]. apply IH.
  - destruct (issue w) as [r w1]. simpl.
    destruct (alone performanceNow_io (next r) w1) as [[a w2] e]. reflexivity.
Qed.

Lemma turn_inStep (i j : nat) (threads : list (Thread A)) (w : World)
    (solo : Thread A) (w' : World) :
  inStep same view i threads w solo w' ->
  exists solo' w'',
    inStep same view i (fst (fst (turn performanceNow_io j threads w)))
           (snd (fst (turn performanceNow_io j threads w))) solo' w''
    /\ valueFrom performanceNow_io solo' w'' = valueFrom performanceNow_io solo w'.
Proof.
  intros [[thread [Hi [Halike Hcalls]]] [Hview Hothers]].
  unfold turn. destruct (nth_error threads j) as [[rest|a]|] eqn:Hj; simpl.
  2,3: exists solo, w'; split; [|reflexivity];
       split; [exists thread; auto|split; auto].
  destruct (Nat.eq_dec j i) as [->|Hji].
  - rewrite Hi in Hj. inversion Hj; subst thread. clear Hj.
    destruct solo as [rest'|a']; simpl in Halike; [|contradiction].
    destruct (resume_alike Halike Hcalls Hview) as [Hthreads [Hworlds Hcalls']].
    pose proof (alone_resume rest' w') as Hvalue.
    exists (fst (fst (resume performanceNow_io rest' w'))),
           (snd (fst (resume performanceNow_io rest' w'))).
    destruct (resume performanceNow_io rest w) as [[th w1] e].
    simpl in *. split; [|now rewrite Hvalue].
    split; [|split; [exact Hworlds|]].
    + exists th. split; [|auto].
      apply nth_error_replaceAt_same. apply nth_error_Some. congruence.
    + intros k th' Hk Hth'. rewrite nth_error_replaceAt_other in Hth' by auto.
      eapply Hothers; eauto.
  - destruct (resume_keepsView rest w (Hothers _ _ Hji Hj)) as [Hkept Hcalls'].
    exists solo, w'. split; [|reflexivity].
    destruct (resume performanceNow_io rest w) as [[th w1] e]. simpl in *.
    split; [|split].
    + exists thread. rewrite nth_error_replaceAt_other by exact Hji. auto.
    + eapply view_trans; eauto.
    + intros k th' Hk Hth'. destruct (Nat.eq_dec j k) as [->|Hjk].
      * rewrite nth_error_replaceAt_same in Hth' by (apply nth_error_Some; congruence).
        now inversion Hth'; subst.
      * rewrite nth_error_replaceAt_other in Hth' by exact Hjk. eapply Hothers; eauto.
Qed.

Lemma turns_inStep (schedule : list nat) (i : nat) (threads : list (Thread A)) (w : World)
    (solo : Thread A) (w' : World) :
  inStep same view i threads w solo w' ->
  exists solo' w'',
    inStep same view i (fst (fst (turns performanceNow_io schedule threads w)))
           (snd (fst (turns performanceNow_io schedule threads w))) solo' w''
    /\ valueFrom performanceNow_io solo' w'' = valueFrom performanceNow_io solo w'.
Proof.
  revert threads w solo w'.
  induction schedule as [|j later IH]; intros threads w solo w' Hstep; simpl.
  - exists solo, w'. auto.
  - destruct (turn_inStep j Hstep) as [solo1 [w1' [Hstep1 Hvalue1]]].
    destruct (turn performanceNow_io j threads w) as [[threads1 w1] e1]. simpl in *.
    destruct (IH threads1 w1 solo1 w1' Hstep1) as [solo2 [w2' [Hstep2 Hvalue2]]].
    exists solo2, w2'.
    destruct (turns performanceNow_io later threads1 w1) as [[threads2 w2] e2].
    simpl in *. split; [exact Hstep2|congruence].
Qed.

Lemma startAll_keepsView (tasks : list (Task A)) (w : World) :
  (forall j t, nth_error tasks j = Some t -> everyCall (keepsView view) t) ->
  view (snd (fst (startAll performanceNow_io tasks w))) w
  /\ forall j thread,
       nth_error (fst (fst (startAll performanceNow_io tasks w))) j = Some thread ->
       calls (keepsView view) thread.
Proof.
  revert w. induction tasks as [|t rest IH]; intros w H; simpl.
  - split; [auto|]. intros [|j] thread; discriminate.
  - destruct (resume_keepsView t w (H 0 t eq_refl)) as [Hview Hcalls].
    destruct (resume performanceNow_io t w) as [[th w1] e1]. simpl in *.
    destruct (IH w1 (fun j => H (S j))) as [Hview' Hcalls'].
    destruct (startAll performanceNow_io rest w1) as [[threads w2] e2]. simpl in *.
    split; [eapply view_trans; eauto|].
    intros [|j] thread Hj; simpl in Hj; [inversion Hj; subst; auto|eauto].
Qed.

Lemma startAll_inStep (tasks : list (Task A)) (i : nat) (own : Task A) (w w' : World) :
  nth_error tasks i = Some own ->
  alike same own own ->
  everyCall (answersByView view) own ->
  (forall j t, j <> i -> nth_error tasks j = Some t -> everyCall (keepsView view) t) ->
  view w w' ->
  inStep same view i (fst (fst (startAll performanceNow_io tasks w)))
         (snd (fst (startAll performanceNow_io tasks w)))
         (fst (fst (resume performanceNow_io own w')))
         (snd (fst (resume performanceNow_io own w'))).
Proof.
  revert i w. induction tasks as [|t rest IH]; intros i w Hi Halike Hown Hothers Hview.
  - destruct i; discriminate.
  - simpl. destruct i as [|i]; simpl in Hi.
    + inversion Hi; subst t. clear Hi.
      destruct (resume_alike Halike Hown Hview) as [Hthreads [Hworlds Hcalls]].
      destruct (resume performanceNow_io own w) as [[th w1] e1]. simpl in *.
      destruct (startAll_keepsView rest w1) as [Hview' Hcalls'].
      { intros j t Hj. apply (Hothers (S j)); [lia|exact Hj]. }
      destruct (startAll performanceNow_io rest w1) as [[threads w2] e2]. simpl in *.
      split; [exists th; auto|]. split; [eapply view_trans; eauto|].
      intros [|j] thread Hj Hthread; [lia|]. simpl in Hthread. eauto.
    + destruct (resume_keepsView t w (Hothers 0 t ltac:(lia) eq_refl)) as [Hkept Hcalls].
      destruct (resume performanceNow_io t w) as [[th w1] e1]. simpl in *.
      assert (Hview1 : view w1 w') by (eapply view_trans; eauto).
      specialize (IH i w1 Hi Halike Hown
                     (fun j t Hj => Hothers (S j) t ltac:(lia)) Hview1).
      destruct (startAll performanceNow_io rest w1) as [[threads w2] e2]. simpl in *.
      destruct IH as [[thread [Hthread Hrest]] [Hview2 Hothers2]].
      split; [exists thread; auto|]. split; [exact Hview2|].
      intros [|j] thread' Hj Hthread'; simpl in Hthread'.
      * now inversion Hthread'; subst.
      * apply (Hothers2 j); [lia|exact Hthread'].
Qed.

End Apart.

(** Whatever the order of the turns, a callback that the collaborators keep
    apart returns in the batch what it returns on its own, up to what it
    does with the readings of the clock. *)
Lemma promiseAll_apart {World A : Type} (performanceNow_io : World -> Z * World)
    (same : A -> A -> Prop) (view : World -> World -> Prop)
    (tasks : list (Task A)) (i : nat) (own : Task A)
    (schedule : list nat) (w : World) (values : list A) (a : A) :
  KeptApart performanceNow_io view i tasks ->
  nth_error tasks i = Some own ->
  alike same own own ->
  fst (fst (promiseAll performanceNow_io tasks schedule w)) = Some values ->
  nth_error values i = Some a ->
  same a (outcome (alone performanceNow_io own w)).
Proof.
  intros [Hrefl Hsym Htrans Hclock Hown Hothers] Hi Halike Hvalues Ha.
  unfold promiseAll in Hvalues.
  pose proof (startAll_inStep Hrefl Hsym Htrans Hclock tasks w w Hi Halike (Hown _ Hi)
                Hothers (Hrefl w)) as Hstart.
  rewrite (alone_resume performanceNow_io own w).
  destruct (startAll performanceNow_io tasks w) as [[threads w1] e1]. simpl in Hstart.
  destruct (turns_inStep Hrefl Hsym Htrans Hclock schedule Hstart)
    as [solo [w' [[[thread [Hthread [Hsolo _]]] _] Hvalue]]].
  destruct (turns performanceNow_io schedule threads w1) as [[threads2 w2] e2].
  simpl in *. destruct (fulfilled_nth _ Hvalues) as [_ Hnth].
  rewrite (Hnth _ _ Ha) in Hthread. inversion Hthread; subst thread.
  destruct solo as [rest|a']; simpl in Hsolo; [contradiction|].
  rewrite <- Hvalue. exact Hsolo.
Qed.


(** *** What the callbacks of a batch return, and what they ask for *)

Section Started.

Context {World : Type}.
Variable performanceNow_io : World -> Z * World.
Variable A : Type.

(** A property by position that holds of the tasks and that the first turn
    hands to the callback holds of every callback once all are started. *)
Lemma startAll_each (starts : nat -> Task A -> Prop) (keeps : nat -> Thread A -> Prop)
    (tasks : list (Task A)) (w : World) :
  (forall i t w', starts i t -> keeps i (fst (fst (resume performanceNow_io t w')))) ->
  (forall i t, nth_error tasks i = Some t -> starts i t) ->
  eachAt keeps (fst (fst (startAll performanceNow_io tasks w))).
Proof.
  intros Hresume. revert starts keeps Hresume w.
  induction tasks as [|t rest IH]; intros starts keeps Hresume w H; simpl.
  - intros [|i] thread; discriminate.
  - pose proof (Hresume 0 t w (H 0 t eq_refl)) as Hfirst.
    destruct (resume performanceNow_io t w) as [[th w1] e1]. simpl in Hfirst.
    specialize (IH (fun i => starts (S i)) (fun i => keeps (S i))
                   (fun i => Hresume (S i)) w1 (fun i => H (S i))).
    destruct (startAll performanceNow_io rest w1) as [[threads w2] e2]. simpl in *.
    intros [|i] thread Hi; simpl in Hi.
    + now inversion Hi; subst.
    + now apply IH.
Qed.

Variable f : Event -> bool.

Lemma resume_spends (n : nat) (t : Task A) (w : World) :
  spendsAtMost f n t ->
  length (filter f (snd (resume performanceNow_io t w))) <= n
  /\ spends f (n - length (filter f (snd (resume performanceNow_io t w))))
            (fst (fst (resume performanceNow_io t w))).
Proof.
  revert n w. induction t as [a|level message next IH|next IH|R requests issue next IH];
    intros n w H; simpl in *.
  - split; [lia|exact I].
  - destruct H as [Hline Hnext]. specialize (IH _ w Hnext).
    destruct (resume performanceNow_io next w) as [[th w1] e]. simpl in *.
    destruct (f (EvLog level message)); simpl in *.
    + destruct IH as [Hle Hspends]. split; [lia|].
      now replace (n - S (length (filter f e))) with (n - 1 - length (filter f e)) by lia.
    + now rewrite Nat.sub_0_r in IH.
  - destruct (performanceNow_io w) as [time w1]. apply IH, H.
  - destruct H as [Hrequests Hnext]. destruct (issue w) as [r w1]. simpl.
    split; [exact Hrequests|apply Hnext].
Qed.

Lemma Forall2_replaceAt {X Y} (R : X -> Y -> Prop) (i : nat) (x : X) (y : Y)
    (xs : list X) (ys : list Y) :
  Forall2 R xs ys -> R x y -> Forall2 R (replaceAt i x xs) (replaceAt i y ys).
Proof.
  intros H Hxy. revert i. induction H as [|x0 y0 xs ys H0 H IH]; intros [|i]; simpl;
    constructor; auto.
Qed.

Lemma list_sum_replaceAt (i old new : nat) (l : list nat) :
  nth_error l i = Some old -> list_sum (replaceAt i new l) + old = list_sum l + new.
Proof.
  revert i. induction l as [|x l IH]; intros [|i] H; simpl in *; try discriminate.
  - inversion H. lia.
  - specialize (IH i H). lia.
Qed.

Lemma turn_spends (i : nat) (budgets : list nat) (threads : list (Thread A)) (w : World) :
  Forall2 (spends f) budgets threads ->
  exists budgets',
    Forall2 (spends f) budgets' (fst (fst (turn performanceNow_io i threads w)))
    /\ length (filter f (snd (turn performanceNow_io i threads w))) + list_sum budgets'
       <= list_sum budgets.
Proof.
  intros H. unfold turn.
  destruct (nth_error threads i) as [[rest|a]|] eqn:Hi; simpl.
  2,3: exists budgets; split; [exact H|lia].
  assert (Hbudget : exists n, nth_error budgets i = Some n /\ spendsAtMost f n rest).
  { clear w. revert i Hi. induction H as [|n th budgets threads Hn H IH]; intros [|i] Hi;
      simpl in *; try discriminate.
    - inversion Hi; subst. now exists n.
    - now apply IH. }
  destruct Hbudget as [n [Hn Hrest]].
  destruct (resume_spends n rest w Hrest) as [Hle Hspends].
  destruct (resume performanceNow_io rest w) as [[th w1] e]. simpl in *.
  exists (replaceAt i (n - length (filter f e)) budgets). split.
  - now apply Forall2_replaceAt.
  - pose proof (list_sum_replaceAt i (n - length (filter f e)) budgets Hn). lia.
Qed.

Lemma turns_spend (schedule : list nat) (budgets : list nat) (threads : list (Thread A))
    (w : World) :
  Forall2 (spends f) budgets threads ->
  length (filter f (snd (turns performanceNow_io schedule threads w))) <= list_sum budgets.
Proof.
  revert budgets threads w.
  induction schedule as [|i later IH]; intros budgets threads w H; simpl; [lia|].
  destruct (turn_spends i w H) as [budgets1 [H1 Hle1]].
  destruct (turn performanceNow_io i threads w) as [[threads1 w1] e1]. simpl in *.
  specialize (IH budgets1 threads1 w1 H1).
  destruct (turns performanceNow_io later threads1 w1) as [[threads2 w2] e2]. simpl in *.
  rewrite filter_app, length_app. lia.
Qed.

Lemma startAll_spends (n : nat) (tasks : list (Task A)) (w : World) :
  Forall (spendsAtMost f n) tasks ->
  exists budgets,
    Forall2 (spends f) budgets (fst (fst (startAll performanceNow_io tasks w)))
    /\ length (filter f (snd (startAll performanceNow_io tasks w))) + list_sum budgets
       <= n * length tasks.
Proof.
  intros H. revert w. induction H as [|t rest Ht H IH]; intros w; simpl.
  - exists []. split; [constructor|simpl; lia].
  - destruct (resume_spends n t w Ht) as [Hle Hspends].
    destruct (resume performanceNow_io t w) as [[th w1] e1]. simpl in *.
    destruct (IH w1) as [budgets [Hall Hsum]].
    destruct (startAll performanceNow_io rest w1) as [[threads w2] e2]. simpl in *.
    exists (n - length (filter f e1) :: budgets). split; [now constructor|].
    rewrite filter_app, length_app. simpl. lia.
Qed.

(** Whatever the order of the turns, a batch of callbacks that each spend at
    most [n] spends at most [n] times their number. *)
Lemma promiseAll_spends (n : nat) (tasks : list (Task A)) (schedule : list nat)
    (w : World) :
  Forall (spendsAtMost f n) tasks ->
  length (filter f (snd (promiseAll performanceNow_io tasks schedule w)))
  <= n * length tasks.
Proof.
  intros H. unfold promiseAll.
  destruct (@startAll_spends n tasks w H) as [budgets [Hall Hsum]].
  destruct (startAll performanceNow_io tasks w) as [[threads w1] e1]. simpl in *.
  pose proof (@turns_spend schedule budgets threads w1 Hall) as Hturns.
  destruct (turns performanceNow_io schedule threads w1) as [[threads2 w2] e2].
  simpl in *. rewrite filter_app, length_app. lia.
Qed.

End Started.


(** *** The callbacks of the batch *)

Ltac unfold_tasks :=
  unfold Async.serviceCallback, Async.processService, Async.processCacheHit,
    Async.tryRestoreFromCacheWithoutDigest, Async.pullAndCacheImage,
    Async.pullImage, Async.inspectImageRemote, Async.inspectImageLocal,
    Async.saveImageToTar, Async.loadImageFromTar, Async.restoreFromCache,
    Async.saveToCache, Async.saveManifestToCache, Async.readManifestFromFile;
  cbv zeta.

Ltac walk :=
  repeat first
    [ progress cbn [everyReturn awaitsAtMost spendsAtMost everyCall
                    andThen await awaitAll awaitAsync logLine request perform]
    | progress intros
    | match goal with
      | |- _ /\ _ => split
      | |- context [if ?b then _ else _] => destruct b
      | |- context [match ?x with Some _ => _ | None => _ end] => destruct x
      end ].

Ltac count_requests :=
  repeat first
    [ progress cbn [spendsAtMost andThen await awaitAll awaitAsync logLine request perform
                    filter length Nat.sub
                    isPull isRemoteInspect isTarWrite isArchiveSave]
    | progress intros
    | match goal with
      | |- _ /\ _ => split
      | |- _ <= _ => lia
      | |- True => exact I
      | |- context [if ?b then _ else _] => destruct b
      | |- context [match ?x with Some _ => _ | None => _ end] => destruct x
      end ].

Section Callback.

Context {World : Type}.
Variable cache : Cache World.
Variable docker : DockerCommand World.
Variable performanceNow_io : World -> Z * World.
Variable formatTimeBetween : Z -> Z -> string.

Lemma serviceCallback_names (actionConfig : ActionConfig) (svc : ComposeService) :
  everyReturn (fun r => imageName (tsr_result r) = image svc)
    (Async.serviceCallback cache docker formatTimeBetween actionConfig svc).
Proof.
  unfold_tasks. walk; reflexivity.
Qed.

Lemma serviceCallback_awaits (actionConfig : ActionConfig) (svc : ComposeService) :
  awaitsAtMost 10 (Async.serviceCallback cache docker formatTimeBetween actionConfig svc).
Proof.
  unfold_tasks. walk; exact I.
Qed.

Lemma serviceCallback_budget (actionConfig : ActionConfig) (svc : ComposeService) :
  let callback := Async.serviceCallback cache docker formatTimeBetween actionConfig svc in
  spendsAtMost isPull 1 callback
  /\ spendsAtMost isRemoteInspect 2 callback
  /\ spendsAtMost isTarWrite 1 callback
  /\ spendsAtMost isArchiveSave 1 callback.
Proof.
  cbv zeta. unfold_tasks. repeat split; count_requests.
Qed.

Lemma processService_alike (svc : ComposeService) (prefix : string) (skip force : bool) :
  alike eq (Async.processService cache docker svc prefix skip force)
           (Async.processService cache docker svc prefix skip force).
Proof.
  unfold_tasks.
  repeat first
    [ progress cbn [andThen await awaitAll awaitAsync logLine request perform]
    | apply alike_Return; reflexivity
    | apply alike_Log
    | apply alike_Await; intros
    | match goal with
      | |- context [if ?b then _ else _] => destruct b
      | |- context [match ?x with Some _ => _ | None => _ end] => destruct x
      end ].
Qed.

Lemma alike_andThen {A B} (same0 : A -> A -> Prop) (same : B -> B -> Prop)
    (t t' : Task (World:=World) A) (f f' : A -> Task B) :
  alike same0 t t' ->
  (forall a a', same0 a a' -> alike same (f a) (f' a')) ->
  alike same (andThen t f) (andThen t' f').
Proof.
  intros H Hf. induction H; simpl; try constructor; auto.
Qed.

Lemma serviceCallback_alike (actionConfig : ActionConfig) (svc : ComposeService) :
  alike (fun r r' => tsr_result r = tsr_result r')
    (Async.serviceCallback cache docker formatTimeBetween actionConfig svc)
    (Async.serviceCallback cache docker formatTimeBetween actionConfig svc).
Proof.
  unfold Async.serviceCallback. constructor. intros time time'.
  apply alike_andThen with (same0 := eq).
  - apply alike_andThen with (same0 := eq); [apply processService_alike|].
    intros r r' ->. constructor. intros. now constructor.
  - intros r r' ->. constructor. intros. constructor. reflexivity.
Qed.

Lemma serviceCallback_alone (actionConfig : ActionConfig) (svc : ComposeService)
    (w : World) :
  tsr_result (outcome (alone performanceNow_io
                (Async.serviceCallback cache docker formatTimeBetween actionConfig svc) w))
  = outcome (processService cache docker svc (cacheKeyPrefix actionConfig)
               (skipDigestVerification actionConfig) false
               (snd (performanceNow_io w))).
Proof.
  unfold Async.serviceCallback. simpl.
  destruct (performanceNow_io w) as [time w1]. simpl.
  rewrite alone_awaitAsync. unfold bind.
  rewrite processService_alone.
  destruct (processService cache docker svc _ _ false w1) as [[r w2] e]. simpl.
  destruct (performanceNow_io w2) as [time' w3]. reflexivity.
Qed.

End Callback.


Section BatchRun.

Context {World : Type}.
Variable cache : Cache World.
Variable docker : DockerCommand World.
Variable performanceNow_io : World -> Z * World.
Variable formatTimeBetween : Z -> Z -> string.

Lemma map_nth_eq {X Y Z} (f : X -> Z) (g : Y -> Z) (xs : list X) (ys : list Y) :
  length xs = length ys ->
  (forall i x y, nth_error xs i = Some x -> nth_error ys i = Some y -> f x = g y) ->
  map f xs = map g ys.
Proof.
  revert ys. induction xs as [|x xs IH]; intros [|y ys] Hlen H; simpl in *;
    try discriminate; auto.
  f_equal.
  - apply (H 0); reflexivity.
  - apply IH; [lia|]. intros i. apply (H (S i)).
Qed.


End BatchRun.


(** *** The batch at concrete inputs *)

Lemma nginxView_saved (key : string) (w w' : list string) :
  nginxView w w' -> nginxView (key :: w) (key :: w').
Proof.
  intros H k Hk. unfold stored. simpl. f_equal. now apply H.
Qed.

Lemma nginxView_foreign (key : string) (w : list string) :
  prefix "p-nginx-" key = false -> nginxView (key :: w) w.
Proof.
  intros Hkey k Hk. unfold stored. simpl.
  destruct (k =? key) eqn:E; [|reflexivity].
  apply String.eqb_eq in E. congruence.
Qed.

Ltac storing_world :=
  cbn [fst snd plainDocker storingCache
       inspectImageRemote_io inspectImageLocal_io loadImageFromTar_io pullImage_io
       saveImageToTar_io restoreFromCache_io saveToCache_io saveManifestToCache_io
       readManifestFromFile_io generateCacheKey generateManifestCacheKey
       generateTarPath generateManifestPath].

Lemma nginx_calls_answered_by_view (missing : string -> bool) :
  everyCall (answersByView nginxView)
    (Async.serviceCallback storingCache (plainDocker missing) sampleFormat
       sampleConfig nginx).
Proof.
  unfold_tasks.
  change (imageNamePart (image nginx)) with (Some "nginx").
  change (imageTagOrLatest (image nginx)) with "1.25".
  change (skipDigestVerification sampleConfig) with false.
  change (svc_platform nginx) with (@None string).
  cbn [andb negb truthy String.eqb].
  walk; try exact I.
  all: unfold answersByView; intros w w' Hview; storing_world; split.
  all: repeat match goal with
         | Hv : nginxView ?a _ |- context [stored ?k ?a] => rewrite (Hv k) by reflexivity
         end.
  all: try reflexivity; try exact Hview.
  all: now apply nginxView_saved.
Qed.

Lemma redis_calls_keep_view (missing : string -> bool) :
  everyCall (keepsView nginxView)
    (Async.serviceCallback storingCache (plainDocker missing) sampleFormat
       sampleConfig redis).
Proof.
  unfold_tasks.
  change (imageNamePart (image redis)) with (Some "redis").
  change (imageTagOrLatest (image redis)) with "latest".
  change (skipDigestVerification sampleConfig) with false.
  change (svc_platform redis) with (Some "linux/arm64").
  cbn [andb negb truthy String.eqb].
  walk; try exact I.
  all: unfold keepsView; intros w; storing_world.
  all: try (intros key Hkey; reflexivity).
  all: now apply nginxView_foreign.
Qed.

Lemma nginx_kept_apart (missing : string -> bool) :
  KeptApart stillClock nginxView 0
    (map (Async.serviceCallback storingCache (plainDocker missing) sampleFormat
            sampleConfig)
         [nginx; redis]).
Proof.
  constructor.
  - intros w key Hkey. reflexivity.
  - intros w w' H key Hkey. symmetry. now apply H.
  - intros w1 w2 w3 H12 H23 key Hkey. rewrite (H12 key Hkey). now apply H23.
  - intros w key Hkey. reflexivity.
  - intros t Ht. simpl in Ht. inversion Ht. apply nginx_calls_answered_by_view.
  - intros [|[|j]] t Hj Ht; simpl in Ht; [lia| |destruct j; discriminate].
    inversion Ht. apply redis_calls_keep_view.
Qed.




(** A registry whose answer alternates with every inspection. In the batch
    both images are inspected in the turns that start them, before either
    is resumed, so each finds at its second inspection the digest of its
    first, and both succeed; processed on its own, nginx finds the other
    digest at its second inspection. *)
Lemma first_calls_precede_every_resumption :
  let cache := scriptedCache false false true None in
  let docker :=
    scriptedDocker (fun n => if Nat.even n then Some manifestA else Some manifestB)
      true true true None in
  option_map (map (fun r => success (tsr_result r)))
    (fst (fst (Async.serviceProcessingResults cache docker stillClock sampleFormat
                 sampleConfig [nginx; redis] (roundRobin 10 2) 0)))
  = Some [true; true]
  /\ success (outcome (processService cache docker nginx "p" false false 0)) = false.
Proof.
  split; vm_compute; reflexivity.
Qed.

Section BatchBudget.

Context {World : Type}.
Variable cache : Cache World.
Variable docker : DockerCommand World.
Variable performanceNow_io : World -> Z * World.
Variable formatTimeBetween : Z -> Z -> string.

(** X11. Whatever the order of the turns, a batch over N images makes at
    most N pulls, 2N remote inspections, N archive writes and N saves of an
    archive to the cache in all. *)
Theorem batch_request_budget
    (actionConfig : ActionConfig) (targetServices : list ComposeService)
    (schedule : list nat) (w : World) :
  let e := snd (Async.serviceProcessingResults cache docker performanceNow_io
                  formatTimeBetween actionConfig targetServices schedule w) in
  length (filter isPull e) <= length targetServices
  /\ length (filter isRemoteInspect e) <= 2 * length targetServices
  /\ length (filter isTarWrite e) <= length targetServices
  /\ length (filter isArchiveSave e) <= length targetServices.
Proof.
  cbv zeta. unfold Async.serviceProcessingResults.
  assert (Hall : forall f n,
            (forall svc, spendsAtMost f n
               (Async.serviceCallback cache docker formatTimeBetween actionConfig svc)) ->
            length (filter f (snd (promiseAll performanceNow_io
                      (map (Async.serviceCallback cache docker formatTimeBetween
                              actionConfig) targetServices) schedule w)))
            <= n * length targetServices).
  { intros f n H.
    rewrite <- (length_map (Async.serviceCallback cache docker formatTimeBetween
                              actionConfig) targetServices).
    apply promiseAll_spends. apply Forall_forall. intros t Ht.
    apply in_map_iff in Ht. destruct Ht as [svc [<- _]]. apply H. }
  pose proof (fun svc => serviceCallback_budget cache docker formatTimeBetween
                           actionConfig svc) as Hbudget.
  cbv zeta in Hbudget.
  repeat split.
  - rewrite <- (Nat.mul_1_l (length targetServices)). apply Hall, Hbudget.
  - apply Hall, Hbudget.
  - rewrite <- (Nat.mul_1_l (length targetServices)). apply Hall, Hbudget.
  - rewrite <- (Nat.mul_1_l (length targetServices)). apply Hall, Hbudget.
Qed.

End BatchBudget.

(** *** The further properties at concrete inputs *)

(** A cache miss that completes: the cache is written, after a pull. *)
Lemma cache_written_only_after_pull_witness :
  let r := processService (scriptedCache false false true None)
             (scriptedDocker (fun _ => Some manifestA) true true true None)
             nginx "p" false false 0 in
  existsb isCacheSave (events r) = true
  /\ success (outcome r) = true
  /\ restoredFromCache (outcome r) = false
  /\ existsb isPull (events r) = true.
Proof.
  intros r.
  destruct (@cache_written_only_after_pull nat
              (scriptedCache false false true None)
              (scriptedDocker (fun _ => Some manifestA) true true true None)
              nginx "p" false false 0 eq_refl) as (Hok & Hfresh & Hpull & _).
  repeat split; assumption.
Defined.

(** The degraded fallback at work. *)
Lemma prefix_restore_only_in_fallback_witness :
  let r := processService (scriptedCache true true true None)
             (scriptedDocker (fun _ => None) true true true None)
             nginx "p" true false 0 in
  existsb isPrefixRestore (events r) = true
  /\ digest (outcome r) = None
  /\ existsb isPull (events r) = false.
Proof.
  intros r.
  destruct (@prefix_restore_only_in_fallback nat
              (scriptedCache true true true None)
              (scriptedDocker (fun _ => None) true true true None)
              nginx "p" true false 0 eq_refl) as (_ & _ & Hdigest & Hpull & _).
  repeat split; assumption.
Defined.

Lemma nginx_valid :
  ~ (image nginx = "" \/ exists rest, image nginx = String ":" rest).
Proof. intros [H|[rest H]]; discriminate H. Defined.

(** The registry moves from A to B during the run; the outcome keeps A. *)
Lemma outcome_digest_is_first_inspection_witness :
  digest (outcome (processService (scriptedCache true true true (Some manifestA))
                     (scriptedDocker
                        (fun n => if Nat.eqb n 0 then Some manifestA else Some manifestB)
                        true true true None)
                     nginx "p" false false 0))
  = Some digestA.
Proof.
  exact (@outcome_digest_is_first_inspection nat
           (scriptedCache true true true (Some manifestA))
           (scriptedDocker (fun n => if Nat.eqb n 0 then Some manifestA else Some manifestB)
              true true true None)
           nginx "p" false false 0 1 (Some manifestA) nginx_valid eq_refl).
Defined.

Lemma outcome_key_is_derived_key_witness :
  cacheKey (outcome (processService (scriptedCache true true true (Some manifestA))
                       (scriptedDocker (fun _ => Some manifestA) false true true None)
                       redis "p" false true 0))
  = "p-redis-latest-linux-arm64-none-aaaaaaaaaaaa".
Proof.
  exact (@outcome_key_is_derived_key nat
           (scriptedCache true true true (Some manifestA))
           (scriptedDocker (fun _ => Some manifestA) false true true None)
           redis "p" "redis" digestA false true 0 1 manifestA
           eq_refl ltac:(discriminate) eq_refl eq_refl ltac:(discriminate)).
Defined.

(** A restored archive that does not load. *)
Lemma cache_hit_load_failure_is_final_witness :
  let r := processService (scriptedCache true true true (Some manifestA))
             (scriptedDocker (fun _ => Some manifestA) true true false None)
             nginx "p" false false 0 in
  error (outcome r) = Some "Failed to load image from cache: nginx:1.25"
  /\ existsb isPull (events r) = false.
Proof.
  intros r. subst r.
  rewrite (@cache_hit_load_failure_is_final nat
             (scriptedCache true true true (Some manifestA))
             (scriptedDocker (fun _ => Some manifestA) true true false None)
             nginx "p" "nginx" digestA false 0 1 1 1 1 manifestA _ _
             eq_refl ltac:(discriminate) eq_refl eq_refl ltac:(discriminate)
             eq_refl eq_refl eq_refl eq_refl).
  split; reflexivity.
Defined.

(** Stored digest A, registry still at A: trusted, asked twice, not pulled. *)
Lemma loaded_cache_hit_is_trusted_witness :
  let r := processService (scriptedCache true true true (Some manifestA))
             (scriptedDocker (fun _ => Some manifestA) true true true
                (Some {| Size := 5 |}))
             nginx "p" false false 0 in
  success (outcome r) = true
  /\ restoredFromCache (outcome r) = true
  /\ length (filter isRemoteInspect (events r)) = 2
  /\ filter isPull (events r) = [].
Proof.
  intros r.
  destruct (@loaded_cache_hit_is_trusted nat
              (scriptedCache true true true (Some manifestA))
              (scriptedDocker (fun _ => Some manifestA) true true true
                 (Some {| Size := 5 |}))
              nginx "p" "nginx" digestA false 0 1 1 1 1 1 manifestA _ _
              (Some {| Size := 5 |})
              eq_refl ltac:(discriminate) eq_refl eq_refl ltac:(discriminate)
              eq_refl eq_refl eq_refl eq_refl eq_refl)
    as (Hout & Hasked & Hpull).
  fold r in Hout, Hasked, Hpull. rewrite Hout.
  repeat split; assumption.
Defined.

(** Registry down, fallback allowed, nothing under the prefix. *)
Lemma degraded_fallback_without_entry_fails_witness :
  let r := processService (scriptedCache false false true None)
             (scriptedDocker (fun _ => None) true true true None)
             nginx "p" true false 0 in
  success (outcome r) = false
  /\ existsb isTarLoad (events r) = false.
Proof.
  intros r. subst r.
  rewrite (@degraded_fallback_without_entry_fails nat
             (scriptedCache false false true None)
             (scriptedDocker (fun _ => None) true true true None)
             nginx "p" "nginx" 0 1 1 None _
             eq_refl ltac:(discriminate) eq_refl eq_refl eq_refl eq_refl).
  split; reflexivity.
Defined.

(** * Properties of the discovery of services *)

(** ** Exclusion patterns *)

Lemma special_cases (c : ascii) :
  isRegexSpecial c = true ->
  Ascii.eqb c "*" = false /\ Ascii.eqb c "?" = false.
Proof.
  unfold isRegexSpecial. cbn [existsb]. rewrite !orb_true_iff.
  intros H.
  repeat match type of H with
         | _ \/ _ => destruct H as [H|H]
         end;
    try discriminate H; apply Ascii.eqb_eq in H; subst c; split; reflexivity.
Qed.

Lemma ordinary_cases (c : ascii) :
  isRegexSpecial c = false ->
  Ascii.eqb c "\" = false /\ Ascii.eqb c "." = false
  /\ Ascii.eqb c "^" = false /\ Ascii.eqb c "$" = false.
Proof.
  unfold isRegexSpecial. cbn [existsb]. rewrite !orb_false_iff.
  intuition.
Qed.

Lemma replacements_cons (c : ascii) (pattern : string) :
  replaceQuestionMarks (replaceStars (escapeSpecials (String c pattern)))
  = chunkOf c (replaceQuestionMarks (replaceStars (escapeSpecials pattern))).
Proof.
  unfold chunkOf. cbn [escapeSpecials].
  destruct (isRegexSpecial c) eqn:Hspecial.
  - destruct (special_cases c Hspecial) as [Hstar Hq].
    cbn. rewrite Hstar. cbn. rewrite Hq. reflexivity.
  - cbn [replaceStars].
    destruct (Ascii.eqb c "*") eqn:Hstar; cbn; [reflexivity|].
    destruct (Ascii.eqb c "?"); reflexivity.
Qed.

Lemma replacements_head (pattern tail : string) :
  match replaceQuestionMarks (replaceStars (escapeSpecials pattern)) ++ String "$" tail with
  | String c _ => Ascii.eqb c "*" = false
  | EmptyString => False
  end.
Proof.
  destruct pattern as [|c pattern]; [reflexivity|].
  rewrite replacements_cons. unfold chunkOf.
  destruct (isRegexSpecial c); [reflexivity|].
  destruct (Ascii.eqb c "*") eqn:Hstar; [reflexivity|].
  destruct (Ascii.eqb c "?"); [reflexivity|exact Hstar].
Qed.

Lemma parseRegex_replacements (pattern : string) :
  parseRegex (replaceQuestionMarks (replaceStars (escapeSpecials pattern)) ++ "$")
  = Some (globItems pattern ++ [AssertEnd])%list.
Proof.
  induction pattern as [|c pattern IH]; [reflexivity|].
  rewrite replacements_cons. unfold chunkOf, globItem. cbn [globItems].
  pose proof (replacements_head pattern "") as Hhead.
  unfold globItem.
  destruct (isRegexSpecial c) eqn:Hspecial.
  - destruct (special_cases c Hspecial) as [-> ->].
    cbn [append parseRegex]. cbn [Ascii.eqb Bool.eqb]. rewrite Hspecial, IH. reflexivity.
  - destruct (ordinary_cases c Hspecial) as (Hb & Hd & Hc & He).
    destruct (Ascii.eqb c "*") eqn:Hstar.
    + cbn. rewrite IH. reflexivity.
    + destruct (Ascii.eqb c "?") eqn:Hq.
      * cbn [append parseRegex]. cbn [Ascii.eqb Bool.eqb].
        destruct (replaceQuestionMarks (replaceStars (escapeSpecials pattern)) ++ "$")
          as [|c' rest']; [contradiction|].
        rewrite Hhead, IH. reflexivity.
      * cbn [append parseRegex]. rewrite Hb, Hd, Hc, He, Hspecial, Hstar, Hq.
        cbn [orb]. rewrite IH. reflexivity.
Qed.

(** X12. Every pattern compiles: the source text built by the three
    replacements is always read back as the start anchor, one item per
    character of the pattern, and the end anchor, where a star is any string,
    a question mark any character, and every other character, the regular
    expression metacharacters included, is a literal. *)
Theorem patternToRegex_compiles (pattern : string) :
  patternToRegex pattern = Some (AssertStart :: globItems pattern ++ [AssertEnd])%list.
Proof.
  unfold patternToRegex, regexSource.
  change ("^" ++ ?x) with (String "^" x).
  cbn [parseRegex]. cbn [Ascii.eqb Bool.eqb isRegexSpecial existsb orb].
  rewrite parseRegex_replacements. reflexivity.
Qed.

Lemma searchFrom_anchored (items : list RegexItem) (s : string) :
  searchFrom (AssertStart :: items) false s = false.
Proof. induction s as [|c s IH]; cbn; [reflexivity|exact IH]. Qed.

Lemma test_anchored (items : list RegexItem) (s : string) :
  test (AssertStart :: items) s = matchHere items true s.
Proof.
  unfold test. destruct s as [|c s]; cbn.
  - apply orb_false_r.
  - rewrite searchFrom_anchored. apply orb_false_r.
Qed.

Lemma matchHere_star (rest : list RegexItem) (atStart : bool) (s : string) :
  matchHere (AnyString :: rest) atStart s
  = matchHere rest atStart s
    || match s with
       | String c' s' => negb (isLineTerminator c') && matchHere (AnyString :: rest) false s'
       | EmptyString => false
       end.
Proof. destruct s; reflexivity. Qed.

Lemma glob_no_wildcard_head (c : ascii) (pattern name : string) :
  Ascii.eqb c "*" = false -> Ascii.eqb c "?" = false ->
  GlobMatch (String c pattern) name ->
  exists name', name = String c name' /\ GlobMatch pattern name'.
Proof.
  intros Hstar Hq H. inversion H; subst;
    try (rewrite Ascii.eqb_refl in Hstar; discriminate);
    try (rewrite Ascii.eqb_refl in Hq; discriminate).
  eauto.
Qed.

Lemma matchHere_glob (pattern : string) :
  forall (atStart : bool) (name : string),
    matchHere (globItems pattern ++ [AssertEnd]) atStart name = true
    <-> GlobMatch pattern name.
Proof.
  induction pattern as [|c pattern IH]; intros atStart name.
  - cbn. destruct name; split; intros H; try discriminate; try constructor.
    inversion H.
  - cbn [globItems app]. unfold globItem.
    destruct (Ascii.eqb_spec c "*") as [->|Hstar].
    + revert atStart. induction name as [|c' name IHname]; intros atStart.
      * rewrite matchHere_star, orb_false_r, IH. split; intros H.
        -- now constructor.
        -- inversion H; subst; try congruence; assumption.
      * rewrite matchHere_star, orb_true_iff, andb_true_iff, negb_true_iff, IH, IHname.
        split.
        -- intros [H|[Hc H]]; [now apply GlobStarEnd | now apply GlobStarMore].
        -- intros H. inversion H; subst; try congruence; auto.
    + destruct (Ascii.eqb_spec c "?") as [->|Hq].
      * cbn. destruct name as [|c' name]; [split; intros H; [discriminate|inversion H]|].
        rewrite andb_true_iff, negb_true_iff, IH. split.
        -- intros [Hc H]. now constructor.
        -- intros H. inversion H; subst; try congruence; auto.
      * cbn. destruct name as [|c' name].
        -- split; intros H; [discriminate|inversion H; subst; congruence].
        -- rewrite andb_true_iff, IH, Ascii.eqb_eq. split.
           ++ intros [-> H]. now constructor.
           ++ intros H. inversion H; subst; try congruence; auto.
Qed.

Lemma regex_test_glob (pattern name : string) :
  match patternToRegex pattern with
  | Some regex => test regex name
  | None => false
  end = true <-> GlobMatch pattern name.
Proof.
  rewrite patternToRegex_compiles, test_anchored. apply matchHere_glob.
Qed.

Lemma glob_exact (pattern name : string) :
  includes "*" pattern = false -> includes "?" pattern = false ->
  GlobMatch pattern name <-> name = pattern.
Proof.
  revert name. induction pattern as [|c pattern IH]; intros name Hstar Hq.
  - split; intros H; [now inversion H | subst; constructor].
  - cbn in Hstar, Hq. apply orb_false_iff in Hstar, Hq.
    destruct Hstar as [Hstar Hstar'], Hq as [Hq Hq'].
    split.
    + intros H. apply glob_no_wildcard_head in H; auto.
      destruct H as (name' & -> & H). f_equal. now apply IH.
    + intros ->. apply GlobLiteral.
      * intros ->. discriminate.
      * intros ->. discriminate.
      * now apply IH.
Qed.

(** X13. An image name is excluded exactly when one of the patterns matches
    the whole name as a glob: a star for any run of characters other than
    line terminators, a question mark for one such character, any other
    character for itself. *)
Theorem exclusion_is_glob_matching (imageName : string) (patterns : list string) :
  matchesExcludePattern imageName patterns = true
  <-> exists pattern, In pattern patterns /\ GlobMatch pattern imageName.
Proof.
  unfold matchesExcludePattern. rewrite existsb_exists.
  split; intros (pattern & Hin & H); exists pattern; split; auto.
  - destruct (negb (includes "*" pattern) && negb (includes "?" pattern)) eqn:Hexact.
    + apply andb_true_iff in Hexact. destruct Hexact as [Hs Hq].
      apply negb_true_iff in Hs, Hq. apply glob_exact; auto.
      now apply String.eqb_eq.
    + now apply regex_test_glob.
  - destruct (negb (includes "*" pattern) && negb (includes "?" pattern)) eqn:Hexact.
    + apply andb_true_iff in Hexact. destruct Hexact as [Hs Hq].
      apply negb_true_iff in Hs, Hq. apply String.eqb_eq. now apply glob_exact.
    + now apply regex_test_glob.
Qed.

(** X14. For a pattern without star and question mark the regular expression
    decides what the comparison shortcut decides: it accepts the pattern
    itself and nothing else. *)
Theorem exact_shortcut_agrees_with_regex (pattern imageName : string) :
  includes "*" pattern = false -> includes "?" pattern = false ->
  match patternToRegex pattern with
  | Some regex => test regex imageName
  | None => false
  end = (imageName =? pattern).
Proof.
  intros Hs Hq. apply eq_true_iff_eq.
  rewrite regex_test_glob, String.eqb_eq. now apply glob_exact.
Qed.

Lemma glob_star_alone (name : string) :
  GlobMatch "*" name <-> singleLine name = true.
Proof.
  induction name as [|c name IH]; cbn.
  - split; intros _; [reflexivity|]. apply GlobStarEnd. constructor.
  - rewrite andb_true_iff, negb_true_iff, <- IH. split.
    + intros H. inversion H; subst; try congruence; auto.
      match goal with H' : GlobMatch "" (String _ _) |- _ => inversion H' end.
    + intros [Hc H]. now apply GlobStarMore.
Qed.

Lemma glob_after_exact_prefix (prefix pattern name : string) :
  includes "*" prefix = false -> includes "?" prefix = false ->
  GlobMatch (prefix ++ pattern) name
  <-> exists rest, name = prefix ++ rest /\ GlobMatch pattern rest.
Proof.
  revert name. induction prefix as [|c prefix IH]; intros name Hstar Hq.
  - cbn. split; [eauto|]. now intros (rest & -> & H).
  - cbn in Hstar, Hq. apply orb_false_iff in Hstar, Hq.
    destruct Hstar as [Hstar Hstar'], Hq as [Hq Hq'].
    cbn [append]. split.
    + intros H. apply glob_no_wildcard_head in H; auto.
      destruct H as (name' & -> & H). apply IH in H; auto.
      destruct H as (rest & -> & H). eauto.
    + intros (rest & -> & H). cbn [append]. apply GlobLiteral.
      * intros ->. discriminate.
      * intros ->. discriminate.
      * apply IH; eauto.
Qed.

(** X15. A pattern made of wildcard-free text followed by a star excludes
    exactly the names that start with that text and continue without a line
    terminator. *)
Theorem prefix_pattern_excludes_by_prefix (prefix imageName : string) :
  includes "*" prefix = false -> includes "?" prefix = false ->
  matchesExcludePattern imageName [prefix ++ "*"] = true
  <-> exists rest, imageName = prefix ++ rest /\ singleLine rest = true.
Proof.
  intros Hstar Hq. rewrite exclusion_is_glob_matching. split.
  - intros (pattern & [<-|[]] & H).
    apply glob_after_exact_prefix in H; auto.
    destruct H as (rest & -> & H). exists rest. split; [reflexivity|].
    now apply glob_star_alone.
  - intros (rest & -> & H). exists (prefix ++ "*"). split; [now left|].
    apply glob_after_exact_prefix; auto. exists rest. split; [reflexivity|].
    now apply glob_star_alone.
Qed.

Lemma glob_before_exact_suffix (suffix name : string) :
  includes "*" suffix = false -> includes "?" suffix = false ->
  GlobMatch (String "*" suffix) name
  <-> exists before, name = before ++ suffix /\ singleLine before = true.
Proof.
  intros Hstar Hq. split.
  - induction name as [|c name IH]; intros H.
    + inversion H; subst; try congruence.
      exists "". split; [|reflexivity]. cbn. now apply glob_exact.
    + inversion H; subst; try congruence.
      * exists "". split; [|reflexivity]. cbn. now apply glob_exact.
      * match goal with
        | Hc : isLineTerminator c = false, Hrest : GlobMatch (String "*" suffix) name |- _ =>
            destruct (IH Hrest) as (before & -> & Hline);
            exists (String c before); split; [reflexivity|];
            cbn; now rewrite Hc, Hline
        end.
  - intros (before & -> & Hline).
    induction before as [|c before IH]; cbn in *.
    + apply GlobStarEnd. now apply glob_exact.
    + apply andb_true_iff in Hline. destruct Hline as [Hc Hline].
      apply negb_true_iff in Hc. apply GlobStarMore; auto.
Qed.

(** X16. A pattern made of a star followed by wildcard-free text excludes
    exactly the names that end with that text after a beginning without line
    terminator. *)
Theorem suffix_pattern_excludes_by_suffix (suffix imageName : string) :
  includes "*" suffix = false -> includes "?" suffix = false ->
  matchesExcludePattern imageName [String "*" suffix] = true
  <-> exists before, imageName = before ++ suffix /\ singleLine before = true.
Proof.
  intros Hstar Hq. rewrite exclusion_is_glob_matching. split.
  - intros (pattern & [<-|[]] & H). now apply glob_before_exact_suffix.
  - intros H. exists (String "*" suffix). split; [now left|].
    now apply glob_before_exact_suffix.
Qed.

(** ** Compose files *)

(** X17. Every path returned exists. When paths are given, only given paths
    are returned, and none at all if none of them exists: the default names
    are used only when no path is given, and then only default names are
    returned. *)
Theorem compose_paths_exist_and_defaults_only_without_input
    (existsSync : string -> bool) (candidates : list string) :
  let result := getComposeFilePathsToProcess existsSync candidates in
  (forall path, In path result -> existsSync path = true)
  /\ (candidates <> [] -> forall path, In path result -> In path candidates)
  /\ (candidates <> [] -> (forall path, In path candidates -> existsSync path = false) ->
      result = [])
  /\ (candidates = [] -> forall path, In path result -> In path DEFAULT_COMPOSE_FILE_NAMES).
Proof.
  unfold getComposeFilePathsToProcess.
  destruct candidates as [|c cs]; cbn [length Nat.ltb Nat.leb]; repeat split.
  - intros path H. now apply filter_In in H.
  - intros H. congruence.
  - intros H. congruence.
  - intros _ path H. now apply filter_In in H.
  - intros path H. now apply filter_In in H.
  - intros _ path H. now apply filter_In in H.
  - intros _ Hnone.
    assert (Hall : forall l, (forall path, In path l -> existsSync path = false) ->
                             filter existsSync l = []).
    { induction l as [|x l IH]; intros Hl; [reflexivity|].
      cbn. rewrite (Hl x (or_introl eq_refl)). apply IH. intros y Hy. apply Hl. now right. }
    now apply Hall.
  - intros H. discriminate.
Qed.

(** ** Services *)

Lemma existsb_eqb_In (k : string) (seen : list string) :
  existsb (String.eqb k) seen = true <-> In k seen.
Proof.
  rewrite existsb_exists. split.
  - intros (x & Hin & Heq). apply String.eqb_eq in Heq. now subst.
  - intros H. exists k. split; [assumption|apply String.eqb_refl].
Qed.

Lemma uniqByFrom_In {A} (key : A -> string) (l : list A) :
  forall seen x, In x (uniqByFrom key seen l) -> In x l /\ ~ In (key x) seen.
Proof.
  induction l as [|y l IH]; intros seen x H; [contradiction|].
  cbn in H. destruct (existsb (String.eqb (key y)) seen) eqn:Hseen.
  - destruct (IH _ _ H). split; [now right|assumption].
  - destruct H as [->|H].
    + split; [now left|]. intros Hin. apply existsb_eqb_In in Hin. congruence.
    + destruct (IH _ _ H) as [Hin Hnot]. split; [now right|].
      intros Hs. apply Hnot. now right.
Qed.

Lemma uniqByFrom_NoDup {A} (key : A -> string) (l : list A) :
  forall seen, NoDup (map key (uniqByFrom key seen l)).
Proof.
  induction l as [|y l IH]; intros seen; [constructor|].
  cbn. destruct (existsb (String.eqb (key y)) seen); [apply IH|].
  cbn. constructor; [|apply IH].
  intros Hin. apply in_map_iff in Hin. destruct Hin as (x & Hkey & Hx).
  apply uniqByFrom_In in Hx. destruct Hx as [_ Hnot]. apply Hnot. left. congruence.
Qed.

Lemma uniqByFrom_covers {A} (key : A -> string) (l : list A) :
  forall seen x, In x l -> ~ In (key x) seen ->
    exists y, In y (uniqByFrom key seen l) /\ key y = key x.
Proof.
  induction l as [|y l IH]; intros seen x Hin Hnot; [contradiction|].
  cbn. destruct (existsb (String.eqb (key y)) seen) eqn:Hseen.
  - destruct Hin as [->|Hin].
    + apply existsb_eqb_In in Hseen. contradiction.
    + apply IH; assumption.
  - destruct Hin as [->|Hin].
    + exists x. split; [now left|reflexivity].
    + destruct (String.eqb_spec (key y) (key x)) as [Heq|Hneq].
      * exists y. split; [now left|assumption].
      * destruct (IH (key y :: seen) x Hin) as (z & Hz & Hkey).
        { intros [H|H]; [contradiction|contradiction]. }
        exists z. split; [now right|assumption].
Qed.

Lemma uniqByFrom_first {A} (key : A -> string) (l : list A) :
  forall seen x, In x (uniqByFrom key seen l) ->
    find (fun y => key y =? key x) l = Some x.
Proof.
  induction l as [|y l IH]; intros seen x H; [contradiction|].
  cbn in H. cbn [find].
  destruct (existsb (String.eqb (key y)) seen) eqn:Hseen.
  - destruct (uniqByFrom_In _ _ _ _ H) as [_ Hnot].
    destruct (String.eqb_spec (key y) (key x)) as [Heq|Hneq].
    + apply existsb_eqb_In in Hseen. rewrite Heq in Hseen. contradiction.
    + eapply IH; eassumption.
  - destruct H as [->|H].
    + now rewrite String.eqb_refl.
    + destruct (uniqByFrom_In _ _ _ _ H) as [_ Hnot].
      destruct (String.eqb_spec (key y) (key x)) as [Heq|Hneq].
      * exfalso. apply Hnot. now left.
      * eapply IH; eassumption.
Qed.

Lemma services_of_files (load : string -> ComposeLoad) (files : list string)
    (s : RawService) :
  In s (flat_map fst (map (servicesOfFile load) files))
  <-> exists file services,
      In file files /\ load file = LoadServices services /\ In s services.
Proof.
  rewrite in_flat_map. split.
  - intros (p & Hp & Hs). apply in_map_iff in Hp. destruct Hp as (file & <- & Hfile).
    unfold servicesOfFile in Hs.
    destruct (load file) as [err| | |services] eqn:Hload; try contradiction.
    eauto.
  - intros (file & services & Hfile & Hload & Hs).
    exists (servicesOfFile load file). split.
    + apply in_map. assumption.
    + unfold servicesOfFile. rewrite Hload. assumption.
Qed.

(** X18. Every service kept has an image that no pattern excludes, is listed
    in one of the files, and is the first wanted service with its key in file
    order; no two kept services have the same key, so no two have the same
    image and the same platform (a missing platform counting as empty). *)
Theorem kept_services_are_wanted_and_unique
    (load : string -> ComposeLoad) (files patterns : list string) :
  let services := fst (getComposeServicesFromFiles load files patterns) in
  (forall s, In s services ->
     (exists img, raw_image s = Some img /\ matchesExcludePattern img patterns = false)
     /\ (exists file listed, In file files /\ load file = LoadServices listed /\ In s listed)
     /\ find (fun s' => serviceKey s' =? serviceKey s)
          (filter (wanted patterns) (flat_map fst (map (servicesOfFile load) files)))
        = Some s)
  /\ NoDup (map serviceKey services)
  /\ (forall s1 s2, In s1 services -> In s2 services ->
        raw_image s1 = raw_image s2 ->
        orEmpty (raw_platform s1) = orEmpty (raw_platform s2) -> s1 = s2).
Proof.
  cbn [getComposeServicesFromFiles fst]. unfold uniqBy.
  split; [|split].
  - intros s H.
    pose proof (uniqByFrom_first _ _ _ _ H) as Hfirst.
    apply uniqByFrom_In in H. destruct H as [H _].
    apply filter_In in H. destruct H as [Hin Hwanted].
    split; [|split; [|exact Hfirst]].
    + unfold wanted in Hwanted. destruct (raw_image s) as [img|]; [|discriminate].
      exists img. split; [reflexivity|]. now apply negb_true_iff.
    + now apply services_of_files.
  - apply uniqByFrom_NoDup.
  - intros s1 s2 H1 H2 Himg Hplat.
    assert (Hkey : serviceKey s1 = serviceKey s2)
      by (unfold serviceKey; now rewrite Himg, Hplat).
    pose proof (uniqByFrom_first _ _ _ _ H1) as F1.
    pose proof (uniqByFrom_first _ _ _ _ H2) as F2.
    rewrite Hkey in F1. congruence.
Qed.

Lemma key_parts (image1 image2 platform1 platform2 : string) :
  includes "|" image1 = false -> includes "|" image2 = false ->
  image1 ++ "|" ++ platform1 = image2 ++ "|" ++ platform2 ->
  image1 = image2 /\ platform1 = platform2.
Proof.
  revert image2. induction image1 as [|c image1 IH]; intros image2 H1 H2 Heq.
  - destruct image2 as [|c2 image2]; cbn in *.
    + split; [reflexivity|congruence].
    + inversion Heq; subst. cbn in H2. discriminate.
  - destruct image2 as [|c2 image2]; cbn in *.
    + inversion Heq; subst. cbn in H1. discriminate.
    + inversion Heq; subst.
      apply orb_false_iff in H1, H2. destruct H1 as [_ H1], H2 as [_ H2].
      destruct (IH image2 H1 H2) as [-> ->]; auto.
Qed.

(** X19. Every listed service with an image that no pattern excludes is
    represented among the kept services by one with the same key; when
    neither image contains a bar, that one has the same image and the same
    platform (a missing platform counting as empty). *)
Theorem every_wanted_service_is_represented
    (load : string -> ComposeLoad) (files patterns : list string)
    (file : string) (listed : list RawService) (s : RawService) (img : string) :
  In file files -> load file = LoadServices listed -> In s listed ->
  raw_image s = Some img -> matchesExcludePattern img patterns = false ->
  exists kept,
    In kept (fst (getComposeServicesFromFiles load files patterns))
    /\ serviceKey kept = serviceKey s
    /\ (includes "|" img = false ->
        (forall img', raw_image kept = Some img' -> includes "|" img' = false) ->
        raw_image kept = Some img
        /\ orEmpty (raw_platform kept) = orEmpty (raw_platform s)).
Proof.
  intros Hfile Hload Hs Himg Hpass.
  cbn [getComposeServicesFromFiles fst]. unfold uniqBy.
  destruct (uniqByFrom_covers serviceKey
              (filter (wanted patterns) (flat_map fst (map (servicesOfFile load) files)))
              [] s) as (kept & Hkept & Hkey).
  - apply filter_In. split.
    + apply services_of_files. eauto.
    + unfold wanted. rewrite Himg. now rewrite Hpass.
  - intros [].
  - exists kept. split; [assumption|]. split; [assumption|].
    intros Hbar Hbar'.
    apply uniqByFrom_In in Hkept. destruct Hkept as [Hkept _].
    apply filter_In in Hkept. destruct Hkept as [_ Hwanted].
    unfold wanted in Hwanted.
    destruct (raw_image kept) as [img'|] eqn:Himg'; [|discriminate].
    unfold serviceKey in Hkey. rewrite Himg, Himg' in Hkey. cbn [template] in Hkey.
    destruct (key_parts img' img _ _ (Hbar' img' eq_refl) Hbar Hkey) as [-> Hplat].
    split; [reflexivity|assumption].
Qed.

(** X20. A file whose reading or parsing throws takes nothing away from the
    other files: the services kept are those kept without it, and the log is
    the log of the files before it, one warning naming the file and the
    error, and the log of the files after it. *)
Theorem unreadable_file_contributes_nothing
    (load : string -> ComposeLoad) (before after patterns : list string)
    (bad yamlParsingError : string) :
  load bad = LoadThrows yamlParsingError ->
  let withBad := getComposeServicesFromFiles load (before ++ bad :: after) patterns in
  let without := getComposeServicesFromFiles load (before ++ after) patterns in
  fst withBad = fst without
  /\ snd withBad
     = (snd (getComposeServicesFromFiles load before patterns)
        ++ [EvLog Warning ("Failed to parse " ++ bad ++ ": " ++ yamlParsingError)]
        ++ snd (getComposeServicesFromFiles load after patterns))%list.
Proof.
  intros Hload. cbn [getComposeServicesFromFiles fst snd].
  assert (Hbad : servicesOfFile load bad
                 = ([], [EvLog Warning ("Failed to parse " ++ bad ++ ": "
                                        ++ yamlParsingError)]))
    by (unfold servicesOfFile; now rewrite Hload).
  rewrite !map_app, !flat_map_app. cbn [map flat_map].
  rewrite Hbad. cbn [fst snd app].
  split; reflexivity.
Qed.

(** * Properties of command execution *)

Section ExecuteCommandFacts.

Context {ListenerState : Type}.
Variable callerStdout : option (string -> ListenerState -> ListenerState).
Variable callerStderr : option (string -> ListenerState -> ListenerState).
Variable exec : string -> list string -> ExecRun.
Variable showMs : Z -> string.

Lemma fold_onChunk (cs : list Chunk) :
  forall buffer st,
    fold_left (onChunk callerStdout callerStderr) cs (buffer, st)
    = ({| buf_stdout := buf_stdout buffer ++ stdoutOf cs;
          buf_stderr := buf_stderr buffer ++ stderrOf cs |},
       heard callerStdout callerStderr st cs).
Proof.
  induction cs as [|c cs IH]; intros buffer st.
  - cbn. rewrite !app_nil_r. now destruct buffer.
  - cbn [fold_left]. destruct c as [d|d]; cbn [onChunk]; rewrite IH; cbn;
      rewrite <- ?app_assoc; reflexivity.
Qed.

(** X21. The command is run once, with the first element of [cmd] as the
    program and the rest as its arguments. When it resolves, the result
    carries its exit code, the stdout chunks joined in arrival order and the
    stderr chunks joined in arrival order, however the two streams were
    interleaved; when it rejects, the same error is rethrown. Either way the
    caller's own listeners have been given every chunk, in arrival order, and
    two lines are logged. *)
Theorem executeCommand_assembles_output
    (cmd : list string) (st : ListenerState) (executionStartTime executionEndTime : Z) :
  let run := exec (hd "" cmd) (tl cmd) in
  let '(result, st', logs) :=
    executeCommand callerStdout callerStderr exec showMs cmd st
      executionStartTime executionEndTime in
  result = match settled run with
           | inr code =>
               inr {| exitCode := code;
                      stdout := String.concat "" (stdoutOf (chunks run));
                      stderr := String.concat "" (stderrOf (chunks run)) |}
           | inl error => inl error
           end
  /\ st' = heard callerStdout callerStderr st (chunks run)
  /\ length logs = 2.
Proof.
  unfold executeCommand. cbv zeta. rewrite fold_onChunk. cbn [buf_stdout buf_stderr app].
  destruct (settled (exec (hd "" cmd) (tl cmd))); repeat split.
Qed.

End ExecuteCommandFacts.

(** *** The discovery and the command execution at concrete inputs *)

Lemma exact_shortcut_agrees_with_regex_witness :
  match patternToRegex "app[1]:latest" with
  | Some regex => test regex "app[1]:latest"
  | None => false
  end = true.
Proof.
  exact (@exact_shortcut_agrees_with_regex "app[1]:latest" "app[1]:latest" eq_refl eq_refl).
Defined.

Lemma prefix_pattern_excludes_by_prefix_witness :
  matchesExcludePattern "ghcr.io/myorg/app:latest" ["ghcr.io/myorg/*"] = true.
Proof.
  apply (proj2 (@prefix_pattern_excludes_by_prefix "ghcr.io/myorg/" "ghcr.io/myorg/app:latest"
                  eq_refl eq_refl)).
  exists "app:latest". split; reflexivity.
Defined.

Lemma suffix_pattern_excludes_by_suffix_witness :
  matchesExcludePattern "myregistry.com/app:latest" ["*:latest"] = true.
Proof.
  apply (proj2 (@suffix_pattern_excludes_by_suffix ":latest" "myregistry.com/app:latest"
                  eq_refl eq_refl)).
  exists "myregistry.com/app". split; reflexivity.
Defined.

(** The nginx of the override file has the key of the nginx of the first
    file, which is the one kept. *)
Lemma every_wanted_service_is_represented_witness :
  exists kept,
    In kept (fst (getComposeServicesFromFiles sampleLoad
                    ["compose.yaml"; "missing.yaml"; "override.yaml"] ["redis*"]))
    /\ serviceKey kept = "nginx:1.25|".
Proof.
  destruct (@every_wanted_service_is_represented sampleLoad
              ["compose.yaml"; "missing.yaml"; "override.yaml"] ["redis*"]
              "override.yaml" _ {| raw_image := Some "nginx:1.25"; raw_platform := Some "" |}
              "nginx:1.25"
              (or_intror (or_intror (or_introl eq_refl))) eq_refl (or_introl eq_refl)
              eq_refl eq_refl) as (kept & Hin & Hkey & _).
  exists kept. split; assumption.
Defined.

Lemma unreadable_file_contributes_nothing_witness :
  fst (getComposeServicesFromFiles sampleLoad
         ["compose.yaml"; "missing.yaml"; "override.yaml"] ["redis*"])
  = fst (getComposeServicesFromFiles sampleLoad ["compose.yaml"; "override.yaml"] ["redis*"]).
Proof.
  exact (proj1 (@unreadable_file_contributes_nothing sampleLoad
                  ["compose.yaml"] ["override.yaml"] ["redis*"] "missing.yaml" "ENOENT"
                  eq_refl)).
Defined.

Lemma outcome_flags_consistent_witness :
  success (outcome (processService (scriptedCache true true true (Some manifestA))
                      (scriptedDocker (fun _ => Some manifestA) true true true None)
                      nginx "p" false false 0)) = true.
Proof.
  apply (proj1 (@outcome_flags_consistent nat
                  (scriptedCache true true true (Some manifestA))
                  (scriptedDocker (fun _ => Some manifestA) true true true None)
                  nginx "p" false false 0)).
  reflexivity.
Defined.

Lemma compose_paths_exist_and_defaults_only_without_input_witness :
  getComposeFilePathsToProcess (fun path => path =? "docker-compose.yml")
    ["nonexistent1.yml"; "nonexistent2.yml"] = [].
Proof.
  apply (proj1 (proj2 (proj2 (@compose_paths_exist_and_defaults_only_without_input
                                (fun path => path =? "docker-compose.yml")
                                ["nonexistent1.yml"; "nonexistent2.yml"])))).
  - discriminate.
  - intros path [<-|[<-|[]]]; reflexivity.
Defined.

Lemma kept_services_are_wanted_and_unique_witness :
  exists img,
    raw_image {| raw_image := Some "ghcr.io/org/app:v1"; raw_platform := None |} = Some img
    /\ matchesExcludePattern img ["redis*"] = false.
Proof.
  apply (proj1 (@kept_services_are_wanted_and_unique sampleLoad
                  ["compose.yaml"; "missing.yaml"; "override.yaml"] ["redis*"])
           {| raw_image := Some "ghcr.io/org/app:v1"; raw_platform := None |}).
  right. left. reflexivity.
Defined.
